(** * The content index of the exchange: an LFU cache over a persistent map

    Shallow embedding of [exchange/index.go] (type [Index] and its methods)
    and of the parts of Go's [container/list], [sync.Mutex] and map iteration
    it relies on, together with the properties of the index established
    against that embedding. *)

From Stdlib Require Import ZArith Lia.
From stdpp Require Import base numbers option list gmap strings fin_maps sorting.

Local Open Scope Z_scope.

(** ** Machine integers

    [uint64] and [int64] values are integers in range; every arithmetic
    operation of the source is followed by the wrap-around of its type. *)

Definition u64 (z : Z) : Z := z mod 2 ^ 64.
Definition i64 (z : Z) : Z := (z + 2 ^ 63) mod 2 ^ 64 - 2 ^ 63.

Definition max_int64 : Z := 2 ^ 63 - 1.

(** ** Data model *)

(** Addresses of heap objects: [*DataRef] and [*list.Element]. *)
Definition ptr := nat.
Definition elem := nat.

(** [type DataRef struct]. [bucketNode] is the runtime-only back-pointer;
    [None] is Go's [nil]. A CID is represented by its string form, which is
    the only way the index uses it. *)
Record DataRef := mkDataRef {
  PayloadCID : string;
  PayloadSize : Z;
  StoreID : Z;
  Freq : Z;
  BucketID : Z;
  bucketNode : option elem
}.

(** The CBOR encoding of a [DataRef]: the five serialised fields. *)
Record StoredRef := mkStoredRef {
  sPayloadCID : string;
  sPayloadSize : Z;
  sStoreID : Z;
  sFreq : Z;
  sBucketID : Z
}.

Definition MarshalCBOR (r : DataRef) : StoredRef :=
  mkStoredRef (PayloadCID r) (PayloadSize r) (StoreID r) (Freq r) (BucketID r).

Definition UnmarshalCBOR (v : StoredRef) : DataRef :=
  mkDataRef (sPayloadCID v) (sPayloadSize v) (sStoreID v) (sFreq v) (sBucketID v) None.

(** [type bucket struct] and [type listEntry struct]. The Go maps
    [map[*DataRef]byte] are sets of addresses, kept here as duplicate-free
    lists; the order of the list carries no meaning for the program, a
    [range] over the map visits it in an order chosen by the environment. *)
Record bucket := mkBucket { id : Z; entries : list ptr }.
Record listEntry := mkListEntry { lentries : list ptr; freq : Z }.

Definition newBucket (i : Z) : bucket := mkBucket i [].
Definition newListEntry (f : Z) : listEntry := mkListEntry [] f.

(** The [Value] of a [list.Element] is an interface holding a [*bucket]
    (held list) or a [*listEntry] (interest list). *)
Inductive node :=
| Bucket (b : bucket)
| ListEntry (l : listEntry).

(** Map-as-set operations on entry sets: [m[k] = 1] and [delete(m, k)]. *)
Definition add_entry (p : ptr) (l : list ptr) : list ptr :=
  if decide (p ∈ l) then l else l ++ [p].
Definition del_entry (p : ptr) (l : list ptr) : list ptr :=
  filter (λ q, q ≠ p) l.

(** ** Go's container/list

    A list is the sequence of the addresses of its elements, front first.
    The elements themselves live in the heap ([elems] below) and survive
    their removal from the list: a removed element has [e.list == nil], so
    [e.Next()] is [nil] and [InsertAfter(v, e)] inserts nothing and returns
    [nil]. *)
Module GoList.

Definition Front (l : list elem) : option elem := head l.
Definition Back (l : list elem) : option elem := last l.

Fixpoint Next (e : elem) (l : list elem) : option elem :=
  match l with
  | [] => None
  | x :: l' => if decide (x = e) then head l' else Next e l'
  end.

Fixpoint insert_after (mark new : elem) (l : list elem) : list elem :=
  match l with
  | [] => []
  | x :: l' =>
      if decide (x = mark) then x :: new :: l' else x :: insert_after mark new l'
  end.

Fixpoint insert_before (mark new : elem) (l : list elem) : list elem :=
  match l with
  | [] => []
  | x :: l' =>
      if decide (x = mark) then new :: x :: l' else x :: insert_before mark new l'
  end.

Definition remove (e : elem) (l : list elem) : list elem :=
  filter (λ x, x ≠ e) l.

(** The elements visited by [for np := e; np != nil; np = np.Next()] when
    the list is not modified during the loop. *)
Fixpoint from (e : elem) (l : list elem) : list elem :=
  match l with
  | [] => [e]
  | x :: l' => if decide (x = e) then x :: l' else from e l'
  end.

End GoList.

(** ** The index *)

(** [type Index struct], with the Go heap it points into ([mem], [elems])
    and the observable state of its collaborators: the HAMT [root] as a map
    from keys to encoded records, the root last written by [Flush]
    ([rootCID], identified with the content it addresses, and [ds_idx], the
    datastore entry under [KIndex]), and the sub-stores deleted from the
    multistore. A mutex is [true] when locked. *)
Record Index := mkIndex {
  ub : Z;
  lb : Z;
  mu : bool;
  size : Z;
  blist : list elem;
  Refs : gmap string ptr;
  root : gmap string StoredRef;
  rootCID : option (gmap string StoredRef);
  imu : bool;
  freqs : list elem;
  interest : gmap string ptr;
  mem : gmap ptr DataRef;
  elems : gmap elem node;
  ds_idx : option (gmap string StoredRef);
  ms_deleted : list Z
}.

Definition set_mu (v : bool) (s : Index) : Index :=
  mkIndex (ub s) (lb s) v (size s) (blist s) (Refs s) (root s) (rootCID s)
          (imu s) (freqs s) (interest s) (mem s) (elems s) (ds_idx s) (ms_deleted s).
Definition set_size (v : Z) (s : Index) : Index :=
  mkIndex (ub s) (lb s) (mu s) v (blist s) (Refs s) (root s) (rootCID s)
          (imu s) (freqs s) (interest s) (mem s) (elems s) (ds_idx s) (ms_deleted s).
Definition set_blist (v : list elem) (s : Index) : Index :=
  mkIndex (ub s) (lb s) (mu s) (size s) v (Refs s) (root s) (rootCID s)
          (imu s) (freqs s) (interest s) (mem s) (elems s) (ds_idx s) (ms_deleted s).
Definition set_Refs (v : gmap string ptr) (s : Index) : Index :=
  mkIndex (ub s) (lb s) (mu s) (size s) (blist s) v (root s) (rootCID s)
          (imu s) (freqs s) (interest s) (mem s) (elems s) (ds_idx s) (ms_deleted s).
Definition set_root (v : gmap string StoredRef) (s : Index) : Index :=
  mkIndex (ub s) (lb s) (mu s) (size s) (blist s) (Refs s) v (rootCID s)
          (imu s) (freqs s) (interest s) (mem s) (elems s) (ds_idx s) (ms_deleted s).
Definition set_rootCID (v : option (gmap string StoredRef)) (s : Index) : Index :=
  mkIndex (ub s) (lb s) (mu s) (size s) (blist s) (Refs s) (root s) v
          (imu s) (freqs s) (interest s) (mem s) (elems s) (ds_idx s) (ms_deleted s).
Definition set_imu (v : bool) (s : Index) : Index :=
  mkIndex (ub s) (lb s) (mu s) (size s) (blist s) (Refs s) (root s) (rootCID s)
          v (freqs s) (interest s) (mem s) (elems s) (ds_idx s) (ms_deleted s).
Definition set_freqs (v : list elem) (s : Index) : Index :=
  mkIndex (ub s) (lb s) (mu s) (size s) (blist s) (Refs s) (root s) (rootCID s)
          (imu s) v (interest s) (mem s) (elems s) (ds_idx s) (ms_deleted s).
Definition set_interest (v : gmap string ptr) (s : Index) : Index :=
  mkIndex (ub s) (lb s) (mu s) (size s) (blist s) (Refs s) (root s) (rootCID s)
          (imu s) (freqs s) v (mem s) (elems s) (ds_idx s) (ms_deleted s).
Definition set_mem (v : gmap ptr DataRef) (s : Index) : Index :=
  mkIndex (ub s) (lb s) (mu s) (size s) (blist s) (Refs s) (root s) (rootCID s)
          (imu s) (freqs s) (interest s) v (elems s) (ds_idx s) (ms_deleted s).
Definition set_elems (v : gmap elem node) (s : Index) : Index :=
  mkIndex (ub s) (lb s) (mu s) (size s) (blist s) (Refs s) (root s) (rootCID s)
          (imu s) (freqs s) (interest s) (mem s) v (ds_idx s) (ms_deleted s).
Definition set_ds_idx (v : option (gmap string StoredRef)) (s : Index) : Index :=
  mkIndex (ub s) (lb s) (mu s) (size s) (blist s) (Refs s) (root s) (rootCID s)
          (imu s) (freqs s) (interest s) (mem s) (elems s) v (ms_deleted s).
Definition set_ms_deleted (v : list Z) (s : Index) : Index :=
  mkIndex (ub s) (lb s) (mu s) (size s) (blist s) (Refs s) (root s) (rootCID s)
          (imu s) (freqs s) (interest s) (mem s) (elems s) (ds_idx s) v.

(** ** Outcomes and the state monad of the methods

    A method either returns a value in a new state, panics (nil
    dereference, failed type assertion, index out of range), or blocks for
    ever on a mutex it can never obtain. *)
Inductive outcome (A : Type) :=
| Ret (a : A) (s : Index)
| Panic
| Deadlock.
Arguments Ret {A} a s.
Arguments Panic {A}.
Arguments Deadlock {A}.

Definition M (A : Type) : Type := Index → outcome A.

Definition ret {A} (a : A) : M A := λ s, Ret a s.
Definition bind {A B} (m : M A) (k : A → M B) : M B :=
  λ s, match m s with
       | Ret a s' => k a s'
       | Panic => Panic
       | Deadlock => Deadlock
       end.
Definition panic {A} : M A := λ _, Panic.
Definition gets {A} (f : Index → A) : M A := λ s, Ret (f s) s.
Definition modify (f : Index → Index) : M unit := λ s, Ret tt (f s).

#[global] Instance M_ret : MRet M := @ret.
#[global] Instance M_bind : MBind M := λ A B k m, bind m k.

(** Errors returned at the boundary. *)
Inductive error :=
| ErrRefNotFound
| ErrInterestRefNotFound
| ErrNothingInteresting
| ErrHamt
| ErrFlush
| ErrDatastore
| ErrMultistore
| ErrUnmarshal
| ErrLoadRoot.

(** What the program cannot determine: the order in which a [range] visits
    the keys of a map, and which calls into the collaborators fail. *)
Record Env := mkEnv {
  range_order : list ptr → list ptr;
  ms_delete_err : Z → bool;
  hamt_set_err : bool;
  hamt_delete_err : bool;
  hamt_flush_err : bool;
  ds_put_err : bool
}.

(** [sync.Mutex]: locking a locked mutex blocks; in a sequential run nobody
    is left to unlock it. *)
Definition mu_Lock : M unit :=
  λ s, if mu s then Deadlock else Ret tt (set_mu true s).
Definition mu_Unlock : M unit := modify (set_mu false).
Definition imu_Lock : M unit :=
  λ s, if imu s then Deadlock else Ret tt (set_imu true s).
Definition imu_Unlock : M unit := modify (set_imu false).

(** [idx.mu.Lock(); defer idx.mu.Unlock(); body]. *)
Definition with_mu {A} (body : M A) : M A :=
  mu_Lock;; a ← body; mu_Unlock;; mret a.
Definition with_imu {A} (body : M A) : M A :=
  imu_Lock;; a ← body; imu_Unlock;; mret a.

(** Heap accesses. Dereferencing an address that holds no object is a nil
    dereference; asserting that the [Value] of an element is a bucket when
    it is a list entry (or the converse) is a failed type assertion. *)
Definition load (p : ptr) : M DataRef :=
  λ s, match mem s !! p with Some r => Ret r s | None => Panic end.
Definition store (p : ptr) (r : DataRef) : M unit :=
  modify (λ s, set_mem (<[p := r]> (mem s)) s).
Definition bucket_of (e : elem) : M bucket :=
  λ s, match elems s !! e with Some (Bucket b) => Ret b s | _ => Panic end.
Definition listEntry_of (e : elem) : M listEntry :=
  λ s, match elems s !! e with Some (ListEntry l) => Ret l s | _ => Panic end.
Definition set_node (e : elem) (v : node) : M unit :=
  modify (λ s, set_elems (<[e := v]> (elems s)) s).
(** Allocation of a list element holding [v]. *)
Definition new_elem (v : node) : M elem :=
  λ s, let e := fresh (dom (elems s)) in Ret e (set_elems (<[e := v]> (elems s)) s).
(** [new(DataRef)] initialised with [r]. *)
Definition new_ref (r : DataRef) : M ptr :=
  λ s, let p := fresh (dom (mem s)) in Ret p (set_mem (<[p := r]> (mem s)) s).

(** ** Methods of the held index *)

(** [NewIndex] on an empty datastore, with the option [WithBounds(up, lo)]:
    the option panics when [up < lo]. Without the option both bounds are 0. *)
Definition empty_index (up lo : Z) : Index :=
  mkIndex up lo false 0 [] ∅ ∅ None false [] ∅ ∅ ∅ None [].

Definition NewIndex (up lo : Z) : option Index :=
  if up <? lo then None else Some (empty_index up lo).

(** [func (idx *Index) Available() uint64]. *)
Definition Available : M Z :=
  with_mu (
    s ← gets (λ s, s);
    let margin := u64 (ub s - lb s) in
    if u64 (ub s - size s) <? margin then mret 0
    else mret (u64 (ub s - size s))).

(** [func (idx *Index) Flush() error]: [root.Flush] and [store.Put] write
    the nodes and yield the new root, which is recorded in [rootCID] and
    then written to the datastore. *)
Definition Flush (env : Env) : M (option error) :=
  if hamt_flush_err env then mret (Some ErrFlush)
  else
    modify (λ s, set_rootCID (Some (root s)) s);;
    if ds_put_err env then mret (Some ErrDatastore)
    else modify (λ s, set_ds_idx (Some (root s)) s);; mret None.

(** [idx.blist.PushFront(v)] and [idx.blist.InsertAfter(v, mark)]. *)
Definition blist_PushFront (v : bucket) : M elem :=
  e ← new_elem (Bucket v);
  modify (λ s, set_blist (e :: blist s) s);;
  mret e.

Definition blist_InsertAfter (v : bucket) (mark : elem) : M (option elem) :=
  l ← gets blist;
  if decide (mark ∈ l) then
    e ← new_elem (Bucket v);
    modify (λ s, set_blist (GoList.insert_after mark e (blist s)) s);;
    mret (Some e)
  else mret None.

(** [func (idx *Index) remBlistEntry(place *list.Element, entry *DataRef)]. *)
Definition remBlistEntry (place : elem) (entry : ptr) : M unit :=
  b ← bucket_of place;
  let es := del_entry entry (entries b) in
  set_node place (Bucket (mkBucket (id b) es));;
  match es with
  | [] => modify (λ s, set_blist (GoList.remove place (blist s)) s)
  | _ :: _ => mret tt
  end.

(** [func (idx *Index) increment(ref *DataRef)]. *)
Definition increment (ref : ptr) : M unit :=
  r ← load ref;
  let currentPlace := bucketNode r in
  '(nextID, nextPlace) ←
    match currentPlace with
    | None =>
        back ← gets (λ s, GoList.Back (blist s));
        match back with
        | None => mret (1, None)
        | Some np => b ← bucket_of np; mret (id b, Some np)
        end
    | Some cp =>
        b ← bucket_of cp;
        nx ← gets (λ s, GoList.Next cp (blist s));
        mret (i64 (id b + 1), nx)
    end;
  create ←
    match nextPlace with
    | None => mret true
    | Some np => b ← bucket_of np; mret (negb (id b =? nextID))
    end;
  nextPlace ←
    (if create : bool then
       match currentPlace with
       | Some cp => blist_InsertAfter (newBucket nextID) cp
       | None => e ← blist_PushFront (newBucket nextID); mret (Some e)
       end
     else mret nextPlace);
  let freq' := match currentPlace with
               | Some _ => i64 (Freq r + 1)
               | None => Freq r
               end in
  store ref (mkDataRef (PayloadCID r) (PayloadSize r) (StoreID r) freq' nextID nextPlace);;
  match nextPlace with
  | None => panic
  | Some np =>
      b ← bucket_of np;
      set_node np (Bucket (mkBucket (id b) (add_entry ref (entries b))));;
      match currentPlace with
      | Some cp => remBlistEntry cp ref
      | None => mret tt
      end
  end.

(** [func (idx *Index) evict(size uint64) uint64].

    The inner loop ranges over the entries of [place]; the only entry it
    removes from the map is the one being visited, so it visits the keys
    the map had when the loop started, in the order of the environment.
    The boolean tells whether the function returned from inside the loop. *)
Fixpoint evict_entries (env : Env) (place : elem) (target : Z)
    (es : list ptr) (evicted : Z) : M (bool * Z) :=
  match es with
  | [] => mret (false, evicted)
  | entry :: es' =>
      r ← load entry;
      modify (λ s, set_Refs (delete (PayloadCID r) (Refs s)) s);;
      if ms_delete_err env (StoreID r) then
        evict_entries env place target es' evicted
      else
        modify (λ s, set_ms_deleted (ms_deleted s ++ [StoreID r]) s);;
        remBlistEntry place entry;;
        let evicted' := u64 (evicted + u64 (PayloadSize r)) in
        modify (λ s, set_size (u64 (size s - u64 (PayloadSize r))) s);;
        if target <=? evicted' then mret (true, evicted')
        else evict_entries env place target es' evicted'
  end.

(** The outer loop [for place := idx.blist.Front(); place != nil; place =
    place.Next()]. The inner loop changes no element but [place]; when it
    is over, [place.Next()] is the element that followed [place] when the
    walk reached it, unless the inner loop emptied the bucket and removed
    [place] from the list: then [place.Next()] is [nil] and the walk ends.
    [places] is the part of the list not yet visited (lemma
    [evict_entries_Next] below relates it to [GoList.Next]). *)
Fixpoint evict_walk (env : Env) (target : Z) (places : list elem)
    (evicted : Z) : M Z :=
  match places with
  | [] => mret evicted
  | place :: rest =>
      b ← bucket_of place;
      '(returned, evicted') ←
        evict_entries env place target (range_order env (entries b)) evicted;
      if returned : bool then mret evicted'
      else
        l ← gets blist;
        if decide (place ∈ l) then evict_walk env target rest evicted'
        else mret evicted'
  end.

Definition evict (env : Env) (target : Z) : M Z :=
  l ← gets blist;
  evict_walk env target l 0.

(** [func (idx *Index) SetRef(ref *DataRef) error]. *)
Definition SetRef (env : Env) (ref : ptr) : M (option error) :=
  with_mu (
    r ← load ref;
    let k := PayloadCID r in
    modify (λ s, set_Refs (<[k := ref]> (Refs s)) s);;
    modify (λ s, set_size (u64 (size s + u64 (PayloadSize r))) s);;
    s ← gets (λ s, s);
    (if (0 <? ub s) && (0 <? lb s) && (ub s <? size s)
     then evict env (u64 (size s - lb s));; mret tt
     else mret tt);;
    increment ref;;
    if hamt_set_err env then mret (Some ErrHamt)
    else
      r' ← load ref;
      modify (λ s, set_root (<[k := MarshalCBOR r']> (root s)) s);;
      Flush env).

(** [func (idx *Index) GetRef(k cid.Cid) a ref and an error]. *)
Definition GetRef (env : Env) (k : string) : M (option ptr * option error) :=
  with_mu (
    refs ← gets Refs;
    match refs !! k with
    | None => mret (None, Some ErrRefNotFound)
    | Some ref =>
        increment ref;;
        if hamt_set_err env then mret (None, Some ErrHamt)
        else
          r ← load ref;
          modify (λ s, set_root (<[k := MarshalCBOR r]> (root s)) s);;
          err ← Flush env;
          mret (Some ref, err)
    end).

(** [func (idx *Index) PeekRef(k cid.Cid) a ref and an error]. *)
Definition PeekRef (k : string) : M (option ptr * option error) :=
  with_mu (
    refs ← gets Refs;
    match refs !! k with
    | None => mret (None, Some ErrRefNotFound)
    | Some ref => mret (Some ref, None)
    end).

(** [func (idx *Index) DropRef(k cid.Cid) error]. [idx.Refs[k]] of an
    absent key is [nil], and so is the [bucketNode] of a record that was
    never placed: reading through either panics. *)
Definition DropRef (env : Env) (k : string) : M (option error) :=
  with_mu (
    if hamt_delete_err env then mret (Some ErrHamt)
    else
      s ← gets (λ s, s);
      match root s !! k with
      | None => mret (Some ErrRefNotFound)
      | Some _ =>
          modify (λ s, set_root (delete k (root s)) s);;
          match Refs s !! k with
          | None => panic
          | Some ref =>
              r ← load ref;
              match bucketNode r with
              | None => panic
              | Some place =>
                  remBlistEntry place ref;;
                  if ms_delete_err env (StoreID r) then mret (Some ErrMultistore)
                  else
                    modify (λ s, set_ms_deleted (ms_deleted s ++ [StoreID r]) s);;
                    modify (λ s, set_Refs (delete k (Refs s)) s);;
                    Flush env
              end
          end
      end).

(** The front-to-back walk of a bucket list, each bucket in [range] order. *)
Fixpoint range_buckets (env : Env) (l : list elem) : M (list ptr) :=
  match l with
  | [] => mret []
  | e :: l' =>
      b ← bucket_of e;
      rest ← range_buckets env l';
      mret (range_order env (entries b) ++ rest)
  end.

(** [func (idx *Index) ListRefs() (refs, error)]. The result slice has
    [len(idx.Refs)] slots, [nil] where the walk did not write; writing
    beyond the last slot panics. *)
Definition ListRefs (env : Env) : M (list (option ptr)) :=
  with_mu (
    s ← gets (λ s, s);
    walk ← range_buckets env (blist s);
    let n := base.size (Refs s) in
    if (n <? length walk)%nat then panic
    else mret ((Some <$> walk) ++ replicate (n - length walk)%nat None)).

(** [func (idx *Index) Len() int] and [func (idx *Index) Root() cid.Cid]. *)
Definition Len : M nat := with_mu (gets (λ s, base.size (Refs s))).

(** ** Methods of the interest index *)

(** [func (idx *Index) remFreqEntry(place *list.Element, entry *DataRef)]. *)
Definition remFreqEntry (place : elem) (entry : ptr) : M unit :=
  b ← listEntry_of place;
  let es := del_entry entry (lentries b) in
  set_node place (ListEntry (mkListEntry es (freq b)));;
  match es with
  | [] => modify (λ s, set_freqs (GoList.remove place (freqs s)) s)
  | _ :: _ => mret tt
  end.

(** [idx.freqs.PushFront(v)], [idx.freqs.PushBack(v)] and
    [idx.freqs.InsertBefore(v, mark)]. *)
Definition freqs_PushFront (v : listEntry) : M elem :=
  e ← new_elem (ListEntry v);
  modify (λ s, set_freqs (e :: freqs s) s);;
  mret e.

Definition freqs_PushBack (v : listEntry) : M elem :=
  e ← new_elem (ListEntry v);
  modify (λ s, set_freqs (freqs s ++ [e]) s);;
  mret e.

Definition freqs_InsertBefore (v : listEntry) (mark : elem) : M (option elem) :=
  l ← gets freqs;
  if decide (mark ∈ l) then
    e ← new_elem (ListEntry v);
    modify (λ s, set_freqs (GoList.insert_before mark e (freqs s)) s);;
    mret (Some e)
  else mret None.

(** The two placement loops of [LoadInterest]: scan [cands] for the bucket
    of frequency [f], or for the first bucket of a higher frequency, in
    front of which a new bucket is inserted; push a new bucket at the back
    when the scan finds neither. The result is the new [bucketNode]. *)
Fixpoint freqs_place (ref : ptr) (f : Z) (cands : list elem) : M (option elem) :=
  match cands with
  | [] => e ← freqs_PushBack (mkListEntry (add_entry ref []) f); mret (Some e)
  | np :: rest =>
      le ← listEntry_of np;
      if freq le =? f then
        set_node np (ListEntry (mkListEntry (add_entry ref (lentries le)) (freq le)));;
        mret (Some np)
      else if f <? freq le then
        freqs_InsertBefore (mkListEntry (add_entry ref []) f) np
      else freqs_place ref f rest
  end.

Definition with_Freq (f : Z) (r : DataRef) : DataRef :=
  mkDataRef (PayloadCID r) (PayloadSize r) (StoreID r) f (BucketID r) (bucketNode r).
Definition with_bucketNode (n : option elem) (r : DataRef) : DataRef :=
  mkDataRef (PayloadCID r) (PayloadSize r) (StoreID r) (Freq r) (BucketID r) n.

(** The callback that [LoadInterest] passes to [root.ForEach]. [val] is the
    encoded record, [None] when it does not decode. On the branch that
    skips a key already held, the callback returns with [idx.mu] locked. *)
Definition LoadInterest_entry (k : string) (val : option StoredRef) : M (option error) :=
  mu_Lock;;
  refs ← gets Refs;
  match refs !! k with
  | Some _ => mret None
  | None =>
      mu_Unlock;;
      match val with
      | None => mret (Some ErrUnmarshal)
      | Some sv =>
          let v := UnmarshalCBOR sv in
          ints ← gets interest;
          match ints !! k with
          | Some ref =>
              r ← load ref;
              let currentPlace := bucketNode r in
              let nextFreq := i64 (Freq r + Freq v) in
              if nextFreq =? Freq r then mret None
              else
                store ref (with_Freq nextFreq r);;
                l ← gets freqs;
                np ← freqs_place ref nextFreq
                       (match currentPlace with
                        | Some e => GoList.from e l
                        | None => []
                        end);
                store ref (with_bucketNode np (with_Freq nextFreq r));;
                match currentPlace with
                | Some cp => remFreqEntry cp ref
                | None => panic
                end;;
                mret None
          | None =>
              pv ← new_ref v;
              modify (λ s, set_interest (<[k := pv]> (interest s)) s);;
              l ← gets freqs;
              np ← match l with
                   | [] => e ← freqs_PushFront (mkListEntry (add_entry pv []) (Freq v));
                           mret (Some e)
                   | _ :: _ => freqs_place pv (Freq v) l
                   end;
              store pv (with_bucketNode np v);;
              mret None
          end
      end
  end.

(** [root.ForEach]: the callback on every entry in the order of the HAMT,
    until one returns an error. *)
Fixpoint ForEach {V} (f : string → V → M (option error))
    (l : list (string * V)) : M (option error) :=
  match l with
  | [] => mret None
  | (k, v) :: l' =>
      err ← f k v;
      match err with
      | Some e => mret (Some e)
      | None => ForEach f l'
      end
  end.

(** [func (idx *Index) LoadInterest(r cid.Cid, store cbor.IpldStore) error].
    The remote root is given by its entries, [None] when it does not load. *)
Definition LoadInterest (remote : option (list (string * option StoredRef)))
    : M (option error) :=
  match remote with
  | None => mret (Some ErrLoadRoot)
  | Some l => with_imu (ForEach LoadInterest_entry l)
  end.

(** [func (idx *Index) Interesting() (map[*DataRef]byte, error)]. The
    result map is a set of addresses. *)
Fixpoint Interesting_fill (av : Z) (es : list ptr) (out : list ptr) (added : Z)
    : M (bool * list ptr * Z) :=
  match es with
  | [] => mret (false, out, added)
  | k :: es' =>
      r ← load k;
      let out' := add_entry k out in
      let added' := u64 (added + u64 (PayloadSize r)) in
      if av <=? added' then mret (true, out', added')
      else Interesting_fill av es' out' added'
  end.

Fixpoint Interesting_walk (env : Env) (av : Z) (places : list elem)
    (out : list ptr) (added : Z) : M (list ptr) :=
  match places with
  | [] => mret out
  | e :: rest =>
      le ← listEntry_of e;
      '(returned, out', added') ←
        Interesting_fill av (range_order env (lentries le)) out added;
      if returned : bool then mret out'
      else Interesting_walk env av rest out' added'
  end.

Fixpoint Interesting_swap (env : Env) (entry : listEntry) (es : list ptr)
    : M (option (list ptr)) :=
  match es with
  | [] => mret None
  | ref :: es' =>
      r ← load ref;
      if Freq r <? freq entry then
        match range_order env (lentries entry) with
        | k :: _ => mret (Some [k])
        | [] => Interesting_swap env entry es'
        end
      else Interesting_swap env entry es'
  end.

Definition Interesting (env : Env) : M (option (list ptr) * option error) :=
  with_imu (
    av ← Available;
    if 0 <? av then
      l ← gets freqs;
      out ← Interesting_walk env av (reverse l) [] 0;
      mret (Some out, None)
    else
      front ← gets (λ s, GoList.Front (blist s));
      back ← gets (λ s, GoList.Back (freqs s));
      found ←
        match back with
        | None => mret None
        | Some e =>
            entry ← listEntry_of e;
            match front with
            | None => panic
            | Some fr =>
                b ← bucket_of fr;
                Interesting_swap env entry (range_order env (entries b))
            end
        end;
      match found with
      | Some out => mret (Some out, None)
      | None => mret (None, Some ErrNothingInteresting)
      end).



(** ** Further entry points of the held index *)

(** [func (idx *Index) GetStoreID(id cid.Cid) (multistore.StoreID, error)]:
    the lookup goes through [GetRef]. *)
Definition GetStoreID (env : Env) (k : string) : M (Z * option error) :=
  '(ref, err) ← GetRef env k;
  match err with
  | Some e => mret (0, Some e)
  | None =>
      match ref with
      | Some p => r ← load p; mret (StoreID r, None)
      | None => panic
      end
  end.

(** ** Opening an index over a datastore *)

(** [idx.blist.PushBack(v)] and [idx.blist.InsertBefore(v, mark)]. *)
Definition blist_PushBack (v : bucket) : M elem :=
  e ← new_elem (Bucket v);
  modify (λ s, set_blist (blist s ++ [e]) s);;
  mret e.

Definition blist_InsertBefore (v : bucket) (mark : elem) : M (option elem) :=
  l ← gets blist;
  if decide (mark ∈ l) then
    e ← new_elem (Bucket v);
    modify (λ s, set_blist (GoList.insert_before mark e (blist s)) s);;
    mret (Some e)
  else mret None.

(** The placement loop of [NewIndex]: scan [cands] for the bucket with the
    id [bucketID], or for the first bucket with a higher id, in front of
    which a new bucket is inserted; push a new bucket at the back when the
    scan finds neither. The result is the new [bucketNode]. *)
Fixpoint blist_place (v : ptr) (bucketID : Z) (cands : list elem) : M (option elem) :=
  match cands with
  | [] => e ← blist_PushBack (mkBucket bucketID (add_entry v [])); mret (Some e)
  | e :: rest =>
      b ← bucket_of e;
      if id b =? bucketID then
        set_node e (Bucket (mkBucket (id b) (add_entry v (entries b))));;
        mret (Some e)
      else if bucketID <? id b then
        blist_InsertBefore (mkBucket bucketID (add_entry v [])) e
      else blist_place v bucketID rest
  end.

(** The callback that [NewIndex] passes to [idx.root.ForEach]. [val] is
    the encoded record, [None] when it does not decode. The record is
    held under its own content id, not under the key [k] of the entry. *)
Definition NewIndex_entry (k : string) (val : option StoredRef) : M (option error) :=
  match val with
  | None => mret (Some ErrUnmarshal)
  | Some sv =>
      let r := UnmarshalCBOR sv in
      v ← new_ref r;
      modify (λ s, set_Refs (<[PayloadCID r := v]> (Refs s)) s);;
      modify (λ s, set_size (u64 (size s + u64 (PayloadSize r))) s);;
      l ← gets blist;
      np ← match l with
           | [] => e ← blist_PushFront (mkBucket (BucketID r) (add_entry v []));
                   mret (Some e)
           | _ :: _ => blist_place v (BucketID r) l
           end;
      store v (with_bucketNode np r);;
      mret None
  end.

(** What [idx.ds.Get(KIndex)] and [LoadRoot] find in the datastore:
    nothing ([datastore.ErrNotFound]), a failure of the datastore, bytes
    that are no content id or a root that does not load, or a root, given
    by its entries in the order of [ForEach]. *)
Inductive persisted :=
| NoIndex
| DatastoreFails
| BadRoot
| StoredRoot (l : list (string * option StoredRef)).

(** The persistent map with the entries [l]; an entry that does not decode
    has no place in [root], and [NewIndex] fails on it. *)
Definition root_of (l : list (string * option StoredRef)) : gmap string StoredRef :=
  list_to_map (omap (λ kv, match kv.2 with Some v => Some (kv.1, v) | None => None end) l).

(** [func (idx *Index) loadFromStore() error]; [hamt.NewNode] does not
    fail with the options given. The result carries the entries that
    [NewIndex] then walks. *)
Definition loadFromStore (ds : persisted)
    : M (option error * list (string * option StoredRef)) :=
  match ds with
  | NoIndex => modify (set_root ∅);; mret (None, [])
  | DatastoreFails => mret (Some ErrDatastore, [])
  | BadRoot => mret (Some ErrLoadRoot, [])
  | StoredRoot l =>
      modify (set_root (root_of l));;
      modify (set_rootCID (Some (root_of l)));;
      mret (None, l)
  end.

(** [type IndexOption func(idx)] and [func WithBounds(up, lo uint64)]. *)
Definition IndexOption : Type := M unit.

Definition set_bounds (up lo : Z) (s : Index) : Index :=
  mkIndex up lo (mu s) (size s) (blist s) (Refs s) (root s) (rootCID s)
          (imu s) (freqs s) (interest s) (mem s) (elems s) (ds_idx s) (ms_deleted s).

Definition WithBounds (up lo : Z) : IndexOption :=
  if up <? lo then panic else modify (set_bounds up lo).

Fixpoint apply_opts (opts : list IndexOption) : M unit :=
  match opts with
  | [] => mret ()
  | o :: opts' => o;; apply_opts opts'
  end.

(** [func NewIndex(ds, ms, opts ...IndexOption) (idx, error)] over a
    datastore that holds [ds]: the index built, with the error returned;
    when the error is not nil the caller gets no index. The datastore
    entry of the new index is the one found. *)
Definition NewIndex_over (ds : persisted) (opts : list IndexOption)
    : outcome (option error) :=
  (apply_opts opts;;
   '(err, l) ← loadFromStore ds;
   match err with
   | Some e => mret (Some e)
   | None => ForEach NewIndex_entry l
   end)
    (mkIndex 0 0 false 0 [] ∅ ∅ None false [] ∅ ∅ ∅
       (match ds with StoredRoot l => Some (root_of l) | _ => None end) []).

(** ** Vocabulary of the properties *)

(** [returns m s Q]: run from [s], the method returns, with a value and a
    state that satisfy [Q]. [ensures m s Q] is the partial form: a run
    that panics or blocks promises nothing. *)
Definition returns {A} (m : M A) (s : Index) (Q : A → Index → Prop) : Prop :=
  match m s with
  | Ret a s' => Q a s'
  | Panic | Deadlock => False
  end.

Definition ensures {A} (m : M A) (s : Index) (Q : A → Index → Prop) : Prop :=
  match m s with
  | Ret a s' => Q a s'
  | Panic | Deadlock => True
  end.

(** A [range] visits every key of the map exactly once. *)
Definition range_perm (env : Env) : Prop :=
  ∀ l : list ptr, range_order env l ≡ₚ l.

(** Reading the heap. *)
Definition bucket_at (s : Index) (e : elem) : option bucket :=
  match elems s !! e with
  | Some (Bucket b) => Some b
  | _ => None
  end.
Definition bid (s : Index) (e : elem) : Z :=
  match bucket_at s e with Some b => id b | None => 0 end.
Definition bentries (s : Index) (e : elem) : list ptr :=
  match bucket_at s e with Some b => entries b | None => [] end.
Definition psize (s : Index) (p : ptr) : Z :=
  match mem s !! p with Some r => PayloadSize r | None => 0 end.
Definition pfreq (s : Index) (p : ptr) : Z :=
  match mem s !! p with Some r => Freq r | None => 0 end.
Definition pcid (s : Index) (p : ptr) : string :=
  match mem s !! p with Some r => PayloadCID r | None => "" end.
Definition pstore (s : Index) (p : ptr) : Z :=
  match mem s !! p with Some r => StoreID r | None => 0 end.

Definition sumZ (l : list Z) : Z := foldr Z.add 0 l.

(** The records of the bucket list, front to back, and their bytes. *)
Definition placed (s : Index) : list ptr := concat (bentries s <$> blist s).
Definition bytes_of (s : Index) (l : list ptr) : Z := sumZ (psize s <$> l).

(** The front-to-back walk that [ListRefs] and [evict] perform. *)
Definition walk (env : Env) (s : Index) : list ptr :=
  concat ((λ e, range_order env (bentries s e)) <$> blist s).

(** ** Scenarios *)
Module Scenario.

(** An environment in which nothing fails and a [range] visits the keys
    in the order of insertion, and one in which it visits them in the
    opposite order. *)
Definition env_ok : Env := mkEnv (λ l, l) (λ _, false) false false false false.
Definition env_rev : Env := mkEnv reverse (λ _, false) false false false false.
(** The multistore fails to delete sub-store 1. *)
Definition env_ms1 : Env :=
  mkEnv (λ l, l) (λ i, bool_decide (i = 1)) false false false false.

Definition pA : ptr := 1%nat.
Definition pB : ptr := 2%nat.
Definition pC : ptr := 3%nat.
Definition recA : DataRef := mkDataRef "A" 100 1 0 0 None.
Definition recB : DataRef := mkDataRef "B" 100 2 0 0 None.
Definition recC : DataRef := mkDataRef "C" 100 3 0 0 None.

(** A new index with bounds [(up, lo)]; the caller has allocated the
    records A, B and C of 100 bytes each. *)
Definition start (up lo : Z) : Index :=
  set_mem (<[pA := recA]> (<[pB := recB]> (<[pC := recC]> ∅))) (empty_index up lo).

(** A remote root with A (frequency 3) and B (frequency 1). *)
Definition remoteAB : list (string * option StoredRef) :=
  [("A", Some (mkStoredRef "A" 100 7 3 4)); ("B", Some (mkStoredRef "B" 50 8 1 2))].

(** The state of an index whose size is given, everything else empty. *)
Definition sized (up lo sz : Z) : Index := set_size sz (empty_index up lo).

End Scenario.

(** [preserves f m]: whenever [m] returns, the observation [f] of the state
    is what it was. *)
Definition preserves {A B} (f : Index → B) (m : M A) : Prop :=
  ∀ s, ensures m s (λ _ s', f s' = f s).

(** The observation [f] of the state does not depend on the field written
    by [set]. *)
Definition ignores {C V} (f : Index → C) (set : V → Index → Index) : Prop :=
  ∀ s v, f (set v s) = f s.



(** No key lives in the held map and in the interest map at once. *)
Definition disjoint_keys (s : Index) : Prop :=
  ∀ k, is_Some (Refs s !! k) → interest s !! k = None.

(** ** The invariants of the held state *)

(** [p] is an entry of bucket [e], and [e] is in the bucket list. *)
Definition in_bucket (s : Index) (e : elem) (p : ptr) : Prop :=
  e ∈ blist s ∧ p ∈ bentries s e.

(** The bucket list is well formed: its elements are distinct buckets;
    none is empty (but [hole], a bucket just created); every entry has a
    back-pointer to its bucket and carries the id of its bucket (but
    [ghost], an entry being moved away from its old bucket); ids are
    strictly ascending front to back, within [int64]. *)
Record bucket_wf (hole : option elem) (ghost : option (ptr * elem))
    (s : Index) : Prop := mk_bucket_wf {
  bw_nodup : NoDup (blist s);
  bw_bucket : ∀ e, e ∈ blist s → is_Some (bucket_at s e);
  bw_nonempty : ∀ e, e ∈ blist s → hole ≠ Some e → bentries s e ≠ [];
  bw_entries_nodup : ∀ e, e ∈ blist s → NoDup (bentries s e);
  bw_back : ∀ e p, in_bucket s e p → ghost ≠ Some (p, e) →
    ∃ r, mem s !! p = Some r ∧ bucketNode r = Some e ∧ BucketID r = bid s e;
  bw_sorted : StronglySorted (λ e1 e2, bid s e1 < bid s e2) (blist s);
  bw_range : ∀ e, e ∈ blist s → - 2 ^ 63 ≤ bid s e ≤ max_int64
}.

Definition list_wf (s : Index) : Prop := bucket_wf None None s.

(** Every held record is an entry of a bucket of the list, under the key
    that is its content id. *)
Definition held_ok (s : Index) : Prop :=
  ∀ k p, Refs s !! k = Some p → pcid s p = k ∧ ∃ e, in_bucket s e p.

Definition held_wf (s : Index) : Prop := list_wf s ∧ held_ok s.


(** The fields that [Flush] leaves alone. *)
Definition flush_frame (s : Index) :=
  (ub s, lb s, mu s, size s, blist s, Refs s, root s, imu s, freqs s,
   interest s, mem s, elems s, ms_deleted s).

(** The sum of the sizes of the records of the held map. *)
Definition held_bytes (s : Index) : Z :=
  sumZ ((λ kp, psize s kp.2) <$> map_to_list (Refs s)).

(** The fields that [increment] leaves alone, and those that the interest
    methods leave alone. *)
Definition increment_frame (s : Index) :=
  (ub s, lb s, mu s, size s, Refs s, root s, rootCID s, imu s, freqs s,
   interest s, ds_idx s, ms_deleted s).

(** Every held record is in the bucket list, but possibly [x], the record
    that [SetRef] has put in the held map and not yet in the list. *)
Definition held_ok_but (x : option ptr) (s : Index) : Prop :=
  ∀ k p, Refs s !! k = Some p →
    pcid s p = k ∧ (x ≠ Some p → ∃ e, in_bucket s e p).

(** The accumulated size exceeds the bytes of the bucket list by [c]. *)
Definition size_rel (c : Z) (s : Index) : Prop :=
  size s = bytes_of s (placed s) + c ∧ 0 ≤ c ∧ size s < 2 ^ 64 ∧
  ∀ p, p ∈ placed s → 0 ≤ psize s p.

(** The accumulated size is the sum of the sizes of the records of the
    bucket list, which are sizes: non-negative, no overflow. *)
Definition size_ok (s : Index) : Prop := size_rel 0 s.

(** The records of [l] whose sub-store the multistore deletes. *)
Definition deleted_of (env : Env) (s : Index) (l : list ptr) : list ptr :=
  filter (λ p, ms_delete_err env (pstore s p) = false) l.

(** The fields that [evict] leaves alone. *)
Definition evict_frame (s : Index) :=
  (ub s, lb s, mu s, root s, rootCID s, imu s, freqs s, interest s, ds_idx s).

(** What the inner loop of [evict] has done when it stops, having visited
    [visited] of the entries [es] of [place]. *)
Definition evict_entries_post (env : Env) (place : elem) (target : Z)
    (es : list ptr) (evicted : Z) (s : Index) (res : bool * Z) (s' : Index) : Prop :=
  ∃ visited rest, es = visited ++ rest ∧ (res.1 = false → rest = []) ∧
    list_wf s' ∧ mem s' = mem s ∧ (∀ e, bid s' e = bid s e) ∧
    (∀ e p, in_bucket s' e p ↔
            in_bucket s e p ∧ ¬ (e = place ∧ p ∈ deleted_of env s visited)) ∧
    Refs s' = foldl (λ m p, delete (pcid s p) m) (Refs s) visited ∧
    ms_deleted s' = ms_deleted s ++ (pstore s <$> deleted_of env s visited) ∧
    evict_frame s' = evict_frame s ∧
    (res.1 = true → target ≤ res.2) ∧
    ((∃ c, size_rel c s) → 0 ≤ evicted → evicted + size s < 2 ^ 64 →
       size s' = size s - bytes_of s (deleted_of env s visited) ∧
       res.2 = evicted + bytes_of s (deleted_of env s visited) ∧
       (res.1 = false → deleted_of env s visited ≠ [] → res.2 < target) ∧
       (∀ v0 v1, visited = v0 ++ v1 → v1 ≠ [] → deleted_of env s v0 ≠ [] →
          evicted + bytes_of s (deleted_of env s v0) < target)).

(** What [evict] may have done between [s] and [s']: the bucket list is
    still well formed and holds a part of what it held, the heap of records
    is untouched, held records are still in the list, the held map has
    lost keys only, and only keys of records that were in the list. *)
Definition evict_post (x : option ptr) (s s' : Index) : Prop :=
  list_wf s' ∧ mem s' = mem s ∧ (∀ e, bid s' e = bid s e) ∧
  (∀ e p, in_bucket s' e p → in_bucket s e p) ∧
  (held_ok_but x s → held_ok_but x s') ∧
  Refs s' ⊆ Refs s ∧
  (∀ k, (∀ p, p ∈ placed s → pcid s p ≠ k) → Refs s' !! k = Refs s !! k) ∧
  evict_frame s' = evict_frame s.

(** The accounting of [evict], when sizes are sizes: what was taken from
    the accumulated size was added to [evicted]. *)
Definition evict_sizes (evicted : Z) (s : Index) (ev' : Z) (s' : Index) : Prop :=
  ∀ c, size_rel c s → 0 ≤ evicted → evicted + size s < 2 ^ 64 →
    size_rel c s' ∧ 0 ≤ ev' ∧ ev' + size s' = evicted + size s.

(** ** Further vocabulary *)

(** The state in which [m] returns when run from [s] ([s] itself when it
    does not return). *)
Definition after {A} (m : M A) (s : Index) : Index :=
  match m s with
  | Ret _ s' => s'
  | Panic | Deadlock => s
  end.


(** The bucket id that the record at [p] carries. *)
Definition pbid (s : Index) (p : ptr) : Z :=
  match mem s !! p with Some r => BucketID r | None => 0 end.

(** What a placement of the record [v] with the bucket id [i] has done
    between [s] and [s'], before the back-pointer of [v] is written: [v]
    was added to a bucket [e] of the list that has the id [i], or a new
    bucket [e] that holds [v] alone stands between the buckets of lower
    and those of higher id. *)
Definition placed_at (v : ptr) (i : Z) (s : Index) (e : elem) (s' : Index) : Prop :=
  (∃ b, e ∈ blist s ∧ elems s !! e = Some (Bucket b) ∧ id b = i ∧
        elems s' = <[e := Bucket (mkBucket (id b) (add_entry v (entries b)))]> (elems s) ∧
        blist s' = blist s) ∨
  (∃ l1 l2, blist s = l1 ++ l2 ∧ elems s !! e = None ∧
        elems s' = <[e := Bucket (mkBucket i [v])]> (elems s) ∧
        blist s' = l1 ++ e :: l2 ∧
        (∀ x, x ∈ l1 → bid s x < i) ∧ (∀ x, x ∈ l2 → i < bid s x)).

(** The fields that a placement leaves alone. *)
Definition place_frame (s : Index) :=
  (ub s, lb s, mu s, size s, Refs s, root s, rootCID s, imu s, freqs s,
   interest s, mem s, ds_idx s, ms_deleted s).

(** The fields that loading a persisted record leaves alone. *)
Definition load_frame (s : Index) :=
  (ub s, lb s, mu s, root s, rootCID s, imu s, freqs s, interest s, ds_idx s,
   ms_deleted s).

(** An entry of a persisted root as the index writes them: it decodes to
    a record that has the key of the entry as its content id, an [int64]
    as bucket id and a size that is not negative. *)
Definition stored_ok (kv : string * option StoredRef) : Prop :=
  ∃ sv, kv.2 = Some sv ∧ sPayloadCID sv = kv.1 ∧
        - 2 ^ 63 ≤ sBucketID sv ≤ max_int64 ∧ 0 ≤ sPayloadSize sv.

Definition stored_bytes (l : list (string * option StoredRef)) : Z :=
  sumZ ((λ kv, match kv.2 with Some sv => sPayloadSize sv | None => 0 end) <$> l).


Module Fixture.

(** The index of [Scenario.start] after [SetRef] of A, when nothing fails. *)
Definition held_A : Index :=
  after (SetRef Scenario.env_ok Scenario.pA) (Scenario.start 0 0).

(** A is inserted, then B, with bounds (150, 100) and a multistore that
    fails to delete the sub-store of A: the second insertion evicts A from
    the held map and leaves it in the bucket list. *)
Definition stale_A : Index :=
  after (SetRef Scenario.env_ms1 Scenario.pB)
    (after (SetRef Scenario.env_ms1 Scenario.pA) (Scenario.start 150 100)).

(** A persisted root with A in bucket 4 and B in bucket 2. *)
Definition rootAB : list (string * option StoredRef) :=
  [("A", Some (mkStoredRef "A" 100 1 3 4)); ("B", Some (mkStoredRef "B" 50 2 1 2))].

End Fixture.

(** ** Machine integers *)

Lemma u64_small z : 0 ≤ z < 2 ^ 64 → u64 z = z.
Proof. intros. unfold u64. apply Z.mod_small. lia. Qed.

Lemma u64_range z : 0 ≤ u64 z < 2 ^ 64.
Proof. unfold u64. apply Z.mod_pos_bound. lia. Qed.

Lemma i64_small z : - 2 ^ 63 ≤ z ≤ max_int64 → i64 z = z.
Proof.
  unfold i64, max_int64. intros. rewrite Z.mod_small by lia. lia.
Qed.

(** ** Available *)

Lemma set_mu_unlock s : mu s = false → set_mu false (set_mu true s) = s.
Proof. destruct s; simpl; intros ->; reflexivity. Qed.

Lemma Available_eq s :
  mu s = false →
  Available s =
  Ret (if u64 (ub s - size s) <? u64 (ub s - lb s) then 0 else u64 (ub s - size s)) s.
Proof.
  intros Hmu. unfold Available, with_mu, mu_Lock, mu_Unlock.
  unfold mbind, M_bind, bind, mret, M_ret, ret, gets, modify. rewrite Hmu. simpl.
  destruct (_ <? _); simpl; rewrite set_mu_unlock; auto.
Qed.

(** C4, as the code has it: within the upper bound, [Available] returns
    [ub - size] when that quantity is at least the margin [ub - lb], and 0
    when it is smaller. *)
Theorem Available_within_bounds s :
  mu s = false →
  0 ≤ lb s ≤ ub s → ub s < 2 ^ 64 → 0 ≤ size s ≤ ub s →
  Available s =
  Ret (if ub s - lb s <=? ub s - size s then ub s - size s else 0) s.
Proof.
  intros Hmu Hb Hu Hs. rewrite Available_eq by done.
  rewrite !u64_small by lia.
  destruct (Z.ltb_spec (ub s - size s) (ub s - lb s)),
           (Z.leb_spec (ub s - lb s) (ub s - size s)); try lia; reflexivity.
Qed.

Lemma Available_within_bounds_witness :
  Available (Scenario.sized 250 150 100) = Ret 150 (Scenario.sized 250 150 100).
Proof.
  apply (Available_within_bounds (Scenario.sized 250 150 100));
    simpl; [reflexivity | lia | lia | lia].
Defined.

(** C4, counterexample: when the size equals the lower bound, [ub - size]
    equals the margin and does not strictly exceed it, yet [Available]
    returns it. *)
Lemma Available_at_lower_bound :
  let s := Scenario.sized 250 150 150 in
  ¬ (ub s - lb s < ub s - size s) ∧ Available s = Ret 100 s.
Proof. split; [simpl; lia | vm_compute; reflexivity]. Qed.

(** The scenario of the specification with bounds [(0, 0)]: after the
    insertion of 100 bytes the subtraction [ub - size] wraps around. *)
Lemma Available_unbounded_wraps :
  returns (SetRef Scenario.env_ok Scenario.pA ;; Available) (Scenario.start 0 0)
          (λ a _, a = 2 ^ 64 - 100).
Proof. vm_compute. reflexivity. Qed.

(** ** Rules for [returns], [ensures] and [preserves] *)

Lemma returns_bind {A B} (m : M A) (k : A → M B) s Q :
  returns (m ≫= k) s Q ↔ returns m s (λ a s', returns (k a) s' Q).
Proof. unfold returns, mbind, M_bind, bind. destruct (m s); reflexivity. Qed.

Lemma ensures_bind {A B} (m : M A) (k : A → M B) s Q :
  ensures (m ≫= k) s Q ↔ ensures m s (λ a s', ensures (k a) s' Q).
Proof. unfold ensures, mbind, M_bind, bind. destruct (m s); reflexivity. Qed.

Lemma returns_mono {A} (m : M A) s (Q Q' : A → Index → Prop) :
  returns m s Q → (∀ a s', Q a s' → Q' a s') → returns m s Q'.
Proof. unfold returns. destruct (m s); auto. Qed.

Lemma ensures_mono {A} (m : M A) s (Q Q' : A → Index → Prop) :
  ensures m s Q → (∀ a s', Q a s' → Q' a s') → ensures m s Q'.
Proof. unfold ensures. destruct (m s); auto. Qed.

Lemma returns_ensures {A} (m : M A) s Q : returns m s Q → ensures m s Q.
Proof. unfold returns, ensures. destruct (m s); auto. Qed.

Lemma returns_and {A} (m : M A) s (Q Q' : A → Index → Prop) :
  returns m s Q → ensures m s Q' → returns m s (λ a s', Q a s' ∧ Q' a s').
Proof. unfold returns, ensures. destruct (m s); auto. Qed.


Lemma returns_eq {A} (m : M A) s a s' Q :
  m s = Ret a s' → Q a s' → returns m s Q.
Proof. unfold returns. intros ->. auto. Qed.

Lemma returns_inv {A} (m : M A) s Q :
  returns m s Q → ∃ a s', m s = Ret a s' ∧ Q a s'.
Proof. unfold returns. destruct (m s); [eauto | done | done]. Qed.

Lemma ensures_inv {A} (m : M A) s Q a s' :
  ensures m s Q → m s = Ret a s' → Q a s'.
Proof. unfold ensures. intros H E. rewrite E in H. exact H. Qed.

Lemma preserves_bind {A B C} (f : Index → C) (m : M A) (k : A → M B) :
  preserves f m → (∀ a, preserves f (k a)) → preserves f (m ≫= k).
Proof.
  intros Hm Hk s. apply ensures_bind. eapply ensures_mono; [apply Hm |].
  intros a s' E. simpl in E. eapply ensures_mono; [apply Hk |].
  intros b s'' E'. simpl in E'. congruence.
Qed.

Lemma preserves_ret {A C} (f : Index → C) (a : A) : preserves f (mret a).
Proof. intros s. reflexivity. Qed.

Lemma preserves_panic {A C} (f : Index → C) : preserves f (@panic A).
Proof. intros s. exact I. Qed.

Lemma preserves_gets {A C} (f : Index → C) (g : Index → A) : preserves f (gets g).
Proof. intros s. reflexivity. Qed.

Lemma preserves_modify {C} (f : Index → C) (g : Index → Index) :
  (∀ s, f (g s) = f s) → preserves f (modify g).
Proof. intros H s. apply H. Qed.

Lemma preserves_load {C} (f : Index → C) p : preserves f (load p).
Proof. intros s. unfold ensures, load. destruct (mem s !! p); done. Qed.

Lemma preserves_bucket_of {C} (f : Index → C) e : preserves f (bucket_of e).
Proof.
  intros s. unfold ensures, bucket_of. destruct (elems s !! e) as [[]|]; done.
Qed.

Lemma preserves_listEntry_of {C} (f : Index → C) e : preserves f (listEntry_of e).
Proof.
  intros s. unfold ensures, listEntry_of. destruct (elems s !! e) as [[]|]; done.
Qed.

Lemma preserves_new_elem {C} (f : Index → C) v :
  (∀ s m, f (set_elems m s) = f s) → preserves f (new_elem v).
Proof. intros H s. apply H. Qed.

Lemma preserves_new_ref {C} (f : Index → C) r :
  (∀ s m, f (set_mem m s) = f s) → preserves f (new_ref r).
Proof. intros H s. apply H. Qed.

Lemma preserves_mu_Lock {C} (f : Index → C) :
  (∀ s b, f (set_mu b s) = f s) → preserves f mu_Lock.
Proof. intros H s. unfold ensures, mu_Lock. destruct (mu s); [done | apply H]. Qed.

Lemma preserves_imu_Lock {C} (f : Index → C) :
  (∀ s b, f (set_imu b s) = f s) → preserves f imu_Lock.
Proof. intros H s. unfold ensures, imu_Lock. destruct (imu s); [done | apply H]. Qed.

(** Rules for the primitives, partial and total form. *)
Lemma ensures_ret {A} (a : A) s Q : Q a s → ensures (mret a) s Q.
Proof. auto. Qed.
Lemma ensures_panic {A} s (Q : A → Index → Prop) : ensures panic s Q.
Proof. exact I. Qed.
Lemma ensures_gets {A} (f : Index → A) s Q : Q (f s) s → ensures (gets f) s Q.
Proof. auto. Qed.
Lemma ensures_modify g s Q : Q () (g s) → ensures (modify g) s Q.
Proof. auto. Qed.
Lemma ensures_load p s Q :
  (∀ r, mem s !! p = Some r → Q r s) → ensures (load p) s Q.
Proof. unfold ensures, load. destruct (mem s !! p); auto. Qed.
Lemma ensures_bucket_of e s Q :
  (∀ b, elems s !! e = Some (Bucket b) → Q b s) → ensures (bucket_of e) s Q.
Proof. unfold ensures, bucket_of. destruct (elems s !! e) as [[]|]; auto. Qed.
Lemma ensures_listEntry_of e s Q :
  (∀ l, elems s !! e = Some (ListEntry l) → Q l s) → ensures (listEntry_of e) s Q.
Proof. unfold ensures, listEntry_of. destruct (elems s !! e) as [[]|]; auto. Qed.
Lemma ensures_mu_Lock s Q :
  (mu s = false → Q () (set_mu true s)) → ensures mu_Lock s Q.
Proof. unfold ensures, mu_Lock. destruct (mu s); auto. Qed.
Lemma ensures_imu_Lock s Q :
  (imu s = false → Q () (set_imu true s)) → ensures imu_Lock s Q.
Proof. unfold ensures, imu_Lock. destruct (imu s); auto. Qed.
Lemma ensures_new_elem v s Q :
  Q (fresh (dom (elems s))) (set_elems (<[fresh (dom (elems s)) := v]> (elems s)) s) →
  ensures (new_elem v) s Q.
Proof. auto. Qed.
Lemma ensures_new_ref r s Q :
  Q (fresh (dom (mem s))) (set_mem (<[fresh (dom (mem s)) := r]> (mem s)) s) →
  ensures (new_ref r) s Q.
Proof. auto. Qed.

Lemma returns_ret {A} (a : A) s Q : Q a s → returns (mret a) s Q.
Proof. auto. Qed.
Lemma returns_gets {A} (f : Index → A) s Q : Q (f s) s → returns (gets f) s Q.
Proof. auto. Qed.
Lemma returns_modify g s Q : Q () (g s) → returns (modify g) s Q.
Proof. auto. Qed.
Lemma returns_load p r s Q :
  mem s !! p = Some r → Q r s → returns (load p) s Q.
Proof. unfold returns, load. intros ->. auto. Qed.
Lemma returns_bucket_of e b s Q :
  elems s !! e = Some (Bucket b) → Q b s → returns (bucket_of e) s Q.
Proof. unfold returns, bucket_of. intros ->. auto. Qed.
Lemma returns_listEntry_of e l s Q :
  elems s !! e = Some (ListEntry l) → Q l s → returns (listEntry_of e) s Q.
Proof. unfold returns, listEntry_of. intros ->. auto. Qed.
Lemma returns_mu_Lock s Q :
  mu s = false → Q () (set_mu true s) → returns mu_Lock s Q.
Proof. unfold returns, mu_Lock. intros ->. auto. Qed.
Lemma returns_imu_Lock s Q :
  imu s = false → Q () (set_imu true s) → returns imu_Lock s Q.
Proof. unfold returns, imu_Lock. intros ->. auto. Qed.
Lemma returns_new_elem v s Q :
  Q (fresh (dom (elems s))) (set_elems (<[fresh (dom (elems s)) := v]> (elems s)) s) →
  returns (new_elem v) s Q.
Proof. auto. Qed.
Lemma returns_new_ref r s Q :
  Q (fresh (dom (mem s))) (set_mem (<[fresh (dom (mem s)) := r]> (mem s)) s) →
  returns (new_ref r) s Q.
Proof. auto. Qed.

(** Projections of written states. *)
Ltac state_simpl :=
  cbn [ub lb mu size blist Refs root rootCID imu freqs interest mem elems
       ds_idx ms_deleted set_mu set_size set_blist set_Refs set_root
       set_rootCID set_imu set_freqs set_interest set_mem set_elems
       set_ds_idx set_ms_deleted].
Tactic Notation "state_simpl" "in" hyp(H) :=
  cbn [ub lb mu size blist Refs root rootCID imu freqs interest mem elems
       ds_idx ms_deleted set_mu set_size set_blist set_Refs set_root
       set_rootCID set_imu set_freqs set_interest set_mem set_elems
       set_ds_idx set_ms_deleted] in H.

(** Symbolic execution, one statement at a time. [estep] never needs a
    fact about the state; [rstep] looks the needed lookups up among the
    hypotheses. *)
Ltac is_statement m :=
  lazymatch m with
  | mbind _ _ => idtac
  | mret _ => idtac
  | panic => idtac
  | gets _ => idtac
  | modify _ => idtac
  | store _ _ => idtac
  | set_node _ _ => idtac
  | load _ => idtac
  | bucket_of _ => idtac
  | listEntry_of _ => idtac
  | mu_Lock => idtac
  | mu_Unlock => idtac
  | imu_Lock => idtac
  | imu_Unlock => idtac
  | new_elem _ => idtac
  | new_ref _ => idtac
  | match _ with _ => _ end => idtac
  | _ => fail "a call"
  end.

Ltac estep :=
  lazymatch goal with
  | |- ensures (mbind _ ?m) _ _ => is_statement m; apply ensures_bind
  | |- ensures (mret _) _ _ => apply ensures_ret
  | |- ensures panic _ _ => apply ensures_panic
  | |- ensures (gets _) _ _ => apply ensures_gets
  | |- ensures (modify _) _ _ => apply ensures_modify
  | |- ensures (store _ _) _ _ => apply ensures_modify
  | |- ensures (set_node _ _) _ _ => apply ensures_modify
  | |- ensures mu_Unlock _ _ => apply ensures_modify
  | |- ensures imu_Unlock _ _ => apply ensures_modify
  | |- ensures (load _) _ _ =>
      let r := fresh "r" in let H := fresh "Hr" in
      apply ensures_load; intros r H; state_simpl in H
  | |- ensures (bucket_of _) _ _ =>
      let b := fresh "b" in let H := fresh "Hb" in
      apply ensures_bucket_of; intros b H; state_simpl in H
  | |- ensures (listEntry_of _) _ _ =>
      let le := fresh "le" in let H := fresh "Hle" in
      apply ensures_listEntry_of; intros le H; state_simpl in H
  | |- ensures mu_Lock _ _ =>
      let H := fresh "Hmu" in apply ensures_mu_Lock; intros H; state_simpl in H
  | |- ensures imu_Lock _ _ =>
      let H := fresh "Himu" in apply ensures_imu_Lock; intros H; state_simpl in H
  | |- ensures (new_elem _) _ _ => apply ensures_new_elem
  | |- ensures (new_ref _) _ _ => apply ensures_new_ref
  | |- ensures (match ?x with _ => _ end) _ _ => destruct x eqn:?
  end; cbv beta iota zeta; state_simpl.

Ltac rstep :=
  lazymatch goal with
  | |- returns (mbind _ ?m) _ _ => is_statement m; apply returns_bind
  | |- returns (mret _) _ _ => apply returns_ret
  | |- returns (gets _) _ _ => apply returns_gets
  | |- returns (modify _) _ _ => apply returns_modify
  | |- returns (store _ _) _ _ => apply returns_modify
  | |- returns (set_node _ _) _ _ => apply returns_modify
  | |- returns mu_Unlock _ _ => apply returns_modify
  | |- returns imu_Unlock _ _ => apply returns_modify
  | |- returns (load _) _ _ =>
      eapply returns_load; [simpl; first [eassumption | by simplify_map_eq] |]
  | |- returns (bucket_of _) _ _ =>
      eapply returns_bucket_of; [simpl; first [eassumption | by simplify_map_eq] |]
  | |- returns (listEntry_of _) _ _ =>
      eapply returns_listEntry_of; [simpl; first [eassumption | by simplify_map_eq] |]
  | |- returns mu_Lock _ _ => apply returns_mu_Lock; [simpl; assumption |]
  | |- returns imu_Lock _ _ => apply returns_imu_Lock; [simpl; assumption |]
  | |- returns (new_elem _) _ _ => apply returns_new_elem
  | |- returns (new_ref _) _ _ => apply returns_new_ref
  | |- returns _ _ _ => progress (cbv beta iota zeta)
  end; cbv beta iota zeta; state_simpl.

Ltac rbind :=
  lazymatch goal with
  | |- returns (mbind _ _) _ _ => apply returns_bind
  | |- _ => idtac
  end.
Tactic Notation "rcall" uconstr(lem) "as" simple_intropattern(a)
    simple_intropattern(s) simple_intropattern(H) :=
  rbind; eapply returns_mono; [ eapply lem | cbv beta; intros a s H ].

(** One step of a frame proof: decompose the program; a write is harmless
    when the observation ignores the field, by computation or by a
    hypothesis; calls to other methods are left to the database [frame]. *)
Create HintDb frame.

Ltac frame_write :=
  apply preserves_modify; intros;
  first [ reflexivity
        | match goal with H : ignores _ _ |- _ => apply H end ].

Ltac frame_step :=
  lazymatch goal with
  | |- preserves _ (mbind _ _) => apply preserves_bind; [| intros ?]
  | |- preserves _ (mret _) => apply preserves_ret
  | |- preserves _ panic => apply preserves_panic
  | |- preserves _ (gets _) => apply preserves_gets
  | |- preserves _ (modify _) => frame_write
  | |- preserves _ (load _) => apply preserves_load
  | |- preserves _ (store _ _) => frame_write
  | |- preserves _ (set_node _ _) => frame_write
  | |- preserves _ (bucket_of _) => apply preserves_bucket_of
  | |- preserves _ (listEntry_of _) => apply preserves_listEntry_of
  | |- preserves _ (new_elem _) => apply preserves_new_elem; intros;
        first [ reflexivity | match goal with H : ignores _ _ |- _ => apply H end ]
  | |- preserves _ (new_ref _) => apply preserves_new_ref; intros;
        first [ reflexivity | match goal with H : ignores _ _ |- _ => apply H end ]
  | |- preserves _ mu_Lock => apply preserves_mu_Lock; intros;
        first [ reflexivity | match goal with H : ignores _ _ |- _ => apply H end ]
  | |- preserves _ mu_Unlock => frame_write
  | |- preserves _ imu_Lock => apply preserves_imu_Lock; intros;
        first [ reflexivity | match goal with H : ignores _ _ |- _ => apply H end ]
  | |- preserves _ imu_Unlock => frame_write
  | |- preserves _ (match ?x with _ => _ end) => destruct x
  | |- preserves _ _ => solve [auto with frame]
  end.

Ltac frame := repeat frame_step.

(** How a frame lemma of the section below is used: its premises hold by
    computation for a concrete observation, by hypothesis for the
    observation of another frame lemma. *)
Ltac frame_call lem :=
  apply lem; first [ assumption | intros ? ?; reflexivity ].

Section frames.
Context {C : Type} (f : Index → C).
Hypothesis f_mu : ignores f set_mu.
Hypothesis f_size : ignores f set_size.
Hypothesis f_blist : ignores f set_blist.
Hypothesis f_Refs : ignores f set_Refs.
Hypothesis f_root : ignores f set_root.
Hypothesis f_rootCID : ignores f set_rootCID.
Hypothesis f_imu : ignores f set_imu.
Hypothesis f_freqs : ignores f set_freqs.
Hypothesis f_interest : ignores f set_interest.
Hypothesis f_mem : ignores f set_mem.
Hypothesis f_elems : ignores f set_elems.
Hypothesis f_ds_idx : ignores f set_ds_idx.
Hypothesis f_ms_deleted : ignores f set_ms_deleted.

Lemma frame_remBlistEntry place entry : preserves f (remBlistEntry place entry).
Proof using f_elems f_blist. unfold remBlistEntry. frame. Qed.

Lemma frame_Flush env : preserves f (Flush env).
Proof using f_rootCID f_ds_idx. unfold Flush. frame. Qed.










Lemma frame_DropRef env k : preserves f (DropRef env k).
Proof using f_mu f_root f_elems f_blist f_ms_deleted f_Refs f_rootCID f_ds_idx.
  pose proof frame_remBlistEntry. pose proof frame_Flush.
  unfold DropRef, with_mu. frame.
Qed.



















End frames.

(** ** DropRef *)

(** [DropRef] never writes [idx.size]. *)
Lemma DropRef_size env k : preserves size (DropRef env k).
Proof. frame_call @frame_DropRef. Qed.

(** C7, the defect: after [SetRef] of A (100 bytes) and [DropRef] of A the
    held map, the bucket list and the persistent map are empty and the
    sub-store is deleted, but the accumulated size is still 100; a second
    [DropRef] of A returns [ErrRefNotFound]. *)
Theorem DropRef_keeps_size :
  returns (SetRef Scenario.env_ok Scenario.pA) (Scenario.start 0 0) (λ a1 s1,
    a1 = None ∧ size s1 = 100 ∧
    returns (DropRef Scenario.env_ok "A") s1 (λ a2 s2,
      a2 = None ∧ Refs s2 = ∅ ∧ blist s2 = [] ∧ root s2 = ∅ ∧
      ms_deleted s2 = [1] ∧ size s2 = 100 ∧
      returns (DropRef Scenario.env_ok "A") s2 (λ a3 _, a3 = Some ErrRefNotFound))).
Proof. vm_compute. repeat split. Qed.

(** [DropRef] returns [ErrRefNotFound] exactly when the key is absent from
    the persistent map (and reading the map does not fail). *)
Lemma DropRef_not_found env k s :
  mu s = false → hamt_delete_err env = false → root s !! k = None →
  DropRef env k s = Ret (Some ErrRefNotFound) s.
Proof.
  intros Hmu He Hk. unfold DropRef, with_mu, mu_Lock, mu_Unlock.
  unfold mbind, M_bind, bind, mret, M_ret, ret, gets, modify.
  rewrite Hmu, He. simpl. rewrite Hk. simpl. rewrite set_mu_unlock; auto.
Qed.

Lemma DropRef_found env k s :
  is_Some (root s !! k) →
  ensures (DropRef env k) s (λ a _, a ≠ Some ErrRefNotFound).
Proof.
  intros [v Hk]. unfold DropRef, with_mu, Flush, remBlistEntry.
  repeat estep; simpl in *; congruence.
Qed.

(** ** The held lock in LoadInterest *)

(** The callback of [LoadInterest] on a key that is held: it returns with
    [idx.mu] locked. *)
Lemma LoadInterest_entry_held k val s p :
  mu s = false → Refs s !! k = Some p →
  LoadInterest_entry k val s = Ret None (set_mu true s).
Proof.
  intros Hmu Hk. unfold LoadInterest_entry, mu_Lock.
  unfold mbind, M_bind, bind, mret, M_ret, ret, gets. rewrite Hmu. simpl.
  rewrite Hk. reflexivity.
Qed.

(** With the lock taken, the callback blocks on the next key. *)
Lemma LoadInterest_entry_locked k val s :
  mu s = true → LoadInterest_entry k val s = Deadlock.
Proof.
  intros Hmu. unfold LoadInterest_entry, mu_Lock.
  unfold mbind, M_bind, bind. rewrite Hmu. reflexivity.
Qed.

(** C10, the defect: A is held. Loading a remote root that contains only A
    returns with the held lock taken, after which a held operation such as
    [Len] blocks; loading a remote root with A and B blocks on B. *)
Theorem LoadInterest_retains_held_lock :
  returns (SetRef Scenario.env_ok Scenario.pA) (Scenario.start 0 0) (λ _ s1,
    mu s1 = false ∧
    returns (LoadInterest (Some [("A", Some (mkStoredRef "A" 100 7 3 4))])) s1
      (λ a s2, a = None ∧ mu s2 = true ∧ Len s2 = Deadlock) ∧
    LoadInterest (Some Scenario.remoteAB) s1 = Deadlock).
Proof. vm_compute. repeat split. Qed.

(** ** Interesting on an empty held list *)

(** C9, the defect: a new index with the default bounds [(0, 0)] holds
    nothing, so [Available] is 0; once the interest list is not empty,
    [Interesting] dereferences the nil front of the held list. *)
Theorem Interesting_panics_on_empty_held :
  returns (LoadInterest (Some Scenario.remoteAB)) (empty_index 0 0) (λ a s1,
    a = None ∧ blist s1 = [] ∧ Available s1 = Ret 0 s1 ∧
    Interesting Scenario.env_ok s1 = Panic).
Proof. vm_compute. repeat split. Qed.

(** The same for every state: no space available, an empty held list and
    a non-empty interest list make [Interesting] panic. *)
Lemma Interesting_empty_held env s e le :
  mu s = false → imu s = false →
  (u64 (ub s - size s) <? u64 (ub s - lb s)) || (u64 (ub s - size s) =? 0) = true →
  blist s = [] →
  GoList.Back (freqs s) = Some e → elems s !! e = Some (ListEntry le) →
  Interesting env s = Panic.
Proof.
  intros Hmu Himu Hav Hb Hback He.
  unfold Interesting, with_imu, imu_Lock.
  unfold mbind at 1, M_bind at 1, bind at 1. rewrite Himu.
  unfold mbind at 1, M_bind at 1, bind at 1.
  unfold mbind at 1, M_bind at 1, bind at 1.
  rewrite Available_eq by done.
  change (ub (set_imu true s)) with (ub s); change (lb (set_imu true s)) with (lb s);
    change (size (set_imu true s)) with (size s).
  assert ((0 <? (if u64 (ub s - size s) <? u64 (ub s - lb s) then 0
                 else u64 (ub s - size s))) = false) as ->.
  { destruct (u64 (ub s - size s) <? u64 (ub s - lb s)); [reflexivity |].
    simpl in Hav. apply Z.eqb_eq in Hav. rewrite Hav. reflexivity. }
  unfold mbind, M_bind, bind, gets, listEntry_of, panic. simpl.
  rewrite Hb, Hback. simpl. rewrite He. reflexivity.
Qed.


(** Calling a method whose specification is known, in the middle of a
    symbolic execution. *)
Ltac ebind :=
  lazymatch goal with
  | |- ensures (mbind _ _) _ _ => apply ensures_bind
  | |- _ => idtac
  end.
Tactic Notation "ecall" uconstr(lem) "as" simple_intropattern(a)
    simple_intropattern(s) simple_intropattern(H) :=
  ebind; eapply ensures_mono; [ eapply lem | cbv beta; intros a s H ].
Tactic Notation "eframe" uconstr(lem) "as" simple_intropattern(s)
    simple_intropattern(H) :=
  ebind; eapply ensures_mono;
  [ apply lem; intros ? ?; reflexivity | cbv beta; intros _ s H; state_simpl in H ].

(** ** Disjointness of the held and the interest map *)













(** C6, counterexample: A is loaded into the interest map, then inserted
    with [SetRef]; the key is now in both maps. *)
Lemma SetRef_keeps_interest :
  returns (LoadInterest (Some Scenario.remoteAB)) (Scenario.start 0 0) (λ _ s1,
    returns (SetRef Scenario.env_ok Scenario.pA) s1 (λ _ s2,
      Refs s2 !! "A" = Some Scenario.pA ∧ is_Some (interest s2 !! "A") ∧
      ¬ disjoint_keys s2)).
Proof.
  vm_compute. split; [reflexivity |]. split; [eexists; reflexivity |].
  intros H. specialize (H "A" (ex_intro _ _ eq_refl)). vm_compute in H. discriminate.
Qed.

(** ** Entry sets *)

Lemma elem_of_add_entry p q l : p ∈ add_entry q l ↔ p = q ∨ p ∈ l.
Proof.
  unfold add_entry. case_decide.
  - split; [auto | intros [-> | ?]; done].
  - rewrite elem_of_app, list_elem_of_singleton. tauto.
Qed.

Lemma NoDup_add_entry q l : NoDup l → NoDup (add_entry q l).
Proof.
  intros Hl. unfold add_entry. case_decide; [done |].
  apply NoDup_app. split; [done |]. split; [| apply NoDup_singleton].
  intros x Hx ->%list_elem_of_singleton. done.
Qed.

Lemma add_entry_not_nil q l : add_entry q l ≠ [].
Proof.
  unfold add_entry. case_decide as Hq.
  - intros ->. by apply not_elem_of_nil in Hq.
  - by destruct l.
Qed.

Lemma elem_of_del_entry p q l : p ∈ del_entry q l ↔ p ≠ q ∧ p ∈ l.
Proof. unfold del_entry. apply (list_elem_of_filter (λ x, x ≠ q)). Qed.

Lemma NoDup_del_entry q l : NoDup l → NoDup (del_entry q l).
Proof. apply NoDup_filter. Qed.

Lemma del_entry_notin q l : q ∉ l → del_entry q l = l.
Proof.
  intros Hq. unfold del_entry. induction l as [| x l IH]; [done |].
  rewrite not_elem_of_cons in Hq. destruct Hq as [Hne Hq].
  rewrite filter_cons_True by done. by rewrite IH.
Qed.

Lemma del_entry_cons_eq q l : q ∉ l → del_entry q (q :: l) = l.
Proof.
  intros Hq. unfold del_entry. rewrite filter_cons_False by (intros H; by apply H).
  by apply del_entry_notin.
Qed.

(** ** Go lists *)

Lemma elem_of_insert_after x m n l :
  x ∈ GoList.insert_after m n l ↔ x ∈ l ∨ (x = n ∧ m ∈ l).
Proof.
  induction l as [| y l IH]; simpl.
  - rewrite elem_of_nil. split; [done | intros [[] | [_ H]]; by apply elem_of_nil in H].
  - destruct (decide (y = m)) as [-> |].
    + rewrite !elem_of_cons. split; [intros [-> | [-> | ?]]; auto | ].
      intros [[-> | ?] | [-> _]]; auto.
    + rewrite !elem_of_cons, IH. split; [intros [-> | [? | [-> ?]]]; auto |].
      intros [[-> | ?] | [-> [-> | ?]]]; auto. done.
Qed.

Lemma NoDup_insert_after m n l :
  NoDup l → n ∉ l → NoDup (GoList.insert_after m n l).
Proof.
  induction l as [| y l IH]; simpl; [done |].
  intros [Hy Hl]%NoDup_cons [Hny Hn]%not_elem_of_cons.
  destruct (decide (y = m)) as [-> |].
  - apply NoDup_cons. split; [| apply NoDup_cons; done].
    rewrite not_elem_of_cons. auto.
  - apply NoDup_cons. split; [| auto].
    rewrite elem_of_insert_after. intros [? | [-> _]]; done.
Qed.

Lemma elem_of_remove x e l : x ∈ GoList.remove e l ↔ x ≠ e ∧ x ∈ l.
Proof. unfold GoList.remove. apply (list_elem_of_filter (λ y, y ≠ e)). Qed.

Lemma remove_notin e l : e ∉ l → GoList.remove e l = l.
Proof.
  intros He. unfold GoList.remove. induction l as [| x l IH]; [done |].
  rewrite not_elem_of_cons in He. destruct He as [Hne He].
  rewrite filter_cons_True by done. by rewrite IH.
Qed.

Lemma remove_cons_eq e l : e ∉ l → GoList.remove e (e :: l) = l.
Proof.
  intros He. unfold GoList.remove.
  rewrite filter_cons_False by (intros H; by apply H). by apply remove_notin.
Qed.

Lemma StronglySorted_filter {A} (R : relation A) (P : A → Prop)
    `{∀ x, Decision (P x)} l :
  StronglySorted R l → StronglySorted R (filter P l).
Proof.
  induction 1 as [| x l Hl IH Hx]; [constructor |].
  destruct (decide (P x)).
  - rewrite filter_cons_True by done. constructor; [done |].
    rewrite Forall_forall in *. intros y [_ Hy]%list_elem_of_filter. auto.
  - by rewrite filter_cons_False.
Qed.

Lemma StronglySorted_ext {A} (f g : A → Z) l :
  (∀ x, x ∈ l → f x = g x) →
  StronglySorted (λ a b, f a < f b) l → StronglySorted (λ a b, g a < g b) l.
Proof.
  intros Hfg Hs. induction Hs as [| x l Hl IH Hx]; [constructor |].
  constructor.
  - apply IH. intros y Hy. apply Hfg. by right.
  - rewrite Forall_forall in *. intros y Hy.
    rewrite <- (Hfg x), <- (Hfg y); [by apply Hx | by right | by left].
Qed.

Lemma Next_elem_of e x l : GoList.Next e l = Some x → x ∈ l ∧ e ∈ l.
Proof.
  induction l as [| y l IH]; simpl; [done |].
  destruct (decide (y = e)) as [-> |].
  - destruct l as [| z l]; simpl; [done |]. intros [= ->].
    split; [right; left | left].
  - intros [? ?]%IH. split; by right.
Qed.

Lemma Next_sorted (key : elem → Z) e x l :
  StronglySorted (λ a b, key a < key b) l →
  GoList.Next e l = Some x → key e < key x.
Proof.
  induction 1 as [| y l Hl IH Hy]; simpl; [done |].
  destruct (decide (y = e)) as [-> |]; [| done].
  destruct l as [| z l]; simpl; [done |]. intros [= ->].
  by apply Forall_cons in Hy as [? _].
Qed.

Lemma Next_notin e l : e ∉ l → GoList.Next e l = None.
Proof.
  induction l as [| y l IH]; simpl; [done |].
  intros [? ?]%not_elem_of_cons. rewrite decide_False by done. auto.
Qed.

Lemma sorted_insert_after (key : elem → Z) m n l :
  StronglySorted (λ a b, key a < key b) l →
  m ∈ l → key m < key n →
  (∀ nx, GoList.Next m l = Some nx → key n < key nx) →
  StronglySorted (λ a b, key a < key b) (GoList.insert_after m n l).
Proof.
  induction 1 as [| y l Hl IH Hy]; simpl; [constructor |].
  intros Hm Hmn Hnext. rewrite Forall_forall in Hy.
  destruct (decide (y = m)) as [-> |].
  - constructor; [constructor; [done |] |].
    + apply Forall_forall. intros z Hz.
      destruct l as [| nx l]; [by apply elem_of_nil in Hz |].
      specialize (Hnext nx eq_refl).
      apply elem_of_cons in Hz as [-> | Hz]; [done |].
      apply StronglySorted_inv in Hl as [_ Hnx]. rewrite Forall_forall in Hnx.
      specialize (Hnx z Hz). simpl in Hnx. lia.
    + apply Forall_cons. split; [done |]. apply Forall_forall. auto.
  - apply elem_of_cons in Hm as [-> | Hm]; [done |].
    constructor; [by apply IH |].
    apply Forall_forall. intros z [Hz | [-> _]]%elem_of_insert_after; [auto |].
    specialize (Hy m Hm). simpl in Hy. lia.
Qed.

Lemma last_elem_of {A} (l : list A) x : last l = Some x → x ∈ l.
Proof.
  intros [l' ->]%last_Some. apply elem_of_app. right. by left.
Qed.

(** ** Reading buckets in a written heap *)

Section bucket_write.
Context (s s' : Index) (e : elem) (b : bucket).
Hypothesis Helems : elems s' = <[e := Bucket b]> (elems s).

Lemma bucket_at_write_eq : bucket_at s' e = Some b.
Proof using Helems. unfold bucket_at. by rewrite Helems, lookup_insert_eq. Qed.

Lemma bucket_at_write_ne e' : e' ≠ e → bucket_at s' e' = bucket_at s e'.
Proof using Helems.
  intros Hne. unfold bucket_at. by rewrite Helems, lookup_insert_ne.
Qed.

Lemma bentries_write_eq : bentries s' e = entries b.
Proof using Helems. unfold bentries. by rewrite bucket_at_write_eq. Qed.

Lemma bentries_write_ne e' : e' ≠ e → bentries s' e' = bentries s e'.
Proof using Helems. intros. unfold bentries. by rewrite bucket_at_write_ne. Qed.

Lemma bid_write_eq : bid s' e = id b.
Proof using Helems. unfold bid. by rewrite bucket_at_write_eq. Qed.

Lemma bid_write_ne e' : e' ≠ e → bid s' e' = bid s e'.
Proof using Helems. intros. unfold bid. by rewrite bucket_at_write_ne. Qed.
End bucket_write.

Lemma bucket_at_Some s e b : elems s !! e = Some (Bucket b) → bucket_at s e = Some b.
Proof. unfold bucket_at. by intros ->. Qed.

Lemma bucket_at_inv s e b : bucket_at s e = Some b → elems s !! e = Some (Bucket b).
Proof. unfold bucket_at. destruct (elems s !! e) as [[] |]; naive_solver. Qed.

Lemma bentries_Some s e b : elems s !! e = Some (Bucket b) → bentries s e = entries b.
Proof. intros H. unfold bentries. by rewrite (bucket_at_Some _ _ _ H). Qed.

Lemma bid_Some s e b : elems s !! e = Some (Bucket b) → bid s e = id b.
Proof. intros H. unfold bid. by rewrite (bucket_at_Some _ _ _ H). Qed.

Lemma bentries_None s e : elems s !! e = None → bentries s e = [].
Proof. intros H. unfold bentries, bucket_at. by rewrite H. Qed.

(** ** The three moves on a bucket list *)

(** Removing an entry from its bucket, and the bucket from the list when
    it is left empty ([remBlistEntry]). *)
Lemma wf_rem_entry s s' place entry b ghost :
  bucket_wf None ghost s → (ghost = None ∨ ghost = Some (entry, place)) →
  place ∈ blist s → elems s !! place = Some (Bucket b) →
  elems s' = <[place := Bucket (mkBucket (id b) (del_entry entry (entries b)))]> (elems s) →
  blist s' = (if decide (del_entry entry (entries b) = [])
              then GoList.remove place (blist s) else blist s) →
  mem s' = mem s →
  list_wf s' ∧
  (∀ e p, in_bucket s' e p ↔ in_bucket s e p ∧ ¬ (e = place ∧ p = entry)) ∧
  (∀ e, bid s' e = bid s e).
Proof.
  intros Hwf Hghost Hplace Hb Helems Hblist Hmem.
  pose proof (bentries_Some _ _ _ Hb) as Hes.
  pose proof (bid_Some _ _ _ Hb) as Hid.
  assert (∀ e, bid s' e = bid s e) as Hbid.
  { intros e. destruct (decide (e = place)) as [-> |].
    - by rewrite (bid_write_eq _ _ _ _ Helems).
    - by apply (bid_write_ne _ _ _ _ Helems). }
  assert (bentries s' place = del_entry entry (entries b)) as Hesp
    by (by rewrite (bentries_write_eq _ _ _ _ Helems)).
  assert (∀ e, e ≠ place → bentries s' e = bentries s e) as Heso
    by (intros; by apply (bentries_write_ne _ _ _ _ Helems)).
  assert (∀ e, e ∈ blist s' → e ∈ blist s) as Hsub.
  { intros e. rewrite Hblist. case_decide; [| done].
    rewrite elem_of_remove. tauto. }
  assert (∀ e, e ∈ blist s → e ≠ place → e ∈ blist s') as Hsup.
  { intros e He Hne. rewrite Hblist. case_decide; [| done].
    by apply elem_of_remove. }
  assert (∀ e p, in_bucket s' e p ↔ in_bucket s e p ∧ ¬ (e = place ∧ p = entry)) as Hin.
  { intros e p. unfold in_bucket. split.
    - intros [He Hp]. destruct (decide (e = place)) as [-> |].
      + rewrite Hesp in Hp. apply elem_of_del_entry in Hp as [Hne Hp].
        rewrite Hes. split; [auto | intros [_ ->]; done].
      + rewrite Heso in Hp by done. split; [auto | intros [-> _]; done].
    - intros [[He Hp] Hn]. destruct (decide (e = place)) as [-> |].
      + assert (p ∈ del_entry entry (entries b)) as Hp'.
        { apply elem_of_del_entry. rewrite Hes in Hp. split; [| done].
          intros ->. apply Hn. done. }
        split; [| by rewrite Hesp].
        rewrite Hblist. case_decide as Hnil; [| done].
        rewrite Hnil in Hp'. by apply elem_of_nil in Hp'.
      + split; [by apply Hsup | by rewrite Heso]. }
  split; [| split; done].
  destruct Hwf as [Hnd Hbk Hne Hend Hback Hsort Hrange]. constructor.
  - rewrite Hblist. case_decide; [by apply NoDup_filter | done].
  - intros e He. destruct (decide (e = place)) as [-> |].
    + rewrite (bucket_at_write_eq _ _ _ _ Helems). eauto.
    + rewrite (bucket_at_write_ne _ _ _ _ Helems) by done. auto.
  - intros e He _. destruct (decide (e = place)) as [-> |].
    + rewrite Hesp. intros Hnil. rewrite Hblist in He.
      rewrite decide_True in He by done. apply elem_of_remove in He. naive_solver.
    + rewrite Heso by done. apply Hne; auto.
  - intros e He. destruct (decide (e = place)) as [-> |].
    + rewrite Hesp. apply NoDup_del_entry. rewrite <- Hes. auto.
    + rewrite Heso by done. auto.
  - intros e p [Hi Hn]%Hin _. rewrite Hmem, Hbid. apply Hback; [done |].
    destruct Hghost as [-> | ->]; [done |]. intros [= -> ->]. apply Hn. done.
  - apply (StronglySorted_ext (bid s)); [intros; by rewrite Hbid |].
    rewrite Hblist. case_decide; [by apply StronglySorted_filter | done].
  - intros e He. rewrite Hbid. auto.
Qed.

(** Adding a record to a bucket of the list and writing its back-pointer
    and bucket id (the second half of [increment]). *)
Lemma wf_add_entry s s' np ref b r' hole ghost :
  bucket_wf hole None s → (hole = None ∨ hole = Some np) →
  np ∈ blist s → elems s !! np = Some (Bucket b) →
  elems s' = <[np := Bucket (mkBucket (id b) (add_entry ref (entries b)))]> (elems s) →
  blist s' = blist s →
  mem s' = <[ref := r']> (mem s) → bucketNode r' = Some np → BucketID r' = id b →
  (∀ e, in_bucket s e ref → e ≠ np ∧ ghost = Some (ref, e)) →
  bucket_wf None ghost s' ∧
  (∀ e p, in_bucket s' e p ↔ in_bucket s e p ∨ (e = np ∧ p = ref)) ∧
  (∀ e, bid s' e = bid s e).
Proof.
  intros Hwf Hhole Hnp Hb Helems Hblist Hmem Hnode Hbucket Hold.
  pose proof (bentries_Some _ _ _ Hb) as Hes.
  pose proof (bid_Some _ _ _ Hb) as Hid.
  assert (∀ e, bid s' e = bid s e) as Hbid.
  { intros e. destruct (decide (e = np)) as [-> |].
    - by rewrite (bid_write_eq _ _ _ _ Helems).
    - by apply (bid_write_ne _ _ _ _ Helems). }
  assert (bentries s' np = add_entry ref (entries b)) as Hesp
    by (by rewrite (bentries_write_eq _ _ _ _ Helems)).
  assert (∀ e, e ≠ np → bentries s' e = bentries s e) as Heso
    by (intros; by apply (bentries_write_ne _ _ _ _ Helems)).
  assert (∀ e p, in_bucket s' e p ↔ in_bucket s e p ∨ (e = np ∧ p = ref)) as Hin.
  { intros e p. unfold in_bucket. rewrite Hblist.
    destruct (decide (e = np)) as [-> |].
    - rewrite Hesp, elem_of_add_entry, Hes. naive_solver.
    - rewrite Heso by done. naive_solver. }
  split; [| split; done].
  destruct Hwf as [Hnd Hbk Hne Hend Hback Hsort Hrange]. constructor.
  - by rewrite Hblist.
  - intros e He. rewrite Hblist in He. destruct (decide (e = np)) as [-> |].
    + rewrite (bucket_at_write_eq _ _ _ _ Helems). eauto.
    + rewrite (bucket_at_write_ne _ _ _ _ Helems) by done. auto.
  - intros e He _. rewrite Hblist in He. destruct (decide (e = np)) as [-> |].
    + rewrite Hesp. apply add_entry_not_nil.
    + rewrite Heso by done. apply Hne; [done |].
      destruct Hhole as [-> | ->]; [done | congruence].
  - intros e He. rewrite Hblist in He. destruct (decide (e = np)) as [-> |].
    + rewrite Hesp. apply NoDup_add_entry. rewrite <- Hes. auto.
    + rewrite Heso by done. auto.
  - intros e p [Hi | [-> ->]]%Hin Hg.
    + destruct (decide (p = ref)) as [-> |].
      * destruct (Hold e Hi) as [_ ->]. done.
      * rewrite Hmem, lookup_insert_ne, Hbid by done. by apply Hback.
    + rewrite Hmem, lookup_insert_eq, Hbid, Hid. eauto.
  - rewrite Hblist. apply (StronglySorted_ext (bid s)); [intros; by rewrite Hbid | done].
  - intros e He. rewrite Hblist in He. rewrite Hbid. auto.
Qed.

Lemma list_wf_fresh s e : list_wf s → elems s !! e = None → e ∉ blist s.
Proof.
  intros Hwf He Hin. destruct (bw_bucket _ _ _ Hwf e Hin) as [b Hb].
  apply bucket_at_inv in Hb. congruence.
Qed.

(** Creating an empty bucket behind [cp], or in an empty list. *)
Lemma wf_insert_after s s' cp e nid :
  list_wf s → cp ∈ blist s → elems s !! e = None →
  elems s' = <[e := Bucket (newBucket nid)]> (elems s) →
  blist s' = GoList.insert_after cp e (blist s) →
  mem s' = mem s →
  bid s cp < nid → nid ≤ max_int64 →
  (∀ nx, GoList.Next cp (blist s) = Some nx → nid < bid s nx) →
  bucket_wf (Some e) None s' ∧
  (∀ e' p, in_bucket s' e' p ↔ in_bucket s e' p) ∧
  (∀ e', e' ≠ e → bid s' e' = bid s e') ∧
  bid s' e = nid ∧ e ∈ blist s' ∧ e ∉ blist s.
Proof.
  intros Hwf Hcp He Helems Hblist Hmem Hlt Hmax Hnext.
  pose proof (list_wf_fresh _ _ Hwf He) as Hfresh.
  assert (∀ e', e' ≠ e → bid s' e' = bid s e') as Hbid
    by (intros; by apply (bid_write_ne _ _ _ _ Helems)).
  assert (bid s' e = nid) as Hbe by (by rewrite (bid_write_eq _ _ _ _ Helems)).
  assert (bentries s' e = []) as Hese by (by rewrite (bentries_write_eq _ _ _ _ Helems)).
  assert (∀ e', e' ≠ e → bentries s' e' = bentries s e') as Heso
    by (intros; by apply (bentries_write_ne _ _ _ _ Helems)).
  assert (∀ e', e' ∈ blist s' ↔ e' ∈ blist s ∨ e' = e) as Hmemb.
  { intros e'. rewrite Hblist, elem_of_insert_after. naive_solver. }
  assert (∀ e' p, in_bucket s' e' p ↔ in_bucket s e' p) as Hin.
  { intros e' p. unfold in_bucket. rewrite Hmemb.
    destruct (decide (e' = e)) as [-> |].
    - rewrite Hese. split; [intros [_ H]; by apply elem_of_nil in H | naive_solver].
    - rewrite Heso by done. naive_solver. }
  split; [| split; [done | split; [done | split; [done | split; [| done]]]]];
    [| apply Hmemb; auto].
  destruct Hwf as [Hnd Hbk Hne Hend Hback Hsort Hrange]. constructor.
  - rewrite Hblist. by apply NoDup_insert_after.
  - intros e' [He' | ->]%Hmemb.
    + rewrite (bucket_at_write_ne _ _ _ _ Helems) by congruence. auto.
    + rewrite (bucket_at_write_eq _ _ _ _ Helems). eauto.
  - intros e' [He' | ->]%Hmemb Hh; [| done].
    rewrite Heso by congruence. by apply Hne.
  - intros e' [He' | ->]%Hmemb.
    + rewrite Heso by congruence. auto.
    + rewrite Hese. apply NoDup_nil_2.
  - intros e' p Hi%Hin _. rewrite Hmem. destruct Hi as [He' Hp].
    rewrite Hbid by congruence. by apply Hback.
  - rewrite Hblist. apply sorted_insert_after.
    + apply (StronglySorted_ext (bid s)); [| done].
      intros x Hx. symmetry. apply Hbid. congruence.
    + done.
    + rewrite Hbe, Hbid by congruence. done.
    + intros nx Hnx. rewrite Hbe. destruct (Next_elem_of _ _ _ Hnx) as [Hnxl _].
      rewrite Hbid by congruence. auto.
  - intros e' [He' | ->]%Hmemb.
    + rewrite Hbid by congruence. auto.
    + rewrite Hbe. specialize (Hrange cp Hcp). lia.
Qed.

Lemma wf_push_front_empty s s' e nid :
  list_wf s → blist s = [] →
  elems s' = <[e := Bucket (newBucket nid)]> (elems s) →
  blist s' = [e] → mem s' = mem s →
  - 2 ^ 63 ≤ nid ≤ max_int64 →
  bucket_wf (Some e) None s' ∧
  (∀ e' p, in_bucket s' e' p ↔ in_bucket s e' p) ∧
  bid s' e = nid ∧ e ∈ blist s'.
Proof.
  intros Hwf Hnil Helems Hblist Hmem Hrange.
  assert (bid s' e = nid) as Hbe by (by rewrite (bid_write_eq _ _ _ _ Helems)).
  assert (bentries s' e = []) as Hese by (by rewrite (bentries_write_eq _ _ _ _ Helems)).
  assert (∀ e' p, in_bucket s' e' p ↔ in_bucket s e' p) as Hin.
  { intros e' p. unfold in_bucket. rewrite Hblist, Hnil, list_elem_of_singleton.
    split; [intros [-> H]; rewrite Hese in H; by apply elem_of_nil in H |].
    intros [H _]. by apply elem_of_nil in H. }
  split; [| split; [done | split; [done | rewrite Hblist; by left]]].
  constructor; rewrite ?Hblist.
  - apply NoDup_singleton.
  - intros e' ->%list_elem_of_singleton.
    rewrite (bucket_at_write_eq _ _ _ _ Helems). eauto.
  - intros e' ->%list_elem_of_singleton. done.
  - intros e' ->%list_elem_of_singleton. rewrite Hese. apply NoDup_nil_2.
  - intros e' p [He' Hp] _. rewrite Hblist in He'.
    apply list_elem_of_singleton in He' as ->. rewrite Hese in Hp.
    by apply elem_of_nil in Hp.
  - repeat constructor.
  - intros e' ->%list_elem_of_singleton. by rewrite Hbe.
Qed.

(** ** remBlistEntry and increment *)

Ltac splits := repeat match goal with |- _ ∧ _ => split end.

Lemma remBlistEntry_spec s place entry ghost :
  bucket_wf None ghost s → (ghost = None ∨ ghost = Some (entry, place)) →
  place ∈ blist s →
  returns (remBlistEntry place entry) s (λ _ s',
    list_wf s' ∧
    (∀ e p, in_bucket s' e p ↔ in_bucket s e p ∧ ¬ (e = place ∧ p = entry)) ∧
    (∀ e, bid s' e = bid s e) ∧
    mem s' = mem s ∧ increment_frame s' = increment_frame s).
Proof.
  intros Hwf Hghost Hplace.
  destruct (bw_bucket _ _ _ Hwf place Hplace) as [b Hb%bucket_at_inv].
  unfold remBlistEntry. do 4 rstep.
  destruct (del_entry entry (entries b)) as [| x es] eqn:Hdel; rstep.
  - edestruct (wf_rem_entry s) as (H1 & H2 & H3); [exact Hwf | exact Hghost | exact Hplace
      | exact Hb | | | | split; [exact H1 | split; [exact H2 | split; [exact H3 |]]]];
      state_simpl; try reflexivity.
    + by rewrite Hdel.
    + by rewrite Hdel, decide_True.
    + done.
  - edestruct (wf_rem_entry s) as (H1 & H2 & H3); [exact Hwf | exact Hghost | exact Hplace
      | exact Hb | | | | split; [exact H1 | split; [exact H2 | split; [exact H3 |]]]];
      state_simpl; try reflexivity.
    + by rewrite Hdel.
    + by rewrite Hdel, decide_False.
    + done.
Qed.

(** The second half of [increment]: write the record, add it to the
    target bucket [np], take it out of the bucket [cpo] it comes from. *)
Lemma increment_tail s ref r' np cpo hole :
  bucket_wf hole None s → (hole = None ∨ hole = Some np) → np ∈ blist s →
  bucketNode r' = Some np → BucketID r' = bid s np →
  (∀ cp, cpo = Some cp → in_bucket s cp ref ∧ cp ≠ np) →
  (∀ e, in_bucket s e ref → cpo = Some e) →
  returns (store ref r';;
           b ← bucket_of np;
           set_node np (Bucket (mkBucket (id b) (add_entry ref (entries b))));;
           match cpo with
           | Some cp => remBlistEntry cp ref
           | None => mret ()
           end) s (λ _ s',
    list_wf s' ∧ increment_frame s' = increment_frame s ∧
    mem s' = <[ref := r']> (mem s) ∧
    (∀ e, bid s' e = bid s e) ∧
    (∀ e p, in_bucket s' e p ↔
            (in_bucket s e p ∧ ¬ (cpo = Some e ∧ p = ref)) ∨ (e = np ∧ p = ref))).
Proof.
  intros Hwf Hhole Hnp Hnode Hbucket Hcp Huniq.
  destruct (bw_bucket _ _ _ Hwf np Hnp) as [b Hb%bucket_at_inv].
  rewrite (bid_Some _ _ _ Hb) in Hbucket.
  repeat rstep.
  set (s2 := set_elems _ _).
  destruct (wf_add_entry s s2 np ref b r' hole
              (match cpo with Some cp => Some (ref, cp) | None => None end))
    as (Hwf2 & Hin2 & Hbid2); try done.
  { intros e He. rewrite (Huniq e He). split; [| done].
    by destruct (Hcp e (Huniq e He)). }
  destruct cpo as [cp |].
  - destruct (Hcp cp eq_refl) as [[Hcpl Hcpref] Hne].
    rcall (remBlistEntry_spec s2 cp ref (Some (ref, cp))) as ? s3
      (Hwf3 & Hin3 & Hbid3 & Hmem3 & Hfr3); [done | by right | done |].
    split; [done |]. split; [by rewrite Hfr3 |]. split; [by rewrite Hmem3 |].
    split; [intros; by rewrite Hbid3, Hbid2 |].
    intros e p. rewrite Hin3, Hin2. split.
    + intros [[Hi | [-> ->]] Hn]; [left | right; done].
      split; [done |]. intros [[= ->] ->]. apply Hn. done.
    + intros [[Hi Hn] | [-> ->]].
      * split; [by left |]. intros [-> ->]. apply Hn. done.
      * split; [by right |]. intros [-> _]. done.
  - rstep. split; [done |]. split; [done |]. split; [done |].
    split; [done |]. intros e p. rewrite Hin2. naive_solver.
Qed.

Lemma blist_InsertAfter_spec s cp nid :
  list_wf s → cp ∈ blist s → bid s cp < nid → nid ≤ max_int64 →
  (∀ nx, GoList.Next cp (blist s) = Some nx → nid < bid s nx) →
  returns (blist_InsertAfter (newBucket nid) cp) s (λ a s1,
    ∃ e, a = Some e ∧ bucket_wf (Some e) None s1 ∧
      (∀ e' p, in_bucket s1 e' p ↔ in_bucket s e' p) ∧
      (∀ e', e' ∈ blist s → bid s1 e' = bid s e') ∧
      bid s1 e = nid ∧ e ∈ blist s1 ∧
      mem s1 = mem s ∧ increment_frame s1 = increment_frame s).
Proof.
  intros Hwf Hcp Hlt Hmax Hnext. unfold blist_InsertAfter. do 2 rstep.
  rewrite decide_True by done. repeat rstep.
  set (e := fresh (dom (elems s))).
  assert (elems s !! e = None) as He by (apply not_elem_of_dom, is_fresh).
  set (s1 := set_blist _ _).
  destruct (wf_insert_after s s1 cp e nid) as (H1 & H2 & H3 & H4 & H5 & H6); try done.
  exists e. splits; try done.
  intros e' He'. apply H3. intros ->. done.
Qed.

Lemma blist_PushFront_spec s nid :
  list_wf s → blist s = [] → - 2 ^ 63 ≤ nid ≤ max_int64 →
  returns (blist_PushFront (newBucket nid)) s (λ e s1,
    bucket_wf (Some e) None s1 ∧
    (∀ e' p, in_bucket s1 e' p ↔ in_bucket s e' p) ∧
    bid s1 e = nid ∧ e ∈ blist s1 ∧
    mem s1 = mem s ∧ increment_frame s1 = increment_frame s).
Proof.
  intros Hwf Hnil Hrange. unfold blist_PushFront. repeat rstep.
  set (e := fresh (dom (elems s))).
  set (s1 := set_blist _ _).
  destruct (wf_push_front_empty s s1 e nid) as (H1 & H2 & H3 & H4); try done.
  subst s1. state_simpl. by rewrite Hnil.
Qed.

Lemma increment_spec s ref r :
  list_wf s → mem s !! ref = Some r →
  (∀ cp, bucketNode r = Some cp → in_bucket s cp ref ∧ bid s cp < max_int64) →
  returns (increment ref) s (λ _ s',
    list_wf s' ∧ increment_frame s' = increment_frame s ∧
    ∃ np fr,
      mem s' = <[ref := mkDataRef (PayloadCID r) (PayloadSize r) (StoreID r) fr
                          (bid s' np) (Some np)]> (mem s) ∧
      in_bucket s' np ref ∧
      (∀ e, e ∈ blist s → bid s' e = bid s e) ∧
      match bucketNode r with
      | None =>
          fr = Freq r ∧
          bid s' np = match last (blist s) with Some e => bid s e | None => 1 end ∧
          ∀ e p, in_bucket s' e p ↔ in_bucket s e p ∨ (e = np ∧ p = ref)
      | Some cp =>
          fr = i64 (Freq r + 1) ∧ bid s' np = bid s cp + 1 ∧
          ∀ e p, in_bucket s' e p ↔
                 (in_bucket s e p ∧ ¬ (e = cp ∧ p = ref)) ∨ (e = np ∧ p = ref)
      end).
Proof.
  intros Hwf Hr Hcp.
  assert (∀ e, in_bucket s e ref → bucketNode r = Some e) as Huniq.
  { intros e He. destruct (bw_back _ _ _ Hwf e ref He) as (r0 & Hr0 & Hn & _); [done |].
    congruence. }
  unfold increment. do 2 rstep.
  destruct (bucketNode r) as [cp |] eqn:Hnode.
  - (* move up *)
    destruct (Hcp cp eq_refl) as [[Hcpl Hrefcp] Hlt].
    destruct (bw_bucket _ _ _ Hwf cp Hcpl) as [bc Hbc%bucket_at_inv].
    pose proof (bid_Some _ _ _ Hbc) as Hidc.
    pose proof (bw_range _ _ _ Hwf cp Hcpl) as Hrc.
    assert (i64 (id bc + 1) = bid s cp + 1) as Hnid.
    { rewrite Hidc. apply i64_small. rewrite <- Hidc. lia. }
    assert (GoList.Next cp (blist s) = None ∨
            ∃ nx bn, GoList.Next cp (blist s) = Some nx ∧ nx ∈ blist s ∧
                     elems s !! nx = Some (Bucket bn) ∧ bid s cp < id bn ∧ nx ≠ cp)
      as Hnx.
    { destruct (GoList.Next cp (blist s)) as [nx |] eqn:Hnext; [right | by left].
      destruct (Next_elem_of _ _ _ Hnext) as [Hnxl _].
      destruct (bw_bucket _ _ _ Hwf nx Hnxl) as [bn Hbn%bucket_at_inv].
      pose proof (Next_sorted (bid s) _ _ _ (bw_sorted _ _ _ Hwf) Hnext) as Hlt'.
      exists nx, bn. rewrite <- (bid_Some _ _ _ Hbn).
      splits; try done. intros ->. lia. }
    repeat rstep. rewrite Hnid.
    assert (returns (blist_InsertAfter (newBucket (bid s cp + 1)) cp) s (λ a s1,
      ∃ e, a = Some e ∧ bucket_wf (Some e) None s1 ∧
        (∀ e' p, in_bucket s1 e' p ↔ in_bucket s e' p) ∧
        (∀ e', e' ∈ blist s → bid s1 e' = bid s e') ∧
        bid s1 e = bid s cp + 1 ∧ e ∈ blist s1 ∧
        mem s1 = mem s ∧ increment_frame s1 = increment_frame s) →
      returns (blist_InsertAfter (newBucket (bid s cp + 1)) cp) s (λ nextPlace s1,
        returns
          (store ref (mkDataRef (PayloadCID r) (PayloadSize r) (StoreID r)
                        (i64 (Freq r + 1)) (bid s cp + 1) nextPlace);;
           match nextPlace with
           | Some np =>
               b ← bucket_of np;
               set_node np (Bucket (mkBucket (id b) (add_entry ref (entries b))));;
               remBlistEntry cp ref
           | None => panic
           end) s1
        (λ _ s', list_wf s' ∧ increment_frame s' = increment_frame s ∧
           ∃ np fr,
             mem s' = <[ref := mkDataRef (PayloadCID r) (PayloadSize r) (StoreID r) fr
                                 (bid s' np) (Some np)]> (mem s) ∧
             in_bucket s' np ref ∧
             (∀ e, e ∈ blist s → bid s' e = bid s e) ∧
             fr = i64 (Freq r + 1) ∧ bid s' np = bid s cp + 1 ∧
             ∀ e p, in_bucket s' e p ↔
                    (in_bucket s e p ∧ ¬ (e = cp ∧ p = ref)) ∨ (e = np ∧ p = ref))))
      as Hcreate.
    { intros Hins. eapply returns_mono; [exact Hins |].
      cbv beta. intros a s1 (e & -> & Hwf1 & Hin1 & Hbid1 & Hbe & Hel & Hmem1 & Hfr1).
      assert (e ≠ cp) as Hne.
      { intros ->. specialize (Hbid1 cp Hcpl). lia. }
      eapply returns_mono;
        [apply (increment_tail s1 ref _ e (Some cp) (Some e));
           [done | by right | done | done | by rewrite Hbe | |] |].
      - intros ? [= <-]. split; [by apply Hin1 | done].
      - intros e0 He0%Hin1. by rewrite <- (Huniq e0 He0).
      - cbv beta. intros _ s' (Hwf' & Hfr' & Hmem' & Hbid' & Hin').
        split; [done |]. split; [by rewrite Hfr' |].
        exists e, (i64 (Freq r + 1)).
        split; [by rewrite Hmem', Hmem1, Hbid', Hbe |].
        split; [apply Hin'; by right |].
        split; [intros e0 He0; by rewrite Hbid', Hbid1 |].
        split; [done |]. split; [by rewrite Hbid', Hbe |].
        intros e0 p. rewrite Hin', Hin1. naive_solver. }
    destruct Hnx as [Hnone | (nx & bn & Hnext & Hnxl & Hbn & Hlt' & Hne)].
    + rewrite Hnone. repeat rstep. rbind. apply Hcreate.
      apply blist_InsertAfter_spec; try done; [lia | lia |].
      intros nx. by rewrite Hnone.
    + rewrite Hnext. repeat rstep.
      destruct (id bn =? bid s cp + 1) eqn:Heq; cbn [negb]; cbv iota.
      * apply Z.eqb_eq in Heq. rstep.
        eapply returns_mono;
          [apply (increment_tail s ref _ nx (Some cp) None);
             [done | by left | done | done | by rewrite (bid_Some _ _ _ Hbn) | |] |].
        -- intros ? [= <-]. done.
        -- intros e0 He0. by rewrite <- (Huniq e0 He0).
        -- cbv beta. intros _ s' (Hwf' & Hfr' & Hmem' & Hbid' & Hin').
           split; [done |]. split; [done |].
           exists nx, (i64 (Freq r + 1)).
           split; [by rewrite Hmem', Hbid', (bid_Some _ _ _ Hbn), Heq |].
           split; [apply Hin'; by right |].
           split; [intros; by rewrite Hbid' |].
           split; [done |]. split; [by rewrite Hbid', (bid_Some _ _ _ Hbn) |].
           intros e0 p. rewrite Hin'. naive_solver.
      * apply Z.eqb_neq in Heq. rbind. apply Hcreate.
        apply blist_InsertAfter_spec; try done; [lia | lia |].
        intros nx' Hnx'. assert (nx' = nx) as -> by congruence.
        rewrite (bid_Some _ _ _ Hbn). lia.
  - (* new entry *)
    assert (∀ e, ¬ in_bucket s e ref) as Hnowhere.
    { intros e He. specialize (Huniq e He). done. }
    repeat rstep.
    destruct (last (blist s)) as [np |] eqn:Hlast.
    + pose proof (last_elem_of _ _ Hlast) as Hnpl.
      destruct (bw_bucket _ _ _ Hwf np Hnpl) as [bn Hbn%bucket_at_inv].
      unfold GoList.Back. rewrite Hlast. repeat rstep.
      rewrite Z.eqb_refl. cbn [negb]. cbv iota. rstep.
      eapply returns_mono;
        [apply (increment_tail s ref _ np None None);
           [done | by left | done | done | by rewrite (bid_Some _ _ _ Hbn) | done |] |].
      * intros e He. by destruct (Hnowhere e).
      * cbv beta. intros _ s' (Hwf' & Hfr' & Hmem' & Hbid' & Hin').
        split; [done |]. split; [done |].
        exists np, (Freq r).
        split; [by rewrite Hmem', Hbid', (bid_Some _ _ _ Hbn) |].
        split; [apply Hin'; by right |].
        split; [intros; by rewrite Hbid' |].
        split; [done |]. split; [by rewrite Hbid' |].
        intros e0 p. rewrite Hin'. naive_solver.
    + apply last_None in Hlast.
      unfold GoList.Back. rewrite Hlast. cbn [last]. repeat rstep.
      rcall (blist_PushFront_spec s 1) as e s1
        (Hwf1 & Hin1 & Hbe & Hel & Hmem1 & Hfr1); [done | done | unfold max_int64; lia |].
      rstep.
      eapply returns_mono;
        [apply (increment_tail s1 ref _ e None (Some e));
           [done | by right | done | done | by rewrite Hbe | done |] |].
      * intros e0 He0%Hin1. by destruct (Hnowhere e0).
      * cbv beta. intros _ s' (Hwf' & Hfr' & Hmem' & Hbid' & Hin').
        split; [done |]. split; [by rewrite Hfr' |].
        exists e, (Freq r).
        split; [by rewrite Hmem', Hmem1, Hbid', Hbe |].
        split; [apply Hin'; by right |].
        split; [intros e0 He0; by apply elem_of_nil in He0 |].
        split; [done |]. split; [by rewrite Hbid', Hbe |].
        intros e0 p. rewrite Hin', Hin1. naive_solver.
Qed.

(** ** The records of the bucket list *)

Lemma elem_of_concat_fmap {A B} (f : A → list B) (l : list A) b :
  b ∈ concat (f <$> l) ↔ ∃ x, x ∈ l ∧ b ∈ f x.
Proof.
  induction l as [| x l IH]; simpl.
  - split; [by intros ?%elem_of_nil | by intros (x & ?%elem_of_nil & _)].
  - rewrite elem_of_app, IH. split.
    + intros [Hb | (y & Hy & Hb)]; [exists x | exists y]; split; try done;
        [by left | by right].
    + intros (y & [-> | Hy]%elem_of_cons & Hb); [by left | right; eauto].
Qed.

Lemma elem_of_placed s p : p ∈ placed s ↔ ∃ e, in_bucket s e p.
Proof. unfold placed, in_bucket. apply elem_of_concat_fmap. Qed.

Lemma in_bucket_unique s ghost e1 e2 p :
  bucket_wf None ghost s → ghost = None →
  in_bucket s e1 p → in_bucket s e2 p → e1 = e2.
Proof.
  intros Hwf -> H1 H2.
  destruct (bw_back _ _ _ Hwf e1 p H1) as (r1 & Hr1 & Hn1 & _); [done |].
  destruct (bw_back _ _ _ Hwf e2 p H2) as (r2 & Hr2 & Hn2 & _); [done |].
  congruence.
Qed.

Lemma NoDup_concat_fmap {A B} (f : A → list B) (l : list A) :
  NoDup l → (∀ x, x ∈ l → NoDup (f x)) →
  (∀ x y b, x ∈ l → y ∈ l → b ∈ f x → b ∈ f y → x = y) →
  NoDup (concat (f <$> l)).
Proof.
  induction l as [| x l IH]; simpl; [intros; apply NoDup_nil_2 |].
  intros [Hx Hl]%NoDup_cons Hf Hdisj. apply NoDup_app. split; [| split].
  - apply Hf. by left.
  - intros b Hb (y & Hy & Hb')%elem_of_concat_fmap.
    assert (x = y) as -> by (apply (Hdisj x y b); [by left | by right | done | done]).
    done.
  - apply IH; [done | |].
    + intros y Hy. apply Hf. by right.
    + intros y z b Hy Hz. apply Hdisj; by right.
Qed.

Lemma NoDup_placed s : list_wf s → NoDup (placed s).
Proof.
  intros Hwf. unfold placed. apply NoDup_concat_fmap.
  - apply (bw_nodup _ _ _ Hwf).
  - apply (bw_entries_nodup _ _ _ Hwf).
  - intros e1 e2 p H1 H2 Hp1 Hp2.
    by apply (in_bucket_unique s None e1 e2 p Hwf).
Qed.

Lemma in_blist_iff s e : list_wf s → e ∈ blist s ↔ ∃ p, in_bucket s e p.
Proof.
  intros Hwf. split; [| by intros (p & He & _)].
  intros He. pose proof (bw_nonempty _ _ _ Hwf e He) as Hne.
  destruct (bentries s e) as [| p l] eqn:Hes; [by destruct Hne |].
  exists p. split; [done |]. rewrite Hes. by left.
Qed.

Lemma sumZ_Permutation l k : l ≡ₚ k → sumZ l = sumZ k.
Proof. unfold sumZ. induction 1; simpl; lia. Qed.

Lemma sumZ_app l k : sumZ (l ++ k) = sumZ l + sumZ k.
Proof. unfold sumZ. induction l; simpl; lia. Qed.

Lemma sumZ_nonneg l : Forall (λ z, 0 ≤ z) l → 0 ≤ sumZ l.
Proof. unfold sumZ. induction 1; simpl; lia. Qed.

Lemma bytes_of_Permutation s l k : l ≡ₚ k → bytes_of s l = bytes_of s k.
Proof. intros H. unfold bytes_of. apply sumZ_Permutation. by rewrite H. Qed.

Lemma bytes_of_cons s p l : bytes_of s (p :: l) = psize s p + bytes_of s l.
Proof. reflexivity. Qed.

Lemma bytes_of_nil s : bytes_of s [] = 0.
Proof. reflexivity. Qed.

Lemma bytes_of_app s l k : bytes_of s (l ++ k) = bytes_of s l + bytes_of s k.
Proof. unfold bytes_of. by rewrite fmap_app, sumZ_app. Qed.

Lemma bytes_of_ext s s' l :
  (∀ p, p ∈ l → psize s' p = psize s p) → bytes_of s' l = bytes_of s l.
Proof.
  intros H. unfold bytes_of. f_equal.
  induction l as [| p l IH]; [done |]. simpl. f_equal.
  - apply H. by left.
  - apply IH. intros q Hq. apply H. by right.
Qed.

Lemma bytes_of_nonneg s l : (∀ p, p ∈ l → 0 ≤ psize s p) → 0 ≤ bytes_of s l.
Proof.
  intros H. apply sumZ_nonneg. apply Forall_fmap, Forall_forall. intros p Hp.
  by apply H.
Qed.

Lemma bytes_of_elem s l p :
  (∀ q, q ∈ l → 0 ≤ psize s q) → p ∈ l → psize s p ≤ bytes_of s l.
Proof.
  intros H Hp. apply list_elem_of_split in Hp as (l1 & l2 & ->).
  rewrite bytes_of_app, bytes_of_cons.
  assert (0 ≤ bytes_of s l1) by (apply bytes_of_nonneg; intros; apply H; set_solver).
  assert (0 ≤ bytes_of s l2) by (apply bytes_of_nonneg; intros; apply H; set_solver).
  lia.
Qed.

Lemma psize_mem s s' p : mem s' = mem s → psize s' p = psize s p.
Proof. unfold psize. by intros ->. Qed.

(** Taking a record out of the list takes its bytes out of the sum. *)
Lemma placed_remove s s' place entry :
  list_wf s → list_wf s' → in_bucket s place entry →
  (∀ e p, in_bucket s' e p ↔ in_bucket s e p ∧ ¬ (e = place ∧ p = entry)) →
  placed s ≡ₚ entry :: placed s'.
Proof.
  intros Hwf Hwf' Hin Hiff. apply NoDup_Permutation.
  - by apply NoDup_placed.
  - apply NoDup_cons. split; [| by apply NoDup_placed].
    rewrite elem_of_placed. intros (e & He). pose proof He as [He' Hn]%Hiff.
    apply Hn. split; [| done]. by apply (in_bucket_unique s None e place entry Hwf).
  - intros p. rewrite elem_of_cons, !elem_of_placed. split.
    + intros (e & He). destruct (decide (p = entry)) as [-> | Hne]; [by left |].
      right. exists e. apply Hiff. split; [done |]. intros [_ ?]. done.
    + intros [-> | (e & [He _]%Hiff)]; eauto.
Qed.

(** Putting a record into the list adds its bytes to the sum. *)
Lemma placed_add s s' np ref :
  list_wf s → list_wf s' → (∀ e, ¬ in_bucket s e ref) →
  (∀ e p, in_bucket s' e p ↔ in_bucket s e p ∨ (e = np ∧ p = ref)) →
  placed s' ≡ₚ ref :: placed s.
Proof.
  intros Hwf Hwf' Hno Hiff. apply NoDup_Permutation.
  - by apply NoDup_placed.
  - apply NoDup_cons. split; [| by apply NoDup_placed].
    rewrite elem_of_placed. intros (e & He). by apply (Hno e).
  - intros p. rewrite elem_of_cons, !elem_of_placed. split.
    + intros (e & [He | [_ ->]]%Hiff); eauto.
    + intros [-> | (e & He)]; [exists np | exists e]; apply Hiff; auto.
Qed.

(** Moving a record within the list changes nothing to the sum. *)
Lemma placed_move s s' cp np ref :
  list_wf s → list_wf s' → in_bucket s cp ref →
  (∀ e p, in_bucket s' e p ↔
          (in_bucket s e p ∧ ¬ (e = cp ∧ p = ref)) ∨ (e = np ∧ p = ref)) →
  placed s' ≡ₚ placed s.
Proof.
  intros Hwf Hwf' Hin Hiff. apply NoDup_Permutation; try by apply NoDup_placed.
  intros p. rewrite !elem_of_placed. split.
  - intros (e & [[He _] | [_ ->]]%Hiff); eauto.
  - intros (e & He). destruct (decide (p = ref)) as [-> |].
    + exists np. apply Hiff. by right.
    + exists e. apply Hiff. left. split; [done |]. intros [_ ?]. done.
Qed.

(** ** The invariants read only the bucket list and the heap *)

Lemma bucket_wf_ext hole ghost s s' :
  blist s' = blist s → elems s' = elems s → mem s' = mem s →
  bucket_wf hole ghost s → bucket_wf hole ghost s'.
Proof.
  intros Hb He Hm [H1 H2 H3 H4 H5 H6 H7].
  constructor; unfold in_bucket, bentries, bid, bucket_at in *;
    rewrite ?Hb, ?He, ?Hm; done.
Qed.

Lemma placed_ext s s' : blist s' = blist s → elems s' = elems s → placed s' = placed s.
Proof.
  intros Hb He. unfold placed, bentries, bucket_at. by rewrite Hb, He.
Qed.

Lemma size_rel_ext c s s' :
  blist s' = blist s → elems s' = elems s → mem s' = mem s → size s' = size s →
  size_rel c s → size_rel c s'.
Proof.
  intros Hb He Hm Hs (H1 & H2 & H3 & H4). unfold size_rel.
  rewrite (placed_ext s s') by done. rewrite Hs.
  rewrite (bytes_of_ext s s') by (intros; by apply psize_mem).
  splits; try done. intros p Hp. rewrite (psize_mem s s') by done. auto.
Qed.

(** ** The inner loop of evict *)

Lemma deleted_of_mem env s s' l : mem s' = mem s → deleted_of env s' l = deleted_of env s l.
Proof. intros H. unfold deleted_of, pstore. by rewrite H. Qed.

Lemma bytes_of_mem s s' l : mem s' = mem s → bytes_of s' l = bytes_of s l.
Proof. intros H. unfold bytes_of, psize. by rewrite H. Qed.

Lemma foldl_delete_mem s s' (m : gmap string ptr) l :
  mem s' = mem s →
  foldl (λ m p, delete (pcid s' p) m) m l = foldl (λ m p, delete (pcid s p) m) m l.
Proof. intros H. unfold pcid. by rewrite H. Qed.

Lemma fmap_pstore_mem s s' (l : list ptr) : mem s' = mem s → pstore s' <$> l = pstore s <$> l.
Proof. intros H. unfold pstore. by rewrite H. Qed.

Lemma size_rel_placed c s s' entry :
  size_rel c s → placed s ≡ₚ entry :: placed s' → mem s' = mem s →
  size s' = size s - psize s entry →
  size_rel c s' ∧ 0 ≤ psize s entry ≤ size s.
Proof.
  intros (Hs & Hc & Hlt & Hpos) Hperm Hmem Hsize.
  assert (0 ≤ psize s entry) as H0 by (apply Hpos; rewrite Hperm; by left).
  assert (bytes_of s (placed s) = psize s entry + bytes_of s' (placed s')) as Hb.
  { rewrite (bytes_of_Permutation _ _ _ Hperm), bytes_of_cons.
    by rewrite (bytes_of_mem s s'). }
  assert (0 ≤ bytes_of s' (placed s')) as Hnn.
  { apply bytes_of_nonneg. intros p Hp. rewrite (psize_mem s s') by done.
    apply Hpos. rewrite Hperm. by right. }
  split; [| lia]. unfold size_rel. splits; try lia.
  intros p Hp. rewrite (psize_mem s s') by done. apply Hpos. rewrite Hperm. by right.
Qed.

Lemma deleted_of_nil env s : deleted_of env s [] = [].
Proof. reflexivity. Qed.

Lemma deleted_of_cons_ok env s p l :
  ms_delete_err env (pstore s p) = false →
  deleted_of env s (p :: l) = p :: deleted_of env s l.
Proof. intros H. unfold deleted_of. by rewrite filter_cons_True. Qed.

Lemma deleted_of_cons_fail env s p l :
  ms_delete_err env (pstore s p) = true →
  deleted_of env s (p :: l) = deleted_of env s l.
Proof.
  intros H. unfold deleted_of. rewrite filter_cons_False; [done |]. by rewrite H.
Qed.

(** The observations of a state written in fields they do not read. *)
Ltac same_heap s1 s :=
  change (in_bucket s1) with (in_bucket s) in *;
  change (bid s1) with (bid s) in *;
  change (bentries s1) with (bentries s) in *;
  change (pcid s1) with (pcid s) in *;
  change (pstore s1) with (pstore s) in *;
  change (psize s1) with (psize s) in *;
  change (pfreq s1) with (pfreq s) in *;
  change (placed s1) with (placed s) in *;
  change (bytes_of s1) with (bytes_of s) in *;
  change (deleted_of ?env s1) with (deleted_of env s) in *;
  change (mem s1) with (mem s) in *;
  change (blist s1) with (blist s) in *;
  change (elems s1) with (elems s) in *.

Lemma evict_entries_spec env place target es evicted s :
  list_wf s → NoDup es → (∀ p, p ∈ es → in_bucket s place p) →
  returns (evict_entries env place target es evicted) s
          (evict_entries_post env place target es evicted s).
Proof.
  revert evicted s. induction es as [| entry es IH]; intros evicted s Hwf Hnd Hin.
  - simpl. rstep. exists [], []. rewrite !deleted_of_nil. simpl.
    rewrite app_nil_r. splits; try done.
    + intros e p. split; [intros H; split; [done | intros [_ []%elem_of_nil]] | tauto].
    + intros _ _ _. unfold bytes_of. simpl. splits; try done; [lia | lia |].
      intros v0 v1 Hv. symmetry in Hv. apply app_eq_nil in Hv as [-> ->]. done.
  - assert (in_bucket s place entry) as Hentry by (apply Hin; by left).
    apply NoDup_cons in Hnd as [Hnotin Hnd'].
    destruct (bw_back _ _ _ Hwf place entry Hentry) as (r & Hr & _); [done |].
    assert (pcid s entry = PayloadCID r) as Hcid by (unfold pcid; by rewrite Hr).
    assert (pstore s entry = StoreID r) as Hst by (unfold pstore; by rewrite Hr).
    assert (psize s entry = PayloadSize r) as Hsz by (unfold psize; by rewrite Hr).
    simpl. repeat rstep.
    destruct (ms_delete_err env (StoreID r)) eqn:Hms.
    + (* the multistore fails: next entry *)
      set (s1 := set_Refs _ s).
      eapply returns_mono; [apply (IH evicted s1) |].
      * by apply (bucket_wf_ext _ _ s).
      * done.
      * intros p Hp. apply (Hin p). by right.
      * intros [ret ev'] s' (visited & rest & Hes & Hrest & Hwf' & Hmem' & Hbid' &
                             Hin' & HRefs' & Hms' & Hfr' & Hret & Hsz').
        same_heap s1 s. simpl in *.
        exists (entry :: visited), rest.
        rewrite (deleted_of_cons_fail env s entry) by (by rewrite Hst).
        splits; try done.
        -- by rewrite Hes.
        -- rewrite HRefs'. simpl. by rewrite Hcid.
        -- intros Hc H0 Hlt. destruct (Hsz' Hc H0 Hlt) as (Hz1 & Hz2 & Hz3 & Hz4).
           splits; try done.
           intros v0 v1 Hv Hv1 Hv0. destruct v0 as [| x v0].
           ++ by rewrite deleted_of_nil in Hv0.
           ++ simpl in Hv. injection Hv as <- Hv.
              rewrite (deleted_of_cons_fail env s entry) in * by (by rewrite Hst).
              by apply (Hz4 v0 v1).
    + (* the sub-store is deleted *)
      repeat rstep. set (s1 := set_ms_deleted _ _).
      assert (list_wf s1) as Hwf1 by (by apply (bucket_wf_ext _ _ s)).
      rcall (remBlistEntry_spec s1 place entry None) as ? s2
        (Hwf2 & Hin2 & Hbid2 & Hmem2 & Hfr2); [done | by left | apply Hentry |].
      same_heap s1 s. unfold increment_frame in Hfr2. subst s1. state_simpl in Hfr2.
      injection Hfr2 as Hub Hlb Hmu Hsize HRefs Hroot HrootCID Himu Hfreqs Hint Hds Hmsd.
      repeat rstep. set (s3 := set_size _ s2).
      assert (list_wf s3) as Hwf3 by (by apply (bucket_wf_ext _ _ s2)).
      assert (placed s ≡ₚ entry :: placed s2) as Hperm
        by (by apply (placed_remove s s2 place entry)).
      assert ((∃ c, size_rel c s) → 0 ≤ evicted → evicted + size s < 2 ^ 64 →
              u64 (evicted + u64 (PayloadSize r)) = evicted + psize s entry ∧
              size s3 = size s - psize s entry ∧ (∃ c, size_rel c s3) ∧
              0 ≤ psize s entry ≤ size s) as Hsizes.
      { intros [c Hc] H0 Hlt.
        assert (size s2 - psize s entry = size s - psize s entry) as Hs2 by (by rewrite Hsize).
        assert (0 ≤ psize s entry ≤ size s) as Hrange.
        { destruct Hc as (Hs & Hc & Hlt' & Hpos).
          assert (entry ∈ placed s) as Hpl by (rewrite Hperm; by left).
          pose proof (Hpos entry Hpl). pose proof (bytes_of_elem s _ entry Hpos Hpl). lia. }
        assert (size s3 = size s - psize s entry) as Hs3.
        { subst s3. state_simpl. rewrite <- Hsz, Hsize.
          rewrite (u64_small (psize s entry)) by lia. apply u64_small. lia. }
        splits; try lia.
        - rewrite <- Hsz. rewrite (u64_small (psize s entry)) by lia.
          apply u64_small. lia.
        - exists c. apply (size_rel_placed c s s3 entry Hc); try done. }
      destruct (target <=? u64 (evicted + u64 (PayloadSize r))) eqn:Hreach.
      * rstep. exists [entry], es.
        rewrite (deleted_of_cons_ok env s entry), deleted_of_nil by (by rewrite Hst).
        same_heap s3 s2. cbn [fst snd].
        splits; try done.
        -- intros e p. rewrite Hin2, list_elem_of_singleton. done.
        -- subst s3. state_simpl. cbn [foldl]. by rewrite HRefs, Hcid.
        -- subst s3. state_simpl. cbn [fmap list_fmap]. by rewrite Hmsd, Hst.
        -- unfold evict_frame. subst s3. state_simpl. congruence.
        -- intros _. by apply Z.leb_le.
        -- intros Hc H0 Hlt. destruct (Hsizes Hc H0 Hlt) as (Hz1 & Hz2 & Hz3 & Hz4).
           rewrite bytes_of_cons, bytes_of_nil.
           splits; try done; try lia.
           intros v0 v1 Hv Hv1 Hv0. destruct v0 as [| x v0].
           ++ by rewrite deleted_of_nil in Hv0.
           ++ simpl in Hv. injection Hv as <- Hv.
              symmetry in Hv. apply app_eq_nil in Hv as [_ ->]. done.
      * eapply returns_mono;
          [apply (IH (u64 (evicted + u64 (PayloadSize r))) s3) |]; try done.
        { intros p Hp. same_heap s3 s2. apply Hin2. split; [apply Hin; by right |].
          intros [_ ->]. done. }
        intros [ret ev'] s' (visited & rest & Hes & Hrest & Hwf' & Hmem' & Hbid' &
                             Hin' & HRefs' & Hms' & Hfr' & Hret & Hsz').
        same_heap s3 s2.
        rewrite (deleted_of_mem env s s2) in * by done.
        rewrite (bytes_of_mem s s2) in * by done.
        rewrite (foldl_delete_mem s s2) in HRefs' by done.
        rewrite (fmap_pstore_mem s s2) in Hms' by done.
        exists (entry :: visited), rest.
        rewrite (deleted_of_cons_ok env s entry) by (by rewrite Hst).
        cbn [fst snd] in *. splits; try done.
        -- by rewrite Hes.
        -- by rewrite Hmem', Hmem2.
        -- intros e. by rewrite Hbid', Hbid2.
        -- intros e p. rewrite Hin', Hin2, elem_of_cons. naive_solver.
        -- rewrite HRefs'. subst s3. state_simpl. cbn [foldl]. by rewrite HRefs, Hcid.
        -- rewrite Hms'. subst s3. state_simpl. cbn [fmap list_fmap].
           rewrite Hmsd, Hst. by rewrite <- app_assoc.
        -- rewrite Hfr'. unfold evict_frame. subst s3. state_simpl. congruence.
        -- apply Z.leb_gt in Hreach.
           intros Hc H0 Hlt. destruct (Hsizes Hc H0 Hlt) as (Hz1 & Hz2 & Hz3 & Hz4).
           rewrite Hz1 in *.
           destruct Hsz' as (Hy1 & Hy2 & Hy3 & Hy4); [done | lia | lia |].
           rewrite bytes_of_cons. splits; try lia.
           ++ intros Hf _. specialize (Hy3 Hf).
              destruct (deleted_of env s visited) as [| y l] eqn:Hdel.
              ** rewrite bytes_of_nil in Hy2. lia.
              ** apply Hy3. done.
           ++ intros v0 v1 Hv Hv1 Hv0. destruct v0 as [| x v0].
              ** by rewrite deleted_of_nil in Hv0.
              ** simpl in Hv. injection Hv as <- Hv.
                 rewrite (deleted_of_cons_ok env s entry) by (by rewrite Hst).
                 rewrite bytes_of_cons.
                 destruct (deleted_of env s v0) as [| y l] eqn:Hdel.
                 --- rewrite bytes_of_nil. lia.
                 --- specialize (Hy4 v0 v1 Hv Hv1).
                     rewrite ?(deleted_of_mem env s s2), ?(bytes_of_mem s s2) in Hy4 by done.
                     rewrite Hdel in Hy4. specialize (Hy4 ltac:(done)). lia.
Qed.

(** ** What evict maintains *)

Lemma lookup_foldl_delete {A} (f : A → string) (m : gmap string ptr) l k :
  foldl (λ m p, delete (f p) m) m l !! k =
  if decide (k ∈ f <$> l) then None else m !! k.
Proof.
  revert m. induction l as [| a l IH]; intros m; cbn [foldl].
  - case_decide as H; [by apply elem_of_nil in H | done].
  - rewrite IH, fmap_cons. clear IH. destruct (decide (k = f a)) as [-> | Hne].
    + rewrite lookup_delete_eq. repeat case_decide; try done;
        exfalso; match goal with H : _ ∉ _ :: _ |- _ => apply H; by left end.
    + rewrite lookup_delete_ne by done.
      repeat case_decide; try done; exfalso.
      * match goal with H : _ ∉ _ :: _ |- _ => apply H; by right end.
      * match goal with H : _ ∈ _ :: _ |- _ => apply elem_of_cons in H as [? | ?] end;
          done.
Qed.

Lemma placed_remove_list s s' place ok :
  list_wf s → list_wf s' → NoDup ok → (∀ p, p ∈ ok → in_bucket s place p) →
  (∀ e p, in_bucket s' e p ↔ in_bucket s e p ∧ ¬ (e = place ∧ p ∈ ok)) →
  placed s ≡ₚ ok ++ placed s'.
Proof.
  intros Hwf Hwf' Hnd Hok Hiff. apply NoDup_Permutation.
  - by apply NoDup_placed.
  - apply NoDup_app. split; [done |]. split; [| by apply NoDup_placed].
    intros p Hp (e & [He Hn]%Hiff)%elem_of_placed. apply Hn. split; [| done].
    apply (in_bucket_unique s None e place p Hwf); auto.
  - intros p. rewrite elem_of_app, !elem_of_placed. split.
    + intros (e & He). destruct (decide (p ∈ ok)); [by left |].
      right. exists e. apply Hiff. split; [done |]. intros [_ ?]. done.
    + intros [Hp | (e & [He _]%Hiff)]; eauto.
Qed.

Lemma evict_post_refl x s : list_wf s → evict_post x s s.
Proof. intros Hwf. unfold evict_post. splits; done. Qed.

Lemma evict_post_trans x s s1 s2 :
  evict_post x s s1 → evict_post x s1 s2 → evict_post x s s2.
Proof.
  intros (H1 & H2 & H3 & H4 & H5 & H6 & H7 & H8) (G1 & G2 & G3 & G4 & G5 & G6 & G7 & G8).
  unfold evict_post. splits; try done.
  - congruence.
  - intros e. by rewrite G3, H3.
  - auto.
  - auto.
  - by transitivity (Refs s1).
  - intros k Hk. rewrite G7, H7; [done | done |].
    intros p (e & He%H4)%elem_of_placed. unfold pcid. rewrite H2.
    apply (Hk p). apply elem_of_placed. eauto.
  - congruence.
Qed.

Lemma evict_sizes_refl evicted s : evict_sizes evicted s evicted s.
Proof. intros c Hc H0 Hlt. splits; done. Qed.

Lemma evict_sizes_trans ev s ev1 s1 ev2 s2 :
  evict_sizes ev s ev1 s1 → evict_sizes ev1 s1 ev2 s2 → evict_sizes ev s ev2 s2.
Proof.
  intros H1 H2 c Hc H0 Hlt. destruct (H1 c Hc H0 Hlt) as (Hc1 & H01 & Hs1).
  destruct (H2 c Hc1 H01) as (Hc2 & H02 & Hs2); [lia |]. splits; [done | done | lia].
Qed.

Lemma evict_entries_post_struct env x place target es evicted s res s' :
  list_wf s → NoDup es → (∀ p, p ∈ es → in_bucket s place p) →
  evict_entries_post env place target es evicted s res s' →
  evict_post x s s' ∧ evict_sizes evicted s res.2 s' ∧
  (∀ e p, e ≠ place → in_bucket s e p → in_bucket s' e p).
Proof.
  intros Hwf Hnd Hes (visited & rest & -> & Hrest & Hwf' & Hmem' & Hbid' & Hin' &
                      HRefs' & Hms' & Hfr' & Hret & Hsz').
  assert (∀ p, p ∈ visited → in_bucket s place p) as Hvis
    by (intros; apply Hes, elem_of_app; auto).
  assert (NoDup (deleted_of env s visited)) as Hndok.
  { apply NoDup_filter. by apply NoDup_app in Hnd as (? & _ & _). }
  assert (∀ p, p ∈ deleted_of env s visited → p ∈ visited) as Hokv.
  { intros p Hp. unfold deleted_of in Hp. by apply list_elem_of_filter in Hp as [_ ?]. }
  split; [| split].
  - unfold evict_post. splits; try done.
    + intros e p [? _]%Hin'. done.
    + intros Hheld k p Hkp. rewrite HRefs', lookup_foldl_delete in Hkp.
      case_decide as Hk; [done |]. destruct (Hheld k p Hkp) as [Hcid Hpl].
      split; [unfold pcid in *; by rewrite Hmem' |].
      intros Hx. destruct (Hpl Hx) as [e He]. exists e. apply Hin'.
      split; [done |]. intros [-> Hp%Hokv]. apply Hk.
      apply list_elem_of_fmap. exists p. done.
    + apply map_subseteq_spec. intros k p Hkp.
      rewrite HRefs', lookup_foldl_delete in Hkp. by case_decide.
    + intros k Hk. rewrite HRefs', lookup_foldl_delete. rewrite decide_False; [done |].
      intros (p & -> & Hp)%list_elem_of_fmap. apply (Hk p); [| done].
      apply elem_of_placed. eauto.
  - intros c Hc H0 Hlt. destruct Hsz' as (Hz1 & Hz2 & _); [eauto | done | done |].
    pose proof (placed_remove_list s s' place _ Hwf Hwf' Hndok
                  (λ p Hp, Hvis p (Hokv p Hp)) Hin') as Hperm.
    destruct Hc as (Hs & Hc & Hlt' & Hpos).
    rewrite (bytes_of_Permutation _ _ _ Hperm), bytes_of_app in Hs.
    assert (0 ≤ bytes_of s (deleted_of env s visited)).
    { apply bytes_of_nonneg. intros p Hp. apply Hpos. rewrite Hperm.
      apply elem_of_app. by left. }
    assert (0 ≤ bytes_of s (placed s')).
    { apply bytes_of_nonneg. intros p Hp. apply Hpos. rewrite Hperm.
      apply elem_of_app. by right. }
    splits; try lia.
    unfold size_rel. rewrite (bytes_of_mem s s') by done. splits; try lia.
    intros p Hp. rewrite (psize_mem s s') by done. apply Hpos. rewrite Hperm.
    apply elem_of_app. by right.
  - intros e p Hne He. apply Hin'. split; [done |]. intros [-> _]. done.
Qed.

Lemma evict_walk_spec env x target places evicted s :
  range_perm env → list_wf s → NoDup places → (∀ e, e ∈ places → e ∈ blist s) →
  returns (evict_walk env target places evicted) s
          (λ ev' s', evict_post x s s' ∧ evict_sizes evicted s ev' s').
Proof.
  intros Henv. revert evicted s.
  induction places as [| place rest IH]; intros evicted s Hwf Hnd Hpl; simpl.
  - rstep. split; [by apply evict_post_refl | apply evict_sizes_refl].
  - apply NoDup_cons in Hnd as [Hnotin Hnd'].
    assert (place ∈ blist s) as Hplace by (apply Hpl; by left).
    destruct (bw_bucket _ _ _ Hwf place Hplace) as [b Hb%bucket_at_inv].
    pose proof (bentries_Some _ _ _ Hb) as Hes.
    assert (NoDup (range_order env (entries b))) as Hnde.
    { rewrite (Henv (entries b)), <- Hes. by apply (bw_entries_nodup _ _ _ Hwf). }
    assert (∀ p, p ∈ range_order env (entries b) → in_bucket s place p) as Hine.
    { intros p Hp. rewrite (Henv (entries b)), <- Hes in Hp. done. }
    do 2 rstep.
    rcall (evict_entries_spec env place target) as [returned ev1] s1 Hpost;
      [done | done | done |].
    destruct (evict_entries_post_struct env x _ _ _ _ _ _ _ Hwf Hnde Hine Hpost)
      as (Hp1 & Hz1 & Hother).
    cbn [snd] in Hz1. destruct returned; [rstep; done |].
    do 2 rstep. case_decide as Hstill; [| rstep; done].
    eapply returns_mono; [apply (IH ev1 s1) |]; try done.
    + apply Hp1.
    + intros e He. assert (e ≠ place) as Hne by (intros ->; done).
      assert (e ∈ blist s) as Hel by (apply Hpl; by right).
      apply (in_blist_iff s e Hwf) in Hel as [p Hp].
      by destruct (Hother e p Hne Hp).
    + cbv beta. intros ev' s' [Hp2 Hz2]. split.
      * by apply (evict_post_trans x s s1 s').
      * by apply (evict_sizes_trans evicted s ev1 s1 ev' s').
Qed.

Lemma evict_spec env x target s :
  range_perm env → list_wf s →
  returns (evict env target) s (λ ev' s', evict_post x s s' ∧ evict_sizes 0 s ev' s').
Proof.
  intros Henv Hwf. unfold evict. do 2 rstep.
  apply evict_walk_spec; try done. apply (bw_nodup _ _ _ Hwf).
Qed.

(** ** Flush *)

Lemma Flush_spec env s :
  returns (Flush env) s (λ a s',
    flush_frame s' = flush_frame s ∧
    (a = None → rootCID s' = Some (root s) ∧ ds_idx s' = Some (root s))).
Proof.
  unfold Flush. destruct (hamt_flush_err env); [rstep; done |].
  do 2 rstep. destruct (ds_put_err env); repeat rstep; done.
Qed.

(** ** SetRef *)


Lemma pcid_Some s p r : mem s !! p = Some r → pcid s p = PayloadCID r.
Proof. unfold pcid. by intros ->. Qed.
Lemma psize_Some s p r : mem s !! p = Some r → psize s p = PayloadSize r.
Proof. unfold psize. by intros ->. Qed.

Lemma not_placed_fresh s ref r :
  list_wf s → mem s !! ref = Some r → bucketNode r = None → ∀ e, ¬ in_bucket s e ref.
Proof.
  intros Hwf Hr Hn e He.
  destruct (bw_back _ _ _ Hwf e ref He) as (r0 & Hr0 & Hn0 & _); [done |]. congruence.
Qed.

Lemma SetRef_spec env ref r s :
  range_perm env → held_wf s → mu s = false →
  mem s !! ref = Some r → bucketNode r = None →
  returns (SetRef env ref) s (λ a s',
    held_wf s' ∧ mu s' = false ∧
    (size_ok s → 0 ≤ PayloadSize r → size s + PayloadSize r < 2 ^ 64 → size_ok s') ∧
    (∃ np, mem s' = <[ref := mkDataRef (PayloadCID r) (PayloadSize r) (StoreID r)
                               (Freq r) (bid s' np) (Some np)]> (mem s) ∧
           in_bucket s' np ref) ∧
    (∀ e p, in_bucket s' e p → p = ref ∨ in_bucket s e p) ∧
    (∀ e, e ∈ blist s' → bid s' e = 1 ∨ ∃ e0, e0 ∈ blist s ∧ bid s' e = bid s e0) ∧
    Refs s' ⊆ <[PayloadCID r := ref]> (Refs s) ∧
    ((∀ p, p ∈ placed s → pcid s p ≠ PayloadCID r) →
       Refs s' !! PayloadCID r = Some ref) ∧
    (a ≠ Some ErrHamt → ∃ r', mem s' !! ref = Some r' ∧
       root s' = <[PayloadCID r := MarshalCBOR r']> (root s)) ∧
    (a = None → ds_idx s' = Some (root s') ∧ rootCID s' = Some (root s')) ∧
    (ub s', lb s', imu s', freqs s', interest s') =
    (ub s, lb s, imu s, freqs s, interest s)).
Proof.
  intros Henv [Hwf Hheld] Hmu Hr Hnode.
  pose proof (not_placed_fresh s ref r Hwf Hr Hnode) as Hnowhere.
  unfold SetRef, with_mu. repeat rstep.
  set (s1 := set_size _ _).
  assert (list_wf s1) as Hwf1 by (by apply (bucket_wf_ext _ _ s)).
  assert (held_ok_but (Some ref) s1) as Hheld1.
  { intros k p Hkp. subst s1. state_simpl in Hkp. same_heap
      (set_size (u64 (size s + u64 (PayloadSize r)))
         (set_Refs (<[PayloadCID r:=ref]> (Refs s)) (set_mu true s))) s.
    destruct (decide (k = PayloadCID r)) as [-> | Hne].
    - rewrite lookup_insert_eq in Hkp. injection Hkp as <-.
      split; [by apply pcid_Some | done].
    - rewrite lookup_insert_ne in Hkp by done.
      destruct (Hheld k p Hkp) as [? ?]. split; [done | auto]. }
  assert (returns
            (if (0 <? ub s) && (0 <? lb s) && (ub s <? u64 (size s + u64 (PayloadSize r)))
             then evict env (u64 (u64 (size s + u64 (PayloadSize r)) - lb s));; mret ()
             else mret ()) s1
            (λ _ s2, evict_post (Some ref) s1 s2 ∧ ∃ ev, evict_sizes 0 s1 ev s2)) as Hev.
  { destruct (_ && _).
    - rcall (evict_spec env (Some ref)) as ev s2 [Hp Hz]; [done | done |].
      rstep. eauto.
    - rstep. split; [by apply evict_post_refl |]. exists 0. apply evict_sizes_refl. }
  eapply returns_mono; [exact Hev |]. cbv beta.
  intros _ s2 [(Hwf2 & Hmem2 & Hbid2 & Hin2 & Hheld2 & HRefs2 & Hfresh2 & Hfr2)
                 (ev & Hsizes)].
  specialize (Hheld2 Hheld1).
  assert (mem s2 !! ref = Some r) as Hr2 by (by rewrite Hmem2).
  rcall (increment_spec s2 ref r) as ? s3 Hinc;
    [done | done | intros cp Hcp; congruence |].
  rewrite Hnode in Hinc.
  destruct Hinc as (Hwf3 & Hfr3 & np & fr & Hmem3 & Hinnp & Hbid3 & -> & Hbidnp & Hin3).
  unfold increment_frame in Hfr3.
  injection Hfr3 as Hub3 Hlb3 Hmu3 Hsize3 HRefs3 Hroot3 HrootCID3 Himu3 Hfreqs3
    Hint3 Hds3 Hmsd3.
  unfold evict_frame in Hfr2. subst s1. state_simpl in Hfr2.
  injection Hfr2 as Hub2 Hlb2 Hmu2 Hroot2 HrootCID2 Himu2 Hfreqs2 Hint2 Hds2.
  set (r' := mkDataRef _ _ _ _ _ _) in Hmem3.
  assert (mem s3 !! ref = Some r') as Hr3 by (by rewrite Hmem3, lookup_insert_eq).
  set (s1 := set_size (u64 (size s + u64 (PayloadSize r)))
               (set_Refs (<[PayloadCID r:=ref]> (Refs s)) (set_mu true s))) in *.
  same_heap s1 s.
  change (Refs s1) with (<[PayloadCID r:=ref]> (Refs s)) in *.
  change (root s1) with (root s) in *.
  assert (∀ res s', blist s' = blist s3 → elems s' = elems s3 → mem s' = mem s3 →
            Refs s' = Refs s3 → size s' = size s3 → mu s' = false →
            (ub s', lb s', imu s', freqs s', interest s') =
            (ub s3, lb s3, imu s3, freqs s3, interest s3) →
            (res ≠ Some ErrHamt → root s' = <[PayloadCID r := MarshalCBOR r']> (root s3)) →
            (res = None → ds_idx s' = Some (root s') ∧ rootCID s' = Some (root s')) →
            held_wf s' ∧ mu s' = false ∧
            (size_ok s → 0 ≤ PayloadSize r → size s + PayloadSize r < 2 ^ 64 → size_ok s') ∧
            (∃ np, mem s' = <[ref := mkDataRef (PayloadCID r) (PayloadSize r) (StoreID r)
                                       (Freq r) (bid s' np) (Some np)]> (mem s) ∧
                   in_bucket s' np ref) ∧
            (∀ e p, in_bucket s' e p → p = ref ∨ in_bucket s e p) ∧
            (∀ e, e ∈ blist s' → bid s' e = 1 ∨ ∃ e0, e0 ∈ blist s ∧ bid s' e = bid s e0) ∧
            Refs s' ⊆ <[PayloadCID r := ref]> (Refs s) ∧
            ((∀ p, p ∈ placed s → pcid s p ≠ PayloadCID r) →
               Refs s' !! PayloadCID r = Some ref) ∧
            (res ≠ Some ErrHamt → ∃ r', mem s' !! ref = Some r' ∧
               root s' = <[PayloadCID r := MarshalCBOR r']> (root s)) ∧
            (res = None → ds_idx s' = Some (root s') ∧ rootCID s' = Some (root s')) ∧
            (ub s', lb s', imu s', freqs s', interest s') =
            (ub s, lb s, imu s, freqs s, interest s)) as Hfinal.
  { intros res s' Hb' He' Hm' HR' Hs' Hmu' Hfr' Hroot' Hds'.
    assert (list_wf s') as Hwf' by (by apply (bucket_wf_ext _ _ s3)).
    assert (∀ e p, in_bucket s' e p ↔ in_bucket s3 e p) as Hin'.
    { intros e p. unfold in_bucket, bentries, bucket_at. by rewrite Hb', He'. }
    assert (∀ e, bid s' e = bid s3 e) as Hbid'.
    { intros e. unfold bid, bucket_at. by rewrite He'. }
    splits; try done.
    - split; [done |]. intros k p Hkp. rewrite HR', HRefs3 in Hkp.
      destruct (Hheld2 k p Hkp) as [Hcid Hpl].
      assert (pcid s' p = k) as Hcid'.
      { unfold pcid in *. rewrite Hm', Hmem3, Hmem2 in *.
        destruct (decide (p = ref)) as [-> |].
        - rewrite lookup_insert_eq. rewrite Hr in Hcid. done.
        - by rewrite lookup_insert_ne. }
      split; [done |]. destruct (decide (p = ref)) as [-> | Hne].
      + exists np. by apply Hin'.
      + destruct Hpl as [e He]; [congruence |]. exists e. apply Hin', Hin3. by left.
    - intros Hok H0 Hlt. unfold size_ok.
      assert (size_rel (PayloadSize r) s1) as Hrel1.
      { destruct Hok as (Hs & _ & Hlt' & Hpos).
        assert (0 ≤ bytes_of s (placed s)) by (by apply bytes_of_nonneg).
        unfold size_rel. same_heap s1 s. subst s1. state_simpl.
        rewrite (u64_small (PayloadSize r)) by lia.
        rewrite u64_small by lia. splits; try done; lia. }
      destruct (Hsizes _ Hrel1) as ((Hs2 & _ & Hlt2 & Hpos2) & _ & _); [done | |].
      { destruct Hrel1 as (_ & _ & ? & _). lia. }
      assert (placed s3 ≡ₚ ref :: placed s2) as Hperm.
      { apply (placed_add s2 s3 np ref); try done.
        intros e He%Hin2. by apply (Hnowhere e). }
      assert (ref ∉ placed s2) as Hnot.
      { rewrite elem_of_placed. intros (e & He%Hin2). by apply (Hnowhere e). }
      assert (∀ p, p ≠ ref → psize s' p = psize s2 p) as Hps.
      { intros p Hne. unfold psize. by rewrite Hm', Hmem3, lookup_insert_ne. }
      assert (psize s' ref = PayloadSize r) as Hpsr.
      { unfold psize. by rewrite Hm', Hr3. }
      assert (placed s' = placed s3) as Hpl' by (by apply placed_ext).
      unfold size_rel. rewrite Hpl', Hs', Hsize3.
      rewrite (bytes_of_Permutation _ _ _ Hperm), bytes_of_cons, Hpsr.
      rewrite (bytes_of_ext s2 s' (placed s2)) by (intros p Hp; apply Hps; congruence).
      splits; try lia.
      intros p Hp. rewrite Hperm in Hp. apply elem_of_cons in Hp as [-> | Hp].
      + lia.
      + rewrite Hps by congruence. auto.
    - exists np. rewrite Hm', Hmem3, Hmem2, Hbid'. split; [done | by apply Hin'].
    - intros e p [He | [-> ->]]%Hin'%Hin3; [right; by apply Hin2 | by left].
    - intros e He. rewrite Hb' in He. rewrite Hbid'.
      apply (in_blist_iff s3 e Hwf3) in He as [p [Hp | [-> ->]]%Hin3].
      + right. exists e. destruct Hp as [Hel _].
        rewrite Hbid3, Hbid2 by done.
        split; [| done]. apply (in_blist_iff s2 e Hwf2) in Hel as [q Hq%Hin2].
        by destruct Hq.
      + rewrite Hbidnp. destruct (last (blist s2)) as [e0 |] eqn:Hlast; [| by left].
        right. exists e0. apply last_elem_of in Hlast.
        rewrite Hbid2. split; [| done].
        apply (in_blist_iff s2 e0 Hwf2) in Hlast as [q Hq%Hin2]. by destruct Hq.
    - rewrite HR', HRefs3. done.
    - intros Hk. rewrite HR', HRefs3, Hfresh2; [by rewrite lookup_insert_eq | done].
    - intros Ha. exists r'. rewrite Hm'. split; [done |].
      rewrite (Hroot' Ha), Hroot3, Hroot2. done.
    - rewrite Hfr'. congruence. }
  destruct (hamt_set_err env).
  - repeat rstep. apply (Hfinal (Some ErrHamt) (set_mu false s3)); state_simpl; try done; congruence.
  - repeat rstep. rcall (Flush_spec env) as res s4 [Hfr4 Hfl4]. repeat rstep.
    unfold flush_frame in Hfr4. state_simpl in Hfr4.
    injection Hfr4 as Hub4 Hlb4 Hmu4 Hsize4 Hblist4 HRefs4 Hroot4 Himu4 Hfreqs4
      Hint4 Hmem4 Helems4 Hmsd4.
    apply (Hfinal res (set_mu false s4)); state_simpl; try done; try congruence.
    intros H. destruct (Hfl4 H) as [-> ->]. by rewrite Hroot4.
Qed.

(** * Further properties of the index *)

(** ** Fixtures *)

Lemma range_perm_ok : range_perm Scenario.env_ok.
Proof. intros l. reflexivity. Qed.

Lemma list_wf_empty s : blist s = [] → list_wf s.
Proof.
  intros Hb. split; rewrite ?Hb.
  - apply NoDup_nil_2.
  - by intros e ?%elem_of_nil.
  - by intros e ?%elem_of_nil.
  - by intros e ?%elem_of_nil.
  - intros e p [He _]. rewrite Hb in He. by apply elem_of_nil in He.
  - constructor.
  - by intros e ?%elem_of_nil.
Qed.

Lemma held_wf_empty s : blist s = [] → Refs s = ∅ → held_wf s.
Proof.
  intros Hb HR. split; [by apply list_wf_empty |].
  intros k p Hkp. rewrite HR, lookup_empty in Hkp. done.
Qed.

Lemma size_ok_empty s : blist s = [] → size s = 0 → size_ok s.
Proof.
  intros Hb Hs. unfold size_ok, size_rel, placed. rewrite Hb, Hs. cbn.
  splits; try done. by intros p ?%elem_of_nil.
Qed.

Lemma returns_after {A} (m : M A) s (P : Index → Prop) :
  returns m s (λ _ s', P s') → P (after m s).
Proof. unfold returns, after. by destruct (m s). Qed.

Lemma held_A_spec :
  held_wf Fixture.held_A ∧ size_ok Fixture.held_A ∧ mu Fixture.held_A = false.
Proof.
  unfold Fixture.held_A.
  apply (returns_after _ _ (λ s', held_wf s' ∧ size_ok s' ∧ mu s' = false)).
  eapply returns_mono;
    [apply (SetRef_spec Scenario.env_ok Scenario.pA Scenario.recA (Scenario.start 0 0))
    | cbv beta; intros a s' (Hwf & Hmu & Hsz & _)]; try done.
  - apply range_perm_ok.
  - by apply held_wf_empty.
  - splits; try done. apply Hsz; [by apply size_ok_empty | done | done].
Qed.

(** Running under the held lock. *)
Lemma with_mu_eq {A} (body : M A) s :
  mu s = false →
  with_mu body s =
  match body (set_mu true s) with
  | Ret a s' => Ret a (set_mu false s')
  | Panic => Panic
  | Deadlock => Deadlock
  end.
Proof.
  intros Hmu. unfold with_mu, mu_Lock, mu_Unlock.
  unfold mbind, M_bind, bind, mret, M_ret, ret, modify. rewrite Hmu.
  by destruct (body (set_mu true s)).
Qed.

(** ** Keys that are not held *)

(** X1. Looking up a key that is not in the held map: [PeekRef], [GetRef]
    and [GetStoreID] return [ErrRefNotFound] ([GetStoreID] with the store
    id 0) and leave the index exactly as it was: nothing is counted,
    written to the persistent map or flushed. *)
Theorem absent_key_not_found env k s :
  mu s = false → Refs s !! k = None →
  PeekRef k s = Ret (None, Some ErrRefNotFound) s ∧
  GetRef env k s = Ret (None, Some ErrRefNotFound) s ∧
  GetStoreID env k s = Ret (0, Some ErrRefNotFound) s.
Proof.
  intros Hmu Hk.
  assert (GetRef env k s = Ret (None, Some ErrRefNotFound) s) as HG.
  { unfold GetRef. rewrite with_mu_eq by done.
    unfold mbind, M_bind, bind, gets. cbn. rewrite Hk. cbn.
    by rewrite set_mu_unlock. }
  splits; [| done |].
  - unfold PeekRef. rewrite with_mu_eq by done.
    unfold mbind, M_bind, bind, gets. cbn. rewrite Hk. cbn.
    by rewrite set_mu_unlock.
  - unfold GetStoreID. unfold mbind at 1, M_bind at 1, bind at 1. by rewrite HG.
Qed.

Lemma absent_key_not_found_witness :
  PeekRef "B" Fixture.held_A = Ret (None, Some ErrRefNotFound) Fixture.held_A ∧
  GetRef Scenario.env_ok "B" Fixture.held_A
    = Ret (None, Some ErrRefNotFound) Fixture.held_A ∧
  GetStoreID Scenario.env_ok "B" Fixture.held_A
    = Ret (0, Some ErrRefNotFound) Fixture.held_A.
Proof.
  apply (absent_key_not_found Scenario.env_ok "B" Fixture.held_A); reflexivity.
Defined.

(** ** SetRef *)

(** X2. Insert, then look up: after [SetRef] of a record whose content id
    is not yet in the bucket list, [PeekRef] of that id returns the record
    inserted, whatever [SetRef] itself returned. *)
Theorem SetRef_then_PeekRef env ref r s :
  range_perm env → held_wf s → mu s = false →
  mem s !! ref = Some r → bucketNode r = None →
  (∀ p, p ∈ placed s → pcid s p ≠ PayloadCID r) →
  returns (SetRef env ref) s (λ _ s',
    PeekRef (PayloadCID r) s' = Ret (Some ref, None) s').
Proof.
  intros Henv Hwf Hmu Hr Hn Hnew.
  eapply returns_mono; [by apply (SetRef_spec env ref r s) |].
  cbv beta. intros a s' (_ & Hmu' & _ & _ & _ & _ & _ & HR & _).
  unfold PeekRef. rewrite with_mu_eq by done.
  unfold mbind, M_bind, bind, gets. cbn. rewrite (HR Hnew). cbn.
  by rewrite set_mu_unlock.
Qed.

Lemma SetRef_then_PeekRef_witness :
  returns (SetRef Scenario.env_ok Scenario.pA) (Scenario.start 0 0) (λ _ s',
    PeekRef "A" s' = Ret (Some Scenario.pA, None) s').
Proof.
  apply (SetRef_then_PeekRef Scenario.env_ok Scenario.pA Scenario.recA
           (Scenario.start 0 0)); try done.
  - apply range_perm_ok.
  - by apply held_wf_empty.
  - by intros p ?%elem_of_nil.
Defined.

(** X3. [SetRef] of a record that is allocated and not yet placed returns
    (it neither panics nor blocks) on a well-formed index with the lock
    free, whatever fails in the collaborators; afterwards the index is
    well formed again, the lock is free, and the record is an entry of a
    bucket of the list, with a back-pointer to that bucket, the id of that
    bucket and the frequency it came with. *)
Theorem SetRef_keeps_held_wf env ref r s :
  range_perm env → held_wf s → mu s = false →
  mem s !! ref = Some r → bucketNode r = None →
  returns (SetRef env ref) s (λ _ s',
    held_wf s' ∧ mu s' = false ∧
    ∃ np, in_bucket s' np ref ∧
      mem s' !! ref = Some (mkDataRef (PayloadCID r) (PayloadSize r) (StoreID r)
                              (Freq r) (bid s' np) (Some np))).
Proof.
  intros Henv Hwf Hmu Hr Hn.
  eapply returns_mono; [by apply (SetRef_spec env ref r s) |].
  cbv beta. intros a s' (Hwf' & Hmu' & _ & (np & Hmem & Hin) & _).
  splits; try done. exists np. split; [done |].
  by rewrite Hmem, lookup_insert_eq.
Qed.

Lemma SetRef_keeps_held_wf_witness :
  returns (SetRef Scenario.env_ok Scenario.pA) (Scenario.start 0 0) (λ _ s',
    held_wf s' ∧ mu s' = false ∧
    ∃ np, in_bucket s' np Scenario.pA ∧
      mem s' !! Scenario.pA = Some (mkDataRef "A" 100 1 0 (bid s' np) (Some np))).
Proof.
  apply (SetRef_keeps_held_wf Scenario.env_ok Scenario.pA Scenario.recA
           (Scenario.start 0 0)); try done.
  - apply range_perm_ok.
  - by apply held_wf_empty.
Defined.

(** X4. The accumulated size after [SetRef]: when it was the sum of the
    sizes of the records of the bucket list, and adding the size of the
    new record does not overflow, it is that sum again, with or without an
    eviction, also when the multistore fails to delete evicted records. *)
Theorem SetRef_size_accounting env ref r s :
  range_perm env → held_wf s → mu s = false →
  mem s !! ref = Some r → bucketNode r = None →
  size_ok s → 0 ≤ PayloadSize r → size s + PayloadSize r < 2 ^ 64 →
  returns (SetRef env ref) s (λ _ s', size s' = bytes_of s' (placed s')).
Proof.
  intros Henv Hwf Hmu Hr Hn Hsz H0 Hlt.
  eapply returns_mono; [by apply (SetRef_spec env ref r s) |].
  cbv beta. intros a s' (_ & _ & Hsz' & _).
  destruct (Hsz' Hsz H0 Hlt) as (-> & _). lia.
Qed.

Lemma SetRef_size_accounting_witness :
  returns (SetRef Scenario.env_ok Scenario.pA) (Scenario.start 250 150)
    (λ _ s', size s' = bytes_of s' (placed s')).
Proof.
  apply (SetRef_size_accounting Scenario.env_ok Scenario.pA Scenario.recA
           (Scenario.start 250 150)); try done.
  - apply range_perm_ok.
  - by apply held_wf_empty.
  - by apply size_ok_empty.
Defined.

(** X5. What [SetRef] persists: unless writing the persistent map fails,
    the map is the one before the call with the encoding of the record, as
    placed, under its content id; an eviction during the call takes no key
    out of the persistent map. When [SetRef] returns no error the root so
    obtained is the one recorded in the datastore. *)
Theorem SetRef_persists env ref r s :
  range_perm env → held_wf s → mu s = false →
  mem s !! ref = Some r → bucketNode r = None →
  returns (SetRef env ref) s (λ a s',
    (a ≠ Some ErrHamt →
       ∃ r', mem s' !! ref = Some r' ∧
             root s' = <[PayloadCID r := MarshalCBOR r']> (root s)) ∧
    (a = None → ds_idx s' = Some (root s') ∧ rootCID s' = Some (root s'))).
Proof.
  intros Henv Hwf Hmu Hr Hn.
  eapply returns_mono; [by apply (SetRef_spec env ref r s) |].
  cbv beta. intros a s' (_ & _ & _ & _ & _ & _ & _ & _ & Hroot & Hds & _). done.
Qed.

Lemma SetRef_persists_witness :
  returns (SetRef Scenario.env_ok Scenario.pA) (Scenario.start 0 0) (λ a s',
    (a ≠ Some ErrHamt →
       ∃ r', mem s' !! Scenario.pA = Some r' ∧
             root s' = <["A" := MarshalCBOR r']> (root (Scenario.start 0 0))) ∧
    (a = None → ds_idx s' = Some (root s') ∧ rootCID s' = Some (root s'))).
Proof.
  apply (SetRef_persists Scenario.env_ok Scenario.pA Scenario.recA
           (Scenario.start 0 0)); try done.
  - apply range_perm_ok.
  - by apply held_wf_empty.
Defined.

(** ** Moving a record along the bucket list *)

(** X6. A read moves a placed record one bucket up: [increment] of a
    record that sits in bucket [cp] returns, adds one to its frequency,
    and makes it an entry of the bucket whose id is the id of [cp] plus
    one, and of no other bucket; no other record moves, no bucket changes
    its id, and the list stays well formed (ids strictly ascending, no
    empty bucket, back-pointers right). *)
Theorem increment_moves_up s ref r cp :
  list_wf s → mem s !! ref = Some r → bucketNode r = Some cp →
  in_bucket s cp ref → bid s cp < max_int64 →
  returns (increment ref) s (λ _ s',
    list_wf s' ∧
    ∃ np, mem s' = <[ref := mkDataRef (PayloadCID r) (PayloadSize r) (StoreID r)
                              (i64 (Freq r + 1)) (bid s cp + 1) (Some np)]> (mem s) ∧
      bid s' np = bid s cp + 1 ∧
      (∀ e, e ∈ blist s → bid s' e = bid s e) ∧
      ∀ e p, in_bucket s' e p ↔
             (in_bucket s e p ∧ ¬ (e = cp ∧ p = ref)) ∨ (e = np ∧ p = ref)).
Proof.
  intros Hwf Hr Hn Hin Hlt.
  eapply returns_mono; [apply (increment_spec s ref r); try done |].
  - intros cp' Hcp'. rewrite Hn in Hcp'. by injection Hcp' as <-.
  - cbv beta. intros _ s' (Hwf' & _ & np & fr & Hmem & _ & Hbid & Hcase).
    rewrite Hn in Hcase. destruct Hcase as (-> & Hnp & Hiff).
    split; [done |]. exists np. rewrite Hmem, Hnp. done.
Qed.

Lemma increment_moves_up_witness :
  returns (increment Scenario.pA) Fixture.held_A (λ _ s',
    list_wf s' ∧
    ∃ np, mem s' = <[Scenario.pA := mkDataRef "A" 100 1 (i64 (0 + 1))
                                      (bid Fixture.held_A 0%nat + 1) (Some np)]>
                     (mem Fixture.held_A) ∧
      bid s' np = bid Fixture.held_A 0%nat + 1 ∧
      (∀ e, e ∈ blist Fixture.held_A → bid s' e = bid Fixture.held_A e) ∧
      ∀ e p, in_bucket s' e p ↔
             (in_bucket Fixture.held_A e p ∧ ¬ (e = 0%nat ∧ p = Scenario.pA)) ∨
             (e = np ∧ p = Scenario.pA)).
Proof.
  apply (increment_moves_up Fixture.held_A Scenario.pA
           (mkDataRef "A" 100 1 0 1 (Some 0%nat)) 0%nat).
  - apply held_A_spec.
  - reflexivity.
  - reflexivity.
  - split; vm_compute; constructor.
  - reflexivity.
Defined.

(** X7. The first placement of a record: [increment] of a record that is
    in no bucket returns, leaves its frequency as it is, and makes it an
    entry of a bucket that carries the id of the bucket at the back of the
    list, or 1 when the list is empty; nothing else moves and the list
    stays well formed. *)
Theorem increment_first_placement s ref r :
  list_wf s → mem s !! ref = Some r → bucketNode r = None →
  returns (increment ref) s (λ _ s',
    list_wf s' ∧
    ∃ np, mem s' = <[ref := mkDataRef (PayloadCID r) (PayloadSize r) (StoreID r)
                              (Freq r) (bid s' np) (Some np)]> (mem s) ∧
      bid s' np = match last (blist s) with Some e => bid s e | None => 1 end ∧
      (∀ e, e ∈ blist s → bid s' e = bid s e) ∧
      ∀ e p, in_bucket s' e p ↔ in_bucket s e p ∨ (e = np ∧ p = ref)).
Proof.
  intros Hwf Hr Hn.
  eapply returns_mono; [apply (increment_spec s ref r); try done |].
  - intros cp' Hcp'. congruence.
  - cbv beta. intros _ s' (Hwf' & _ & np & fr & Hmem & _ & Hbid & Hcase).
    rewrite Hn in Hcase. destruct Hcase as (-> & Hnp & Hiff).
    split; [done |]. exists np. done.
Qed.

Lemma increment_first_placement_witness :
  returns (increment Scenario.pB) Fixture.held_A (λ _ s',
    list_wf s' ∧
    ∃ np, mem s' = <[Scenario.pB := mkDataRef "B" 100 2 0 (bid s' np) (Some np)]>
                     (mem Fixture.held_A) ∧
      bid s' np = match last (blist Fixture.held_A) with
                  | Some e => bid Fixture.held_A e
                  | None => 1
                  end ∧
      (∀ e, e ∈ blist Fixture.held_A → bid s' e = bid Fixture.held_A e) ∧
      ∀ e p, in_bucket s' e p ↔
             in_bucket Fixture.held_A e p ∨ (e = np ∧ p = Scenario.pB)).
Proof.
  apply (increment_first_placement Fixture.held_A Scenario.pB Scenario.recB).
  - apply held_A_spec.
  - reflexivity.
  - reflexivity.
Defined.

(** ** Eviction *)





(** ** Flush *)

(** X11. [Flush] writes nothing but the recorded root and the datastore
    entry. When it returns no error both are the current persistent map;
    when the datastore write fails the recorded root has moved on to the
    current map all the same, and the datastore entry is the old one. *)
Theorem Flush_outcomes env s :
  returns (Flush env) s (λ a s',
    flush_frame s' = flush_frame s ∧
    match a with
    | None => rootCID s' = Some (root s) ∧ ds_idx s' = Some (root s)
    | Some ErrDatastore => rootCID s' = Some (root s) ∧ ds_idx s' = ds_idx s
    | Some _ => rootCID s' = rootCID s ∧ ds_idx s' = ds_idx s
    end).
Proof.
  unfold Flush. destruct (hamt_flush_err env); [rstep; done |].
  do 2 rstep. destruct (ds_put_err env); repeat rstep; done.
Qed.




(** ** GetRef *)

(** [Flush] fails only when one of the two writes does. *)
Lemma Flush_result env s :
  returns (Flush env) s (λ a s',
    flush_frame s' = flush_frame s ∧
    (a = None → rootCID s' = Some (root s) ∧ ds_idx s' = Some (root s)) ∧
    (hamt_flush_err env = false → ds_put_err env = false → a = None)).
Proof.
  unfold Flush. destruct (hamt_flush_err env); [rstep; done |].
  do 2 rstep. destruct (ds_put_err env); repeat rstep; done.
Qed.

(** What [GetRef] does to a held record [p] under key [k]. *)
Lemma GetRef_spec env k p r s :
  held_wf s → mu s = false → Refs s !! k = Some p → mem s !! p = Some r →
  BucketID r < max_int64 →
  returns (GetRef env k) s (λ res s',
    held_wf s' ∧ mu s' = false ∧ (size_ok s → size_ok s') ∧
    (∃ np, mem s' = <[p := mkDataRef (PayloadCID r) (PayloadSize r) (StoreID r)
                            (i64 (Freq r + 1)) (BucketID r + 1) (Some np)]> (mem s) ∧
           in_bucket s' np p ∧ bid s' np = BucketID r + 1) ∧
    (∀ e q, q ≠ p → in_bucket s' e q ↔ in_bucket s e q) ∧
    (res.2 ≠ Some ErrHamt →
       root s' = <[k := mkStoredRef (PayloadCID r) (PayloadSize r) (StoreID r)
                          (i64 (Freq r + 1)) (BucketID r + 1)]> (root s)) ∧
    (res.2 = None → res.1 = Some p ∧
       ds_idx s' = Some (root s') ∧ rootCID s' = Some (root s')) ∧
    (hamt_set_err env = false → hamt_flush_err env = false → ds_put_err env = false →
       res.2 = None) ∧
    (ub s', lb s', size s', Refs s', imu s', freqs s', interest s', ms_deleted s') =
    (ub s, lb s, size s, Refs s, imu s, freqs s, interest s, ms_deleted s)).
Proof.
  intros [Hwf Hheld] Hmu HR Hr Hlt.
  destruct (Hheld k p HR) as [Hcid [cp Hcp]].
  destruct (bw_back _ _ _ Hwf cp p Hcp) as (r0 & Hr0 & Hn & Hbid); [done |].
  assert (r0 = r) as -> by congruence.
  unfold GetRef, with_mu. do 5 rstep. rewrite HR. cbv iota.
  set (s0 := set_mu true s).
  assert (list_wf s0) as Hwf0 by (by apply (bucket_wf_ext _ _ s)).
  rcall (increment_spec s0 p r) as ? s1 Hinc; [done | done | |].
  { intros cp' Hcp'. assert (cp' = cp) as -> by congruence.
    split; [done |]. change (bid s0 cp) with (bid s cp). lia. }
  rewrite Hn in Hinc.
  destruct Hinc as (Hwf1 & Hfr1 & np & fr & Hmem1 & Hinnp & Hbid1 & -> & Hbidnp & Hin1).
  unfold increment_frame in Hfr1. subst s0. state_simpl in Hfr1.
  injection Hfr1 as Hub1 Hlb1 Hmu1 Hsize1 HRefs1 Hroot1 HrootCID1 Himu1 Hfreqs1
    Hint1 Hds1 Hmsd1.
  set (s0 := set_mu true s) in *. same_heap s0 s.
  rewrite Hbidnp, <- Hbid in Hmem1.
  set (r' := mkDataRef _ _ _ _ _ _) in Hmem1.
  assert (mem s1 !! p = Some r') as Hr1 by (by rewrite Hmem1, lookup_insert_eq).
  assert (held_ok s1) as Hheld1.
  { intros k' q Hkq. rewrite HRefs1 in Hkq. destruct (Hheld k' q Hkq) as [Hc [e He]].
    split.
    - unfold pcid in *. rewrite Hmem1. destruct (decide (q = p)) as [-> | Hne].
      + rewrite lookup_insert_eq. rewrite Hr in Hc. done.
      + by rewrite lookup_insert_ne.
    - destruct (decide (q = p)) as [-> | Hne]; [by exists np |].
      exists e. apply Hin1. left. split; [done |]. intros [_ ?]. done. }
  assert (∀ e q, q ≠ p → in_bucket s1 e q ↔ in_bucket s e q) as Hothers.
  { intros e q Hne. rewrite Hin1. split.
    - intros [[? _] | [_ ?]]; done.
    - intros He. left. split; [done |]. intros [_ ?]. done. }
  assert (size_ok s → size_ok s1) as Hsize_ok.
  { intros (Hs & _ & Hlt' & Hpos).
    pose proof (placed_move s s1 cp np p Hwf Hwf1 Hcp Hin1) as Hperm.
    assert (∀ q, psize s1 q = psize s q) as Hps.
    { intros q. unfold psize. rewrite Hmem1. destruct (decide (q = p)) as [-> | Hne].
      - by rewrite lookup_insert_eq, Hr.
      - by rewrite lookup_insert_ne. }
    unfold size_ok, size_rel. rewrite Hsize1.
    rewrite (bytes_of_Permutation _ _ _ Hperm).
    rewrite (bytes_of_ext s s1) by (intros; apply Hps).
    splits; try done. intros q Hq. rewrite Hps. apply Hpos. by rewrite <- Hperm. }
  assert (∀ res s', blist s' = blist s1 → elems s' = elems s1 → mem s' = mem s1 →
            mu s' = false →
            (ub s', lb s', size s', Refs s', imu s', freqs s', interest s',
             ms_deleted s') =
            (ub s1, lb s1, size s1, Refs s1, imu s1, freqs s1, interest s1,
             ms_deleted s1) →
            (res.2 ≠ Some ErrHamt → root s' = <[k := MarshalCBOR r']> (root s1)) →
            (res.2 = None → res.1 = Some p ∧
               ds_idx s' = Some (root s') ∧ rootCID s' = Some (root s')) →
            (hamt_set_err env = false → hamt_flush_err env = false →
             ds_put_err env = false → res.2 = None) →
            held_wf s' ∧ mu s' = false ∧ (size_ok s → size_ok s') ∧
            (∃ np, mem s' = <[p := mkDataRef (PayloadCID r) (PayloadSize r) (StoreID r)
                                     (i64 (Freq r + 1)) (BucketID r + 1) (Some np)]>
                              (mem s) ∧
                   in_bucket s' np p ∧ bid s' np = BucketID r + 1) ∧
            (∀ e q, q ≠ p → in_bucket s' e q ↔ in_bucket s e q) ∧
            (res.2 ≠ Some ErrHamt → root s' = <[k := MarshalCBOR r']> (root s)) ∧
            (res.2 = None → res.1 = Some p ∧
               ds_idx s' = Some (root s') ∧ rootCID s' = Some (root s')) ∧
            (hamt_set_err env = false → hamt_flush_err env = false →
             ds_put_err env = false → res.2 = None) ∧
            (ub s', lb s', size s', Refs s', imu s', freqs s', interest s',
             ms_deleted s') =
            (ub s, lb s, size s, Refs s, imu s, freqs s, interest s, ms_deleted s))
    as Hfinal.
  { intros res s' Hb' He' Hm' Hmu' Hfr' Hroot' Hds' Herr'.
    injection Hfr' as Hub' Hlb' Hsize' HRefs' Himu' Hfreqs' Hint' Hmsd'.
    assert (∀ e q, in_bucket s' e q ↔ in_bucket s1 e q) as Hin'.
    { intros e q. unfold in_bucket, bentries, bucket_at. by rewrite Hb', He'. }
    assert (∀ e, bid s' e = bid s1 e) as Hbid'.
    { intros e. unfold bid, bucket_at. by rewrite He'. }
    splits; try done.
    - split; [by apply (bucket_wf_ext _ _ s1) |].
      intros k' q Hkq. rewrite HRefs' in Hkq. destruct (Hheld1 k' q Hkq) as [Hc [e He]].
      split; [unfold pcid in *; by rewrite Hm' |]. exists e. by apply Hin'.
    - intros Hs. apply (size_rel_ext 0 s1 s'); [done | done | done | done |].
      by apply Hsize_ok.
    - exists np. rewrite Hm', Hbid', Hin'. rewrite Hbidnp, <- Hbid. done.
    - intros e q Hne. rewrite Hin'. by apply Hothers.
    - intros Hx. rewrite (Hroot' Hx). by rewrite Hroot1.
    - congruence. }
  destruct (hamt_set_err env) eqn:Hset.
  - repeat rstep. apply (Hfinal (None, Some ErrHamt) (set_mu false s1));
      state_simpl; try done; congruence.
  - repeat rstep. rcall (Flush_result env) as err s2 (Hfr2 & Hfl2 & Hok2). repeat rstep.
    unfold flush_frame in Hfr2. state_simpl in Hfr2.
    injection Hfr2 as Hub2 Hlb2 Hmu2 Hsize2 Hblist2 HRefs2 Hroot2 Himu2 Hfreqs2
      Hint2 Hmem2 Helems2 Hmsd2.
    apply (Hfinal (Some p, err) (set_mu false s2)); cbn [fst snd]; state_simpl;
      try done; try congruence.
    intros ->. destruct Hfl2 as [-> ->]; [done |]. state_simpl. by rewrite Hroot2.
Qed.

(** X12. A read is counted once: [GetRef] of a held key on a well-formed
    index returns; the record has one more read and sits in the bucket
    whose id is one more than before; the held map and the accumulated
    size are what they were and the index is well formed again. When
    [GetRef] returns no error it returns the record, and the persistent
    map, flushed to the datastore, holds the record with the new
    frequency under the key. *)
Theorem GetRef_registers_read env k p r s :
  held_wf s → mu s = false → Refs s !! k = Some p → mem s !! p = Some r →
  BucketID r < max_int64 →
  returns (GetRef env k) s (λ res s',
    held_wf s' ∧ mu s' = false ∧ Refs s' = Refs s ∧ size s' = size s ∧
    (∃ np, in_bucket s' np p ∧ bid s' np = BucketID r + 1 ∧
       mem s' !! p = Some (mkDataRef (PayloadCID r) (PayloadSize r) (StoreID r)
                             (i64 (Freq r + 1)) (BucketID r + 1) (Some np))) ∧
    (res.2 = None →
       res.1 = Some p ∧
       root s' !! k = Some (mkStoredRef (PayloadCID r) (PayloadSize r) (StoreID r)
                              (i64 (Freq r + 1)) (BucketID r + 1)) ∧
       ds_idx s' = Some (root s'))).
Proof.
  intros Hwf Hmu HR Hr Hlt.
  eapply returns_mono; [by apply (GetRef_spec env k p r s) |].
  cbv beta. intros res s' (Hwf' & Hmu' & _ & (np & Hmem & Hin & Hbid) & _ & Hroot &
                           Hds & _ & Hfr).
  injection Hfr as _ _ Hsize HRefs _ _ _ _.
  splits; try done.
  - exists np. splits; try done. by rewrite Hmem, lookup_insert_eq.
  - intros Hres. destruct (Hds Hres) as (? & ? & _). splits; try done.
    rewrite Hroot by congruence. by rewrite lookup_insert_eq.
Qed.

Lemma GetRef_registers_read_witness :
  returns (GetRef Scenario.env_ok "A") Fixture.held_A (λ res s',
    held_wf s' ∧ mu s' = false ∧ Refs s' = Refs Fixture.held_A ∧
    size s' = size Fixture.held_A ∧
    (∃ np, in_bucket s' np Scenario.pA ∧ bid s' np = 1 + 1 ∧
       mem s' !! Scenario.pA
       = Some (mkDataRef "A" 100 1 (i64 (0 + 1)) (1 + 1) (Some np))) ∧
    (res.2 = None →
       res.1 = Some Scenario.pA ∧
       root s' !! "A" = Some (mkStoredRef "A" 100 1 (i64 (0 + 1)) (1 + 1)) ∧
       ds_idx s' = Some (root s'))).
Proof.
  apply (GetRef_registers_read Scenario.env_ok "A" Scenario.pA
           (mkDataRef "A" 100 1 0 1 (Some 0%nat)) Fixture.held_A).
  - apply held_A_spec.
  - reflexivity.
  - reflexivity.
  - reflexivity.
  - reflexivity.
Defined.



(** X14. [GetStoreID] is a read: on a held key it goes through [GetRef],
    so looking up the store of a record adds one to its frequency and
    moves it one bucket up. It returns the store id of the record when
    [GetRef] returns no error, and 0 with the error of [GetRef] otherwise
    (the read is counted all the same). *)
Theorem GetStoreID_registers_read env k p r s :
  held_wf s → mu s = false → Refs s !! k = Some p → mem s !! p = Some r →
  BucketID r < max_int64 →
  returns (GetStoreID env k) s (λ res s',
    match res.2 with
    | None => res.1 = StoreID r
    | Some _ => res.1 = 0
    end ∧
    (hamt_set_err env = false → hamt_flush_err env = false → ds_put_err env = false →
       res.2 = None) ∧
    held_wf s' ∧ mu s' = false ∧
    ∃ np, bid s' np = BucketID r + 1 ∧
      mem s' !! p = Some (mkDataRef (PayloadCID r) (PayloadSize r) (StoreID r)
                            (i64 (Freq r + 1)) (BucketID r + 1) (Some np))).
Proof.
  intros Hwf Hmu HR Hr Hlt. unfold GetStoreID.
  rcall (GetRef_spec env k p r s) as [ref err] s1
    (Hwf1 & Hmu1 & _ & (np & Hmem1 & _ & Hbid1) & _ & _ & Hds1 & Hok1 & _);
    [done | done | done | done | done |].
  cbn [fst snd] in *.
  assert (mem s1 !! p = Some (mkDataRef (PayloadCID r) (PayloadSize r) (StoreID r)
                                (i64 (Freq r + 1)) (BucketID r + 1) (Some np))) as Hr1
    by (by rewrite Hmem1, lookup_insert_eq).
  destruct err as [e |].
  - rstep. cbn [fst snd]. splits; try done. by exists np.
  - destruct Hds1 as (-> & _); [done |]. repeat rstep. cbn [fst snd StoreID].
    splits; try done. by exists np.
Qed.

Lemma GetStoreID_registers_read_witness :
  returns (GetStoreID Scenario.env_ok "A") Fixture.held_A (λ res s',
    match res.2 with
    | None => res.1 = 1
    | Some _ => res.1 = 0
    end ∧
    (hamt_set_err Scenario.env_ok = false → hamt_flush_err Scenario.env_ok = false →
     ds_put_err Scenario.env_ok = false → res.2 = None) ∧
    held_wf s' ∧ mu s' = false ∧
    ∃ np, bid s' np = 1 + 1 ∧
      mem s' !! Scenario.pA
      = Some (mkDataRef "A" 100 1 (i64 (0 + 1)) (1 + 1) (Some np))).
Proof.
  apply (GetStoreID_registers_read Scenario.env_ok "A" Scenario.pA
           (mkDataRef "A" 100 1 0 1 (Some 0%nat)) Fixture.held_A);
    try reflexivity.
  apply held_A_spec.
Defined.

(** ** DropRef *)

(** What [DropRef] does to a held record [p] that is in the persistent
    map under key [k]. *)
Lemma DropRef_spec env k p r v s :
  held_wf s → mu s = false → hamt_delete_err env = false →
  root s !! k = Some v → Refs s !! k = Some p → mem s !! p = Some r →
  returns (DropRef env k) s (λ a s',
    list_wf s' ∧ mu s' = false ∧ mem s' = mem s ∧
    root s' = delete k (root s) ∧
    (∀ e q, in_bucket s' e q ↔ in_bucket s e q ∧ q ≠ p) ∧
    (∀ e, bid s' e = bid s e) ∧
    (if ms_delete_err env (StoreID r)
     then a = Some ErrMultistore ∧ Refs s' = Refs s ∧ ms_deleted s' = ms_deleted s ∧
          ds_idx s' = ds_idx s ∧ rootCID s' = rootCID s
     else Refs s' = delete k (Refs s) ∧ ms_deleted s' = ms_deleted s ++ [StoreID r] ∧
          (a = None → ds_idx s' = Some (root s') ∧ rootCID s' = Some (root s'))) ∧
    (ub s', lb s', size s', imu s', freqs s', interest s') =
    (ub s, lb s, size s, imu s, freqs s, interest s)).
Proof.
  intros [Hwf Hheld] Hmu Hdel Hv HR Hr.
  destruct (Hheld k p HR) as [Hcid [cp Hcp]].
  destruct (bw_back _ _ _ Hwf cp p Hcp) as (r0 & Hr0 & Hn & Hbid); [done |].
  assert (r0 = r) as -> by congruence.
  unfold DropRef, with_mu. rewrite Hdel. do 5 rstep. rewrite Hv. cbv iota.
  do 2 rstep. rewrite HR. cbv iota. do 2 rstep. rewrite Hn. cbv iota.
  set (s0 := set_root _ _).
  assert (list_wf s0) as Hwf0 by (by apply (bucket_wf_ext _ _ s)).
  rcall (remBlistEntry_spec s0 cp p None) as ? s1 (Hwf1 & Hin1 & Hbid1 & Hmem1 & Hfr1);
    [done | by left | apply Hcp |].
  unfold increment_frame in Hfr1. subst s0. state_simpl in Hfr1.
  injection Hfr1 as Hub1 Hlb1 Hmu1 Hsize1 HRefs1 Hroot1 HrootCID1 Himu1 Hfreqs1
    Hint1 Hds1 Hmsd1.
  set (s0 := set_root (delete k (root s)) (set_mu true s)) in *. same_heap s0 s.
  assert (∀ e q, in_bucket s1 e q ↔ in_bucket s e q ∧ q ≠ p) as Hin1'.
  { intros e q. rewrite Hin1. split; intros [He Hne]; (split; [done |]).
    - intros ->. apply Hne. split; [| done].
      by apply (in_bucket_unique s None e cp p Hwf).
    - intros [_ ?]. done. }
  destruct (ms_delete_err env (StoreID r)) eqn:Hms.
  - repeat rstep. splits; try done.
    * by apply (bucket_wf_ext _ _ s1).
    * congruence.
  - do 4 rstep. rcall (Flush_result env) as err s2 (Hfr2 & Hfl2 & _). repeat rstep.
    unfold flush_frame in Hfr2. state_simpl in Hfr2.
    injection Hfr2 as Hub2 Hlb2 Hmu2 Hsize2 Hblist2 HRefs2 Hroot2 Himu2 Hfreqs2
      Hint2 Hmem2 Helems2 Hmsd2.
    assert (∀ e q, in_bucket s2 e q ↔ in_bucket s1 e q) as Hin2.
    { intros e q. unfold in_bucket, bentries, bucket_at. by rewrite Hblist2, Helems2. }
    splits; try congruence.
    * by apply (bucket_wf_ext _ _ s1).
    * intros e q. change (in_bucket (set_mu false s2)) with (in_bucket s2).
      rewrite Hin2. apply Hin1'.
    * intros e. change (bid (set_mu false s2)) with (bid s2).
      unfold bid, bucket_at. rewrite Helems2. apply Hbid1.
    * intros ->. destruct Hfl2 as [-> ->]; [done |]. by rewrite Hroot2.
Qed.

(** X15. [DropRef] of a held key that is in the persistent map, when the
    multistore deletes the sub-store: the call returns; the key is gone
    from the held map and from the persistent map, the record is out of
    the bucket list and no other record has moved, the sub-store of the
    record was deleted, and the index is well formed again. The
    accumulated size is what it was before the call. When no error is
    returned the new persistent map is the one recorded in the datastore. *)
Theorem DropRef_removes_record env k p r v s :
  held_wf s → mu s = false → hamt_delete_err env = false →
  ms_delete_err env (StoreID r) = false →
  root s !! k = Some v → Refs s !! k = Some p → mem s !! p = Some r →
  returns (DropRef env k) s (λ a s',
    held_wf s' ∧ mu s' = false ∧
    Refs s' = delete k (Refs s) ∧ root s' = delete k (root s) ∧
    (∀ e q, in_bucket s' e q ↔ in_bucket s e q ∧ q ≠ p) ∧
    ms_deleted s' = ms_deleted s ++ [StoreID r] ∧ size s' = size s ∧
    (a = None → ds_idx s' = Some (root s'))).
Proof.
  intros Hwf Hmu Hdel Hms Hv HR Hr.
  eapply returns_mono; [by apply (DropRef_spec env k p r v s) |].
  cbv beta. intros a s' (Hwf' & Hmu' & Hmem' & Hroot' & Hin' & _ & Hcase & Hfr).
  rewrite Hms in Hcase. destruct Hcase as (HRefs' & Hmsd' & Hds').
  injection Hfr as _ _ Hsize _ _ _.
  splits; try done.
  - split; [done |]. intros k' q Hkq. rewrite HRefs' in Hkq.
    apply lookup_delete_Some in Hkq as [Hne Hkq].
    destruct Hwf as [_ Hheld]. destruct (Hheld k' q Hkq) as [Hc [e He]].
    destruct (Hheld k p HR) as [Hcp _].
    split; [unfold pcid in *; by rewrite Hmem' |].
    exists e. apply Hin'. split; [done |]. intros ->. congruence.
  - intros Ha. by destruct (Hds' Ha).
Qed.

Lemma DropRef_removes_record_witness :
  returns (DropRef Scenario.env_ok "A") Fixture.held_A (λ a s',
    held_wf s' ∧ mu s' = false ∧
    Refs s' = delete "A" (Refs Fixture.held_A) ∧
    root s' = delete "A" (root Fixture.held_A) ∧
    (∀ e q, in_bucket s' e q ↔ in_bucket Fixture.held_A e q ∧ q ≠ Scenario.pA) ∧
    ms_deleted s' = ms_deleted Fixture.held_A ++ [1] ∧
    size s' = size Fixture.held_A ∧
    (a = None → ds_idx s' = Some (root s'))).
Proof.
  apply (DropRef_removes_record Scenario.env_ok "A" Scenario.pA
           (mkDataRef "A" 100 1 0 1 (Some 0%nat)) (mkStoredRef "A" 100 1 0 1)
           Fixture.held_A); try reflexivity.
  apply held_A_spec.
Defined.

(** X16. [DropRef] when the multistore fails to delete the sub-store: the
    call returns the error of the multistore after it has taken the key
    out of the persistent map and the record out of the bucket list, and
    before it erases the held map and flushes. The key is then still in
    the held map, with a record that is in no bucket, and its removal from
    the persistent map is not recorded in the datastore. *)
Theorem DropRef_multistore_failure env k p r v s :
  held_wf s → mu s = false → hamt_delete_err env = false →
  ms_delete_err env (StoreID r) = true →
  root s !! k = Some v → Refs s !! k = Some p → mem s !! p = Some r →
  returns (DropRef env k) s (λ a s',
    a = Some ErrMultistore ∧ mu s' = false ∧
    Refs s' !! k = Some p ∧ (∀ e, ¬ in_bucket s' e p) ∧
    root s' !! k = None ∧ ds_idx s' = ds_idx s ∧ list_wf s').
Proof.
  intros Hwf Hmu Hdel Hms Hv HR Hr.
  eapply returns_mono; [by apply (DropRef_spec env k p r v s) |].
  cbv beta. intros a s' (Hwf' & Hmu' & Hmem' & Hroot' & Hin' & _ & Hcase & Hfr).
  rewrite Hms in Hcase. destruct Hcase as (-> & HRefs' & _ & Hds' & _).
  splits; try done.
  - by rewrite HRefs'.
  - intros e [_ Hne]%Hin'. done.
  - by rewrite Hroot', lookup_delete_eq.
Qed.

Lemma DropRef_multistore_failure_witness :
  returns (DropRef Scenario.env_ms1 "A") Fixture.held_A (λ a s',
    a = Some ErrMultistore ∧ mu s' = false ∧
    Refs s' !! "A" = Some Scenario.pA ∧ (∀ e, ¬ in_bucket s' e Scenario.pA) ∧
    root s' !! "A" = None ∧ ds_idx s' = ds_idx Fixture.held_A ∧ list_wf s').
Proof.
  apply (DropRef_multistore_failure Scenario.env_ms1 "A" Scenario.pA
           (mkDataRef "A" 100 1 0 1 (Some 0%nat)) (mkStoredRef "A" 100 1 0 1)
           Fixture.held_A); try reflexivity.
  apply held_A_spec.
Defined.

(** ** ListRefs *)

Lemma returns_Ret {A} (m : M A) s a0 s0 :
  returns m s (λ a s', a = a0 ∧ s' = s0) → m s = Ret a0 s0.
Proof. unfold returns. destruct (m s); [by intros [-> ->] | done | done]. Qed.

Lemma range_buckets_spec env l s :
  (∀ e, e ∈ l → is_Some (bucket_at s e)) →
  range_buckets env l s
  = Ret (concat ((λ e, range_order env (bentries s e)) <$> l)) s.
Proof.
  intros Hl. apply returns_Ret.
  induction l as [| e l IH]; cbn [range_buckets].
  - rstep. done.
  - destruct (Hl e) as [b Hb%bucket_at_inv]; [by left |].
    do 2 rstep. rcall IH as rest s' [-> ->].
    { intros e' He'. apply Hl. by right. }
    rstep. cbn [fmap list_fmap concat]. by rewrite (bentries_Some _ _ _ Hb).
Qed.

Lemma walk_Permutation env s : range_perm env → walk env s ≡ₚ placed s.
Proof.
  intros Henv. unfold walk, placed.
  induction (blist s) as [| e l IH]; [done |].
  cbn [fmap list_fmap concat]. by rewrite IH, (Henv (bentries s e)).
Qed.

Lemma StronglySorted_all {A} (R : relation A) (l : list A) :
  (∀ x y, x ∈ l → y ∈ l → R x y) → StronglySorted R l.
Proof.
  induction l as [| a l IH]; intros H; constructor.
  - apply IH. intros x y Hx Hy. apply H; by right.
  - apply Forall_forall. intros y Hy. apply H; [by left | by right].
Qed.

Lemma pbid_in_bucket s e p : list_wf s → in_bucket s e p → pbid s p = bid s e.
Proof.
  intros Hwf Hin. destruct (bw_back _ _ _ Hwf e p Hin) as (r & Hr & _ & Hb); [done |].
  unfold pbid. by rewrite Hr.
Qed.

Lemma walk_sorted env s :
  range_perm env → list_wf s →
  StronglySorted (λ p q, pbid s p ≤ pbid s q) (walk env s).
Proof.
  intros Henv Hwf. unfold walk.
  assert (∀ e, e ∈ blist s → e ∈ blist s) as Hsub by done.
  pose proof (bw_sorted _ _ _ Hwf) as Hs.
  revert Hsub Hs. generalize (blist s) at 1 3 4. intros l Hsub Hs.
  induction l as [| e l IH]; [constructor |].
  apply StronglySorted_cons in Hs as [Hall Hs].
  cbn [fmap list_fmap concat]. apply StronglySorted_app_2.
  - intros p q Hp (e' & He' & Hq)%elem_of_concat_fmap.
    rewrite (Henv (bentries s e)) in Hp. rewrite (Henv (bentries s e')) in Hq.
    rewrite (pbid_in_bucket s e p), (pbid_in_bucket s e' q); try done.
    + rewrite Forall_forall in Hall. specialize (Hall e' He'). lia.
    + split; [apply Hsub; by right | done].
    + split; [apply Hsub; by left | done].
  - apply StronglySorted_all. intros p q Hp Hq.
    rewrite (Henv (bentries s e)) in Hp, Hq.
    rewrite (pbid_in_bucket s e p), (pbid_in_bucket s e q); try done.
    + split; [apply Hsub; by left | done].
    + split; [apply Hsub; by left | done].
  - apply IH; [| done]. intros e' He'. apply Hsub. by right.
Qed.

Lemma ListRefs_eq env s :
  list_wf s → mu s = false →
  ListRefs env s =
  if (base.size (Refs s) <? length (walk env s))%nat then Panic
  else Ret ((Some <$> walk env s) ++
            replicate (base.size (Refs s) - length (walk env s)) None) s.
Proof.
  intros Hwf Hmu. unfold ListRefs. rewrite with_mu_eq by done.
  unfold mbind, M_bind, bind, gets.
  rewrite range_buckets_spec.
  - cbn [blist set_mu Refs]. 
    change (concat ((λ e, range_order env (bentries (set_mu true s) e)) <$> blist s))
      with (walk env s).
    destruct (_ <? _)%nat; [done |]. cbn. by rewrite set_mu_unlock.
  - intros e He. apply (bw_bucket _ _ _ Hwf e He).
Qed.

(** X17. [ListRefs] on a well-formed index whose bucket list holds no more
    records than the held map has keys: it returns, without changing the
    index, the records of the bucket list, each once, front bucket first
    and so in non-decreasing order of bucket id (the records of one bucket
    in the order of the [range]), followed by one nil for every key of the
    held map beyond the number of records in the list. *)
Theorem ListRefs_walks_buckets env s :
  range_perm env → list_wf s → mu s = false →
  (length (placed s) ≤ base.size (Refs s))%nat →
  ListRefs env s
  = Ret ((Some <$> walk env s) ++
         replicate (base.size (Refs s) - length (placed s)) None) s ∧
  walk env s ≡ₚ placed s ∧
  StronglySorted (λ p q, pbid s p ≤ pbid s q) (walk env s).
Proof.
  intros Henv Hwf Hmu Hlen.
  pose proof (walk_Permutation env s Henv) as Hperm.
  splits; [| done | by apply walk_sorted].
  assert (length (walk env s) = length (placed s)) as Hl by (by rewrite Hperm).
  rewrite ListRefs_eq by done. rewrite Hl.
  destruct (_ <? _)%nat eqn:Hlt; [| done].
  apply Nat.ltb_lt in Hlt. lia.
Qed.

Lemma ListRefs_walks_buckets_witness :
  ListRefs Scenario.env_ok Fixture.held_A
  = Ret ((Some <$> walk Scenario.env_ok Fixture.held_A) ++
         replicate (base.size (Refs Fixture.held_A) - length (placed Fixture.held_A))
           None) Fixture.held_A ∧
  walk Scenario.env_ok Fixture.held_A ≡ₚ placed Fixture.held_A ∧
  StronglySorted (λ p q, pbid Fixture.held_A p ≤ pbid Fixture.held_A q)
    (walk Scenario.env_ok Fixture.held_A).
Proof.
  apply (ListRefs_walks_buckets Scenario.env_ok Fixture.held_A).
  - apply range_perm_ok.
  - apply held_A_spec.
  - reflexivity.
  - vm_compute. lia.
Defined.

(** X18. [ListRefs] panics when the bucket list holds more records than
    the held map has keys: the result slice is as long as the held map,
    and the walk writes one slot per record of the list. *)
Theorem ListRefs_panics_on_longer_list env s :
  range_perm env → list_wf s → mu s = false →
  (base.size (Refs s) < length (placed s))%nat →
  ListRefs env s = Panic.
Proof.
  intros Henv Hwf Hmu Hlen.
  assert (length (walk env s) = length (placed s)) as Hl
    by (by rewrite (walk_Permutation env s Henv)).
  rewrite ListRefs_eq by done. rewrite Hl.
  destruct (_ <? _)%nat eqn:Hlt; [done |].
  apply Nat.ltb_ge in Hlt. lia.
Qed.

Lemma range_perm_ms1 : range_perm Scenario.env_ms1.
Proof. intros l. reflexivity. Qed.

Lemma stale_A_spec : held_wf Fixture.stale_A ∧ mu Fixture.stale_A = false.
Proof.
  unfold Fixture.stale_A.
  apply (returns_after _ _ (λ s', held_wf s' ∧ mu s' = false)).
  eapply returns_mono;
    [apply (SetRef_spec Scenario.env_ms1 Scenario.pB Scenario.recB)
    | cbv beta; intros a s' (Hwf & Hmu & _); done]; try reflexivity.
  - apply range_perm_ms1.
  - apply (returns_after _ _ held_wf).
    eapply returns_mono;
      [apply (SetRef_spec Scenario.env_ms1 Scenario.pA Scenario.recA
                (Scenario.start 150 100))
      | cbv beta; intros a s' (Hwf & _); done]; try reflexivity.
    + apply range_perm_ms1.
    + by apply held_wf_empty.
Qed.

Lemma ListRefs_panics_on_longer_list_witness :
  ListRefs Scenario.env_ms1 Fixture.stale_A = Panic.
Proof.
  apply (ListRefs_panics_on_longer_list Scenario.env_ms1 Fixture.stale_A).
  - apply range_perm_ms1.
  - apply stale_A_spec.
  - reflexivity.
  - vm_compute. lia.
Defined.

(** ** What the two halves of the index leave alone *)




(** ** Available beyond the upper bound *)

(** X22. [Available] on an index that holds more than its upper bound:
    the unsigned subtraction [ub - size] wraps around, so the call does
    not return 0 but [2^64 + ub - size], a number larger than the upper
    bound itself. This covers the default bounds (0, 0) as soon as
    anything is held. *)
Theorem Available_over_capacity s :
  mu s = false → 0 ≤ lb s ≤ ub s → ub s < size s < 2 ^ 64 →
  Available s = Ret (2 ^ 64 + ub s - size s) s.
Proof.
  intros Hmu Hb Hs. rewrite Available_eq by done.
  assert (u64 (ub s - size s) = 2 ^ 64 + ub s - size s) as ->.
  { unfold u64. symmetry. apply (Z.mod_unique _ _ (-1)); lia. }
  rewrite (u64_small (ub s - lb s)) by lia.
  destruct (_ <? _) eqn:Hlt; [| done]. apply Z.ltb_lt in Hlt. lia.
Qed.

Lemma Available_over_capacity_witness :
  Available Fixture.held_A = Ret (2 ^ 64 + 0 - 100) Fixture.held_A.
Proof.
  apply (Available_over_capacity Fixture.held_A).
  - reflexivity.
  - vm_compute. split; discriminate.
  - vm_compute. split; reflexivity.
Defined.

(** ** Opening an index over a datastore *)

Lemma add_entry_nil p : add_entry p [] = [p].
Proof. unfold add_entry. rewrite decide_False; [done | apply not_elem_of_nil]. Qed.

Lemma insert_before_app m n l1 l2 :
  m ∉ l1 → GoList.insert_before m n (l1 ++ m :: l2) = l1 ++ n :: m :: l2.
Proof.
  induction l1 as [| x l1 IH]; simpl; intros H.
  - by rewrite decide_True.
  - apply not_elem_of_cons in H as [? ?]. rewrite decide_False by done.
    f_equal. auto.
Qed.

(** A new bucket that holds the record [v], between [l1] and [l2]. *)
Lemma wf_insert_bucket s s' l1 l2 e v i r' :
  list_wf s → blist s = l1 ++ l2 → elems s !! e = None →
  elems s' = <[e := Bucket (mkBucket i [v])]> (elems s) →
  blist s' = l1 ++ e :: l2 →
  mem s' = <[v := r']> (mem s) → bucketNode r' = Some e → BucketID r' = i →
  (∀ e0, ¬ in_bucket s e0 v) →
  (∀ x, x ∈ l1 → bid s x < i) → (∀ x, x ∈ l2 → i < bid s x) →
  - 2 ^ 63 ≤ i ≤ max_int64 →
  list_wf s' ∧
  (∀ e0 p, in_bucket s' e0 p ↔ in_bucket s e0 p ∨ (e0 = e ∧ p = v)) ∧
  (∀ e0, e0 ≠ e → bid s' e0 = bid s e0) ∧ bid s' e = i.
Proof.
  intros Hwf Hbl He Helems Hbl' Hmem Hnode Hbucket Hno Hlo Hhi Hrange.
  pose proof (list_wf_fresh _ _ Hwf He) as Hfresh.
  assert (∀ e0, e0 ≠ e → bid s' e0 = bid s e0) as Hbid
    by (intros; by apply (bid_write_ne _ _ _ _ Helems)).
  assert (bid s' e = i) as Hbe by (by rewrite (bid_write_eq _ _ _ _ Helems)).
  assert (bentries s' e = [v]) as Hese
    by (by rewrite (bentries_write_eq _ _ _ _ Helems)).
  assert (∀ e0, e0 ≠ e → bentries s' e0 = bentries s e0) as Hes
    by (intros; by apply (bentries_write_ne _ _ _ _ Helems)).
  assert (∀ x, x ∈ blist s' ↔ x = e ∨ x ∈ blist s) as Hel.
  { intros x. rewrite Hbl', Hbl, !elem_of_app, elem_of_cons. tauto. }
  assert (∀ x, x ∈ blist s → x ≠ e) as Hne by (intros x Hx ->; done).
  assert (∀ e0 p, in_bucket s' e0 p ↔ in_bucket s e0 p ∨ (e0 = e ∧ p = v)) as Hin.
  { intros e0 p. unfold in_bucket. rewrite Hel.
    destruct (decide (e0 = e)) as [-> |].
    - rewrite Hese, list_elem_of_singleton.
      split; [intros [_ ->]; auto | intros [[? _] | [_ ->]]; [done | auto]].
    - rewrite Hes by done.
      split; [intros [[? | ?] ?]; [done | auto] | intros [[? ?] | [? _]]; [auto | done]]. }
  splits; try done.
  pose proof (bw_nodup _ _ _ Hwf) as Hnd. pose proof (bw_sorted _ _ _ Hwf) as Hs.
  rewrite Hbl in Hnd, Hs, Hfresh.
  apply NoDup_app in Hnd as (Hnd1 & Hnd12 & Hnd2).
  apply not_elem_of_app in Hfresh as [Hf1 Hf2].
  apply StronglySorted_app in Hs as (Hs12 & Hs1 & Hs2).
  assert (∀ x, x ∈ l1 → x ≠ e) as Hne1
    by (intros x Hx; apply Hne; rewrite Hbl; apply elem_of_app; auto).
  assert (∀ x, x ∈ l2 → x ≠ e) as Hne2
    by (intros x Hx; apply Hne; rewrite Hbl; apply elem_of_app; auto).
  constructor.
  - rewrite Hbl'. apply NoDup_app. splits; [done | |].
    + intros x Hx [-> | Hx2]%elem_of_cons; [done | by apply (Hnd12 x)].
    + by apply NoDup_cons.
  - intros x [-> | Hx]%Hel.
    + rewrite (bucket_at_write_eq _ _ _ _ Helems). eauto.
    + rewrite (bucket_at_write_ne _ _ _ _ Helems) by auto.
      by apply (bw_bucket _ _ _ Hwf).
  - intros x [-> | Hx]%Hel _.
    + by rewrite Hese.
    + rewrite Hes by auto. by apply (bw_nonempty _ _ _ Hwf).
  - intros x [-> | Hx]%Hel.
    + rewrite Hese. apply NoDup_singleton.
    + rewrite Hes by auto. by apply (bw_entries_nodup _ _ _ Hwf).
  - intros x p [Hold | [-> ->]]%Hin _.
    + destruct (bw_back _ _ _ Hwf x p Hold) as (r & Hr & Hn & Hb); [done |].
      assert (p ≠ v) by (intros ->; by apply (Hno x)).
      assert (x ≠ e) by (apply Hne, Hold).
      exists r. rewrite Hmem, lookup_insert_ne by done. rewrite Hbid by done. done.
    + exists r'. rewrite Hmem, lookup_insert_eq. rewrite Hbe. done.
  - rewrite Hbl'. apply StronglySorted_app. splits.
    + intros x1 x2 Hx1 [-> | Hx2]%elem_of_cons.
      * rewrite Hbe, Hbid by auto. auto.
      * rewrite !Hbid by auto. by apply Hs12.
    + apply (StronglySorted_ext (bid s)); [| done]. intros x Hx. symmetry. auto.
    + constructor.
      * apply (StronglySorted_ext (bid s)); [| done]. intros x Hx. symmetry. auto.
      * apply Forall_forall. intros x Hx. rewrite Hbe, Hbid by auto. auto.
  - intros x [-> | Hx]%Hel; [by rewrite Hbe |].
    rewrite Hbid by auto. by apply (bw_range _ _ _ Hwf).
Qed.

Lemma list_wf_alloc s s' v r :
  list_wf s → mem s !! v = None →
  blist s' = blist s → elems s' = elems s → mem s' = <[v := r]> (mem s) →
  list_wf s'.
Proof.
  intros [H1 H2 H3 H4 H5 H6 H7] Hv Hb He Hm.
  constructor; unfold in_bucket, bentries, bid, bucket_at in *;
    rewrite ?Hb, ?He; try done.
  intros e p Hin Hg. destruct (H5 e p Hin Hg) as (r0 & Hr0 & ?).
  exists r0. rewrite Hm, lookup_insert_ne; [done |]. intros ->. congruence.
Qed.

Lemma blist_place_spec v i cands pre s :
  list_wf s → blist s = pre ++ cands → (∀ x, x ∈ pre → bid s x < i) →
  returns (blist_place v i cands) s (λ np s',
    ∃ e, np = Some e ∧ placed_at v i s e s' ∧ place_frame s' = place_frame s).
Proof.
  intros Hwf. revert pre.
  induction cands as [| c rest IH]; intros pre Hbl Hpre; cbn [blist_place].
  - unfold blist_PushBack. repeat rstep. eexists. split; [done |]. split; [| done].
    right. exists pre, []. rewrite app_nil_r in Hbl. rewrite add_entry_nil.
    splits; try done.
    + by rewrite app_nil_r.
    + apply not_elem_of_dom, is_fresh.
    + by rewrite Hbl.
    + by intros x ?%elem_of_nil.
  - assert (c ∈ blist s) as Hc by (rewrite Hbl; set_solver).
    destruct (bw_bucket _ _ _ Hwf c Hc) as [b Hb%bucket_at_inv].
    pose proof (bid_Some _ _ _ Hb) as Hid.
    do 2 rstep. destruct (id b =? i) eqn:Heq.
    + apply Z.eqb_eq in Heq. repeat rstep. exists c. split; [done |]. split; [| done].
      left. exists b. done.
    + apply Z.eqb_neq in Heq. destruct (i <? id b) eqn:Hlt.
      * apply Z.ltb_lt in Hlt. unfold blist_InsertBefore. do 2 rstep.
        rewrite decide_True by done. repeat rstep.
        eexists. split; [done |]. split; [| done].
        right. exists pre, (c :: rest). rewrite add_entry_nil.
        pose proof (bw_nodup _ _ _ Hwf) as Hnd. pose proof (bw_sorted _ _ _ Hwf) as Hs.
        rewrite Hbl in Hnd, Hs.
        apply NoDup_app in Hnd as (_ & Hnd & _).
        apply StronglySorted_app in Hs as (_ & _ & Hs).
        apply StronglySorted_cons in Hs as [Hall _]. rewrite Forall_forall in Hall.
        splits; try done.
        -- apply not_elem_of_dom, is_fresh.
        -- rewrite Hbl. apply insert_before_app. intros Hin. apply (Hnd c Hin). by left.
        -- intros x [-> | Hx]%elem_of_cons; [lia |]. specialize (Hall x Hx). lia.
      * apply Z.ltb_ge in Hlt.
        apply (IH (pre ++ [c])).
        -- by rewrite <- app_assoc.
        -- intros x [Hx | ->%list_elem_of_singleton]%elem_of_app; [auto | lia].
Qed.

(** One persisted record loaded into the index. *)
Lemma NewIndex_entry_spec k sv s :
  held_wf s → size_ok s → Refs s !! sPayloadCID sv = None →
  - 2 ^ 63 ≤ sBucketID sv ≤ max_int64 →
  0 ≤ sPayloadSize sv → size s + sPayloadSize sv < 2 ^ 64 →
  returns (NewIndex_entry k (Some sv)) s (λ a s',
    a = None ∧ held_wf s' ∧ size_ok s' ∧
    load_frame s' = load_frame s ∧
    size s' = size s + sPayloadSize sv ∧
    ∃ v e, mem s !! v = None ∧
      Refs s' = <[sPayloadCID sv := v]> (Refs s) ∧
      mem s' = <[v := with_bucketNode (Some e) (UnmarshalCBOR sv)]> (mem s) ∧
      (∀ e0 p, in_bucket s' e0 p ↔ in_bucket s e0 p ∨ (e0 = e ∧ p = v)) ∧
      bid s' e = sBucketID sv ∧ (∀ e0, e0 ∈ blist s → bid s' e0 = bid s e0)).
Proof.
  intros [Hwf Hheld] Hsz Hk Hrange H0 Hlt.
  set (v := fresh (dom (mem s))).
  assert (mem s !! v = None) as Hv by apply not_elem_of_dom, is_fresh.
  assert (∀ e0, ¬ in_bucket s e0 v) as Hno.
  { intros e0 Hin. destruct (bw_back _ _ _ Hwf e0 v Hin) as (r0 & Hr0 & _); [done |].
    congruence. }
  set (r := UnmarshalCBOR sv).
  assert (0 ≤ size s) as Hs0.
  { destruct Hsz as (Hs & _ & _ & Hpos). rewrite Hs.
    pose proof (bytes_of_nonneg s (placed s) Hpos). lia. }
  assert (u64 (size s + u64 (sPayloadSize sv)) = size s + sPayloadSize sv) as Hu
    by (rewrite (u64_small (sPayloadSize sv)) by lia; rewrite u64_small; lia).
  (* what is left to do once the record is placed and its back-pointer written *)
  assert (∀ s' e,
            mem s' = <[v := with_bucketNode (Some e) r]> (mem s) →
            Refs s' = <[sPayloadCID sv := v]> (Refs s) →
            size s' = size s + sPayloadSize sv →
            load_frame s' = load_frame s →
            list_wf s' →
            (∀ e0 p, in_bucket s' e0 p ↔ in_bucket s e0 p ∨ (e0 = e ∧ p = v)) →
            bid s' e = sBucketID sv → (∀ e0, e0 ∈ blist s → bid s' e0 = bid s e0) →
            held_wf s' ∧ size_ok s' ∧ load_frame s' = load_frame s ∧
            size s' = size s + sPayloadSize sv ∧
            ∃ v e, mem s !! v = None ∧
              Refs s' = <[sPayloadCID sv := v]> (Refs s) ∧
              mem s' = <[v := with_bucketNode (Some e) (UnmarshalCBOR sv)]> (mem s) ∧
              (∀ e0 p, in_bucket s' e0 p ↔ in_bucket s e0 p ∨ (e0 = e ∧ p = v)) ∧
              bid s' e = sBucketID sv ∧ (∀ e0, e0 ∈ blist s → bid s' e0 = bid s e0))
    as Hfinal.
  { intros s' e Hmem' HRefs' Hsize' Hfr' Hwf' Hin' Hbe' Hbid'.
    assert (∀ p, p ≠ v → mem s' !! p = mem s !! p) as Hother
      by (intros p Hp; by rewrite Hmem', lookup_insert_ne).
    splits; try done.
    - split; [done |]. intros k' p Hkp. rewrite HRefs' in Hkp.
      destruct (decide (k' = sPayloadCID sv)) as [-> | Hne].
      + rewrite lookup_insert_eq in Hkp. injection Hkp as <-. split.
        * unfold pcid. by rewrite Hmem', lookup_insert_eq.
        * exists e. apply Hin'. by right.
      + rewrite lookup_insert_ne in Hkp by done.
        destruct (Hheld k' p Hkp) as [Hc [e0 He0]].
        assert (p ≠ v) by (intros ->; by apply (Hno e0)).
        split; [unfold pcid in *; by rewrite Hother |].
        exists e0. apply Hin'. by left.
    - destruct Hsz as (Hs & _ & Hlt' & Hpos).
      pose proof (placed_add s s' e v Hwf Hwf' Hno Hin') as Hperm.
      assert (psize s' v = sPayloadSize sv) as Hpv
        by (unfold psize; by rewrite Hmem', lookup_insert_eq).
      assert (∀ p, p ∈ placed s → psize s' p = psize s p) as Hps.
      { intros p (e0 & He0)%elem_of_placed. unfold psize. rewrite Hother; [done |].
        intros ->. by apply (Hno e0). }
      unfold size_ok, size_rel. rewrite Hsize'.
      rewrite (bytes_of_Permutation _ _ _ Hperm), bytes_of_cons, Hpv.
      rewrite (bytes_of_ext s s' (placed s)) by done.
      splits; try lia.
      intros p Hp. rewrite Hperm in Hp. apply elem_of_cons in Hp as [-> | Hp]; [lia |].
      rewrite Hps by done. auto.
    - exists v, e. done. }
  unfold NewIndex_entry. fold r. do 2 rstep. fold v. do 7 rstep.
  destruct (blist s) as [| c l] eqn:Hbl; cbn [blist].
  - unfold blist_PushFront. repeat rstep. rewrite add_entry_nil.
    split; [done |]. set (e := fresh (dom (elems s))).
    match goal with |- held_wf ?st ∧ _ => set (s' := st) end.
    assert (elems s !! e = None) as He by apply not_elem_of_dom, is_fresh.
    destruct (wf_insert_bucket s s' [] [] e v (sBucketID sv)
                (with_bucketNode (Some e) r)) as (Hwf' & Hin' & Hbid' & Hbe').
    { done. }
    { done. }
    { done. }
    { done. }
    { subst s'. state_simpl. by rewrite Hbl. }
    { subst s'. state_simpl. by rewrite insert_insert_eq. }
    { done. }
    { done. }
    { done. }
    { by intros x ?%elem_of_nil. }
    { by intros x ?%elem_of_nil. }
    { done. }
    apply (Hfinal s' e); try done.
    + subst s'. state_simpl. by rewrite insert_insert_eq.
    + by intros e0 ?%elem_of_nil.
  - set (s2 := set_size _ _).
    assert (list_wf s2) as Hwf2 by (by apply (list_wf_alloc s s2 v r)).
    rcall (blist_place_spec v (sBucketID sv) (c :: l) [] s2) as np s3
      (e & -> & Hplace & Hfr3); [done | done | by intros x ?%elem_of_nil |].
    repeat rstep. split; [done |].
    match goal with |- held_wf ?st ∧ _ => set (s' := st) end.
    unfold place_frame in Hfr3. subst s2. state_simpl in Hfr3.
    injection Hfr3 as Hub3 Hlb3 Hmu3 Hsize3 HRefs3 Hroot3 HrootCID3 Himu3 Hfreqs3
      Hint3 Hmem3 Hds3 Hmsd3.
    set (s2 := set_size (u64 (size s + u64 (PayloadSize r)))
                 (set_Refs (<[PayloadCID r:=v]> (Refs s))
                    (set_mem (<[v:=r]> (mem s)) s))) in *.
    assert (mem s' = <[v := with_bucketNode (Some e) r]> (mem s)) as Hmem'.
    { subst s'. state_simpl. by rewrite Hmem3, insert_insert_eq. }
    assert (∀ e0, bid s2 e0 = bid s e0) as Hb2 by done.
    assert (blist s2 = blist s) as Hbl2 by done.
    assert (elems s2 = elems s) as Hel2 by done.
    assert (list_wf s' ∧
            (∀ e0 p, in_bucket s' e0 p ↔ in_bucket s e0 p ∨ (e0 = e ∧ p = v)) ∧
            bid s' e = sBucketID sv ∧ (∀ e0, e0 ∈ blist s → bid s' e0 = bid s e0))
      as (Hwf' & Hin' & Hbe' & Hbid').
    { destruct Hplace as [(b & He & Hb & Hid & Helems3 & Hbl3)
                         | (l1 & l2 & Hsplit & He & Helems3 & Hbl3 & Hlo & Hhi)].
      - rewrite Hel2 in Hb, Helems3. rewrite Hbl2 in He, Hbl3.
        edestruct (wf_add_entry s s' e v b (with_bucketNode (Some e) r) None None)
          as (Hwf' & Hin' & Hbid'); try done.
        { by left. }
        { intros e0 He0. by destruct (Hno e0). }
        splits; try done. rewrite Hbid'. by rewrite (bid_Some _ _ _ Hb).
      - rewrite Hel2 in He, Helems3. rewrite Hbl2 in Hsplit.
        edestruct (wf_insert_bucket s s' l1 l2 e v (sBucketID sv)
                     (with_bucketNode (Some e) r)) as (Hwf' & Hin' & Hbid' & Hbe');
          try done.
        splits; try done. intros e0 He0. apply Hbid'. intros ->.
        by apply (list_wf_fresh s e Hwf He). }
    apply (Hfinal s' e); try done.
    + subst s'. state_simpl. rewrite Hsize3. subst s2. state_simpl.
      change (PayloadSize r) with (sPayloadSize sv). by rewrite Hu.
    + subst s'. unfold load_frame. state_simpl.
      rewrite Hub3, Hlb3, Hmu3, Hroot3, HrootCID3, Himu3, Hfreqs3, Hint3, Hds3, Hmsd3.
      reflexivity.
    + intros e0 He0. apply Hbid'. by rewrite Hbl.
Qed.

Lemma stored_bytes_cons k sv l :
  stored_bytes ((k, Some sv) :: l) = sPayloadSize sv + stored_bytes l.
Proof. reflexivity. Qed.

Lemma stored_bytes_nonneg l : Forall stored_ok l → 0 ≤ stored_bytes l.
Proof.
  induction 1 as [| [k val] l (sv & Hval & _ & _ & H0) _ IH]; [done |].
  cbn [snd] in Hval. subst val. rewrite stored_bytes_cons. lia.
Qed.

(** The whole walk of [NewIndex] over the persisted entries. *)
Lemma NewIndex_walk_spec l s :
  held_wf s → size_ok s → NoDup l.*1 → (∀ k, k ∈ l.*1 → Refs s !! k = None) →
  Forall stored_ok l → size s + stored_bytes l < 2 ^ 64 →
  returns (ForEach NewIndex_entry l) s (λ a s',
    a = None ∧ held_wf s' ∧ size_ok s' ∧ load_frame s' = load_frame s ∧
    size s' = size s + stored_bytes l ∧
    (∀ k sv, (k, Some sv) ∈ l →
       ∃ p e, Refs s' !! k = Some p ∧
              mem s' !! p = Some (with_bucketNode (Some e) (UnmarshalCBOR sv)) ∧
              in_bucket s' e p ∧ bid s' e = sBucketID sv) ∧
    (∀ k, k ∉ l.*1 → Refs s' !! k = Refs s !! k) ∧
    (∀ p r, mem s !! p = Some r → mem s' !! p = Some r) ∧
    (∀ e p, in_bucket s e p → in_bucket s' e p) ∧
    (∀ e, e ∈ blist s → bid s' e = bid s e)).
Proof.
  revert s. induction l as [| [k val] l IH]; intros s Hwf Hsz Hnd Hfree Hok Hlt;
    cbn [ForEach].
  - rstep. splits; try done.
    + unfold stored_bytes. cbn. lia.
    + by intros k sv ?%elem_of_nil.
  - apply Forall_cons in Hok as [(sv & Hval & Hcid & Hrange & H0) Hok].
    cbn [fst snd] in *. subst val. rewrite fmap_cons in Hnd, Hfree. cbn [fst] in *.
    apply NoDup_cons in Hnd as [Hk Hnd]. rewrite stored_bytes_cons in *.
    pose proof (stored_bytes_nonneg l Hok) as Hnn.
    rcall (NewIndex_entry_spec k sv s) as a s1
      (-> & Hwf1 & Hsz1 & Hfr1 & Hsize1 & v & e & Hv & HRefs1 & Hmem1 & Hin1 & Hbe1 & Hbid1);
      [done | done | rewrite Hcid; apply Hfree; by left | done | done | lia |].
    cbv iota. rewrite Hcid in HRefs1.
    eapply returns_mono; [apply (IH s1); try done |].
    + intros k' Hk'. rewrite HRefs1, lookup_insert_ne by (intros ->; done).
      apply Hfree. by right.
    + lia.
    + cbv beta. intros a s' (-> & Hwf' & Hsz' & Hfr' & Hsize' & Hall' & Hrest' & Hmem' &
                             Hin' & Hbid').
      splits; try done.
      * congruence.
      * lia.
      * intros k' sv' [[= <- <-] | Hin]%elem_of_cons.
        -- exists v, e. splits.
           ++ rewrite Hrest' by done. by rewrite HRefs1, lookup_insert_eq.
           ++ apply Hmem'. by rewrite Hmem1, lookup_insert_eq.
           ++ apply Hin', Hin1. by right.
           ++ rewrite Hbid'; [done |]. assert (in_bucket s1 e v) as [? _]; [| done].
              apply Hin1. by right.
        -- by apply Hall'.
      * intros k' Hk'. apply not_elem_of_cons in Hk' as [Hne Hk'].
        rewrite Hrest' by done. by rewrite HRefs1, lookup_insert_ne.
      * intros p r Hp. apply Hmem'. rewrite Hmem1, lookup_insert_ne; [done |].
        intros ->. congruence.
      * intros e0 p Hp. apply Hin', Hin1. by left.
      * intros e0 He0. rewrite <- Hbid1 by done. apply Hbid'.
        destruct Hwf as [Hwf _]. apply (in_blist_iff s e0 Hwf) in He0 as [p Hp].
        assert (in_bucket s1 e0 p) as [? _]; [| done]. apply Hin1. by left.
Qed.

(** X23. Opening an index over a datastore that holds a root: [NewIndex]
    with the option [WithBounds(up, lo)], [lo] not above [up], returns an
    index and no error when the entries of the root are records as the
    index writes them. Every record of the root is held under its key and
    sits in the bucket that has the bucket id persisted with the record,
    whatever its frequency and whatever the order of the entries; bucket
    ids are strictly ascending along the list; the accumulated size is the
    sum of the sizes of the records; the root is the root found. *)
Theorem NewIndex_restores_buckets up lo l :
  lo ≤ up → NoDup l.*1 → Forall stored_ok l → stored_bytes l < 2 ^ 64 →
  ∃ s', NewIndex_over (StoredRoot l) [WithBounds up lo] = Ret None s' ∧
    held_wf s' ∧ size_ok s' ∧ size s' = stored_bytes l ∧
    (ub s', lb s', mu s') = (up, lo, false) ∧
    root s' = root_of l ∧ rootCID s' = Some (root_of l) ∧
    ∀ k sv, (k, Some sv) ∈ l →
      ∃ p e, Refs s' !! k = Some p ∧
             mem s' !! p = Some (with_bucketNode (Some e) (UnmarshalCBOR sv)) ∧
             in_bucket s' e p ∧ bid s' e = sBucketID sv.
Proof.
  intros Hb Hnd Hok Hlt. unfold NewIndex_over.
  match goal with |- ∃ s', ?m ?s0 = _ ∧ _ =>
    assert (returns m s0 (λ a s', a = None ∧
      held_wf s' ∧ size_ok s' ∧ size s' = stored_bytes l ∧
      (ub s', lb s', mu s') = (up, lo, false) ∧
      root s' = root_of l ∧ rootCID s' = Some (root_of l) ∧
      ∀ k sv, (k, Some sv) ∈ l →
        ∃ p e, Refs s' !! k = Some p ∧
               mem s' !! p = Some (with_bucketNode (Some e) (UnmarshalCBOR sv)) ∧
               in_bucket s' e p ∧ bid s' e = sBucketID sv)) as Hret
  end.
  { cbn [apply_opts]. unfold WithBounds. rewrite (proj2 (Z.ltb_ge up lo)) by lia.
    unfold loadFromStore. repeat rstep.
    match goal with |- returns _ ?st _ => set (s1 := st) end.
    eapply returns_mono; [apply (NewIndex_walk_spec l s1) |].
    - by apply held_wf_empty.
    - by apply size_ok_empty.
    - done.
    - intros k _. apply lookup_empty.
    - done.
    - change (size s1) with 0. lia.
    - cbv beta. intros a s' (-> & Hwf' & Hsz' & Hfr' & Hsize' & Hall' & _).
      unfold load_frame in Hfr'.
      injection Hfr' as Hub Hlb Hmu Hroot HrootCID _ _ _ _ _.
      change (size s1) with 0 in Hsize'.
      splits; try done. rewrite Hub, Hlb, Hmu. reflexivity. }
  apply returns_inv in Hret as (a & s' & Heq & -> & H). exists s'. done.
Qed.

Lemma NewIndex_restores_buckets_witness :
  ∃ s', NewIndex_over (StoredRoot Fixture.rootAB) [WithBounds 250 150] = Ret None s' ∧
    held_wf s' ∧ size_ok s' ∧ size s' = stored_bytes Fixture.rootAB ∧
    (ub s', lb s', mu s') = (250, 150, false) ∧
    root s' = root_of Fixture.rootAB ∧ rootCID s' = Some (root_of Fixture.rootAB) ∧
    ∀ k sv, (k, Some sv) ∈ Fixture.rootAB →
      ∃ p e, Refs s' !! k = Some p ∧
             mem s' !! p = Some (with_bucketNode (Some e) (UnmarshalCBOR sv)) ∧
             in_bucket s' e p ∧ bid s' e = sBucketID sv.
Proof.
  apply (NewIndex_restores_buckets 250 150 Fixture.rootAB).
  - lia.
  - apply (bool_decide_unpack _). by vm_compute.
  - apply Forall_cons; split; [| apply Forall_cons; split; [| constructor]];
      (eexists; split; [reflexivity |]; split; [reflexivity |]; cbn;
       unfold max_int64; lia).
  - reflexivity.
Defined.
